(** * Org-chart layout engine: tree builder, expansion policy, sorting,
      x-layout and zoom state of SimpleOrgChart.js / HTMLOrgChart.js

    Numbers of the JavaScript sources are modelled by exact rationals ([Q])
    or integers ([Z]); a JavaScript [Map] is a [gmap], an object used as a
    dictionary is a [gmap] as well, an array is a [list]. *)

From Stdlib Require Import ZArith QArith Qminmax Qabs Lia Lqa Sorted Permutation.
From Stdlib Require Floats.SpecFloat.
From stdpp Require Import base gmap list strings relations.

Set Default Proof Using "Type".
Set Warnings "-clear-no-such-hyp,-register-all".

(* ------------------------------------------------------------------ *)
(** * Tree builder: [processData] (both variants, hierarchy pass)      *)
(* ------------------------------------------------------------------ *)

Module Builder.

(** The values an [id] or [pid] field can hold. *)
Inductive jsval := JNum (z : Z) | JStr (s : string) | JNull | JUndef.

#[global] Instance jsval_eq_dec : EqDecision jsval.
Proof. solve_decision. Defined.

Definition jsval_enc (v : jsval) : Z + string + bool :=
  match v with
  | JNum z => inl (inl z) | JStr s => inl (inr s)
  | JNull => inr true | JUndef => inr false
  end.

Definition jsval_dec (e : Z + string + bool) : jsval :=
  match e with
  | inl (inl z) => JNum z | inl (inr s) => JStr s
  | inr true => JNull | inr false => JUndef
  end.

#[global] Instance jsval_countable : Countable jsval.
Proof. apply (inj_countable' jsval_enc jsval_dec). by intros []. Defined.

(** JavaScript truthiness, as used by [node.pid && ...]. *)
Definition truthy (v : jsval) : bool :=
  match v with
  | JNum z => negb (z =? 0)%Z
  | JStr s => negb (String.eqb s EmptyString)
  | JNull | JUndef => false
  end.

(** An input record; an absent [pid] is [JUndef].  The display attributes
    are not read by the builder. *)
Record record := Rec { rid : jsval; rpid : jsval }.

(** A processed node [{ ...node, children: [], level: 0 }].  Every processed
    node object is stored once in [nodeMap] under its id, so a reference to
    the object (an element of a [children] array or of [rootNodes]) is
    modelled by that key: writes through any alias go to the one store. *)
Record pnode := PNode { node_rec : record; children : list jsval; level : Z }.

Definition set_level (l : Z) (p : pnode) : pnode :=
  {| node_rec := node_rec p; children := children p; level := l |}.

Definition push_child (c : jsval) (p : pnode) : pnode :=
  {| node_rec := node_rec p; children := children p ++ [c]; level := level p |}.

(** Duplicate removal on the input, by id only. *)
Fixpoint uniqueData_from (seenIds : gset jsval) (data : list record) : list record :=
  match data with
  | [] => []
  | node :: rest =>
      if decide (rid node ∈ seenIds) then uniqueData_from seenIds rest
      else node :: uniqueData_from ({[rid node]} ∪ seenIds) rest
  end.

Definition uniqueData (data : list record) : list record :=
  uniqueData_from ∅ data.

(** First pass: every node goes into the map. *)
Definition firstPass (uniq : list record) : gmap jsval pnode :=
  fold_left
    (fun nodeMap node =>
       <[rid node := {| node_rec := node; children := []; level := 0 |}]> nodeMap)
    uniq ∅.

(** The state threaded through the second pass. *)
Record hier := Hier { nodeMap : gmap jsval pnode; rootNodes : list jsval }.

(** One iteration of the second pass (the body of [uniqueData.forEach]). *)
Definition attach (st : hier) (node : record) : hier :=
  match nodeMap st !! rid node with
  | None => st   (* not reached: every unique record is in the map *)
  | Some _ =>
      if truthy (rpid node) && bool_decide (is_Some (nodeMap st !! rpid node)) then
        match nodeMap st !! rpid node with
        | Some parentNode =>
            (* processedNode.level = parentNode.level + 1 *)
            let m1 := alter (set_level (level parentNode + 1)) (rid node) (nodeMap st) in
            (* parentNode.children.push(processedNode) *)
            let m2 := alter (push_child (rid node)) (rpid node) m1 in
            {| nodeMap := m2; rootNodes := rootNodes st |}
        | None => st
        end
      else
        {| nodeMap := alter (set_level 0) (rid node) (nodeMap st);
           rootNodes := rootNodes st ++ [rid node] |}
  end.

Definition secondPass (uniq : list record) (st : hier) : hier :=
  fold_left attach uniq st.

(** The state from which the second pass starts: every unique record in
    the map, no roots yet. *)
Definition start (data : list record) : hier :=
  {| nodeMap := firstPass (uniqueData data); rootNodes := [] |}.

(** [processData] up to the point where the hierarchy is built. *)
Definition processData (data : list record) : hier :=
  secondPass (uniqueData data) (start data).

(** The children relation of the built store and what it reaches. *)
Definition child_of (m : gmap jsval pnode) (p c : jsval) : Prop :=
  exists pn, m !! p = Some pn /\ c ∈ children pn.

Definition level_of (m : gmap jsval pnode) (k : jsval) : option Z :=
  level <$> m !! k.

Definition children_of (m : gmap jsval pnode) (k : jsval) : list jsval :=
  default [] (children <$> m !! k).

(** Whether the second pass hangs [node] under a parent. *)
Definition attaches (m : gmap jsval pnode) (node : record) : bool :=
  truthy (rpid node) && bool_decide (is_Some (m !! rpid node)).

Definition reaches (m : gmap jsval pnode) : relation jsval := rtc (child_of m).
Definition descends (m : gmap jsval pnode) : relation jsval := tc (child_of m).

End Builder.

(* ------------------------------------------------------------------ *)
(** * The processed tree handed to sorting, expansion and layout       *)
(* ------------------------------------------------------------------ *)

(** A processed node with its children array.  The nodes hanging from
    [rootNodes] form a forest: a node has at most one parent and none
    reachable from a root lies on a cycle (both are proved for the builder
    below).  Ids are integers here (as in the repository's
    example data), so [id.toString()], the key under which the position
    object and the duplicate filter store a node, is injective and the
    integer itself serves as key.  [name] is the only display attribute the
    sorting reads. *)
Inductive tnode := TNode { id : Z; name : string; children : list tnode }.

(** [sortDirection] and [sortBy]; a custom comparator is not modelled. *)
Inductive direction := Asc | Desc.
Inductive sortField := ByName | ById.

(** [Array.prototype.sort] with a comparator: a stable sort.  [Lt] stands
    for a negative result, [Gt] for a positive one, [Eq] for zero. *)
Fixpoint js_insert {A} (cmp : A -> A -> comparison) (a : A) (l : list A) : list A :=
  match l with
  | [] => [a]
  | b :: r => match cmp a b with
              | Gt => b :: js_insert cmp a r
              | _ => a :: b :: r
              end
  end.

Definition js_sort {A} (cmp : A -> A -> comparison) (l : list A) : list A :=
  foldr (js_insert cmp) [] l.

(** [String.prototype.toLowerCase] on ASCII strings. *)
Definition lower_ascii (c : Ascii.ascii) : Ascii.ascii :=
  let n := Ascii.N_of_ascii c in
  if ((65 <=? n) && (n <=? 90))%N then Ascii.ascii_of_N (n + 32) else c.

Fixpoint toLowerCase (s : string) : string :=
  match s with
  | EmptyString => EmptyString
  | String c r => String (lower_ascii c) (toLowerCase r)
  end.

(** [isAscending ? c : -c]. *)
Definition oriented (d : direction) (c : comparison) : comparison :=
  match d with Asc => c | Desc => CompOpp c end.

(** Recursive sorting of a forest with a comparator that reads [id] and
    [name] only; the children of every node are sorted with the same
    comparator.  (The source sorts a list and then recurses into the
    children of its nodes, which gives the same forest.) *)
Fixpoint sortNode (cmp : tnode -> tnode -> comparison) (n : tnode) : tnode :=
  match n with
  | TNode i nm ch => TNode i nm (js_sort cmp (map (sortNode cmp) ch))
  end.

Definition sortForest (cmp : tnode -> tnode -> comparison) (nodes : list tnode) : list tnode :=
  js_sort cmp (map (sortNode cmp) nodes).



(** Ids of a forest in pre-order, and of the proper descendants of a node. *)
Fixpoint node_ids (n : tnode) : list Z :=
  match n with
  | TNode i _ ch => i :: flat_map node_ids ch
  end.

Definition forest_ids (nodes : list tnode) : list Z := flat_map node_ids nodes.
Definition sub_ids (n : tnode) : list Z := forest_ids (children n).

(** The nodes of a forest with their depth, in pre-order. *)
Fixpoint node_depths (level : Z) (n : tnode) : list (Z * Z) :=
  match n with
  | TNode i _ ch => (i, level) :: flat_map (node_depths (level + 1)) ch
  end.

Definition forest_depths (level : Z) (nodes : list tnode) : list (Z * Z) :=
  flat_map (node_depths level) nodes.

(** [Map.prototype.get] on the expansion map, read as a condition. *)
Definition isExpanded (expandedNodes : gmap Z bool) (i : Z) : bool :=
  default false (expandedNodes !! i).

(** What a comparator of [sortNodes] reads of a node. *)
Definition label (n : tnode) : Z * string := (id n, name n).

(** [R] holds between every node and each later one of the list. *)
Fixpoint pairwise {A} (R : A -> A -> Prop) (l : list A) : Prop :=
  match l with
  | [] => True
  | a :: r => Forall (R a) r /\ pairwise R r
  end.

(** [R] holds pairwise among the children of every node at or below [n],
    and among the nodes of every sibling list of a forest. *)
Fixpoint pairwiseBelow (R : tnode -> tnode -> Prop) (n : tnode) : Prop :=
  match n with
  | TNode _ _ ch => pairwise R ch /\ foldr (fun c acc => pairwiseBelow R c /\ acc) True ch
  end.

Definition siblingsPairwise (R : tnode -> tnode -> Prop) (nodes : list tnode) : Prop :=
  pairwise R nodes /\ foldr (fun c acc => pairwiseBelow R c /\ acc) True nodes.

(** Writing the policy value of every (id, depth) pair in turn. *)
Definition writePolicy (pol : Z -> bool) (l : list (Z * Z)) (m : gmap Z bool) : gmap Z bool :=
  fold_left (fun m p => <[p.1 := pol p.2]> m) l m.

(* ------------------------------------------------------------------ *)
(** * HTMLOrgChart.js                                                  *)
(* ------------------------------------------------------------------ *)

Module HTMLOrgChart.

Record options := Options {
  initiallyExpanded : bool;
  initialVisibleLevels : Z;
  sortBy : sortField;
  sortDirection : direction
}.

Definition defaultOptions : options :=
  {| initiallyExpanded := false; initialVisibleLevels := 1;
     sortBy := ByName; sortDirection := Asc |}.

Fixpoint configureExpansion (o : options) (level : Z) (node : tnode)
    (expandedNodes : gmap Z bool) : gmap Z bool :=
  match node with
  | TNode i _ ch =>
      let expanded := initiallyExpanded o || (level <? initialVisibleLevels o)%Z in
      fold_left (fun m c => configureExpansion o (level + 1) c m) ch
                (<[i := expanded]> expandedNodes)
  end.

Definition configureInitialExpansion (o : options) (hierarchicalData : list tnode)
    (expandedNodes : gmap Z bool) : gmap Z bool :=
  fold_left (fun m n => configureExpansion o 0 n m) hierarchicalData expandedNodes.

(** The comparator of [sortNodes]: 0 on ties. *)
Definition compareNodes (o : options) (a b : tnode) : comparison :=
  match sortBy o with
  | ByName =>
      oriented (sortDirection o)
               (String.compare (toLowerCase (name a)) (toLowerCase (name b)))
  | ById => oriented (sortDirection o) (Z.compare (id a) (id b))
  end.

Definition sortNodes (o : options) (nodes : list tnode) : list tnode :=
  sortForest (compareNodes o) nodes.

(** The options after choosing a sort field and direction. *)
Definition setSortOrder (f : sortField) (d : direction) (o : options) : options :=
  {| initiallyExpanded := initiallyExpanded o;
     initialVisibleLevels := initialVisibleLevels o;
     sortBy := f; sortDirection := d |}.

(** The value [configureExpansion] writes at a depth. *)
Definition policy (o : options) (level : Z) : bool :=
  initiallyExpanded o || (level <? initialVisibleLevels o)%Z.

(** Viewport state and the wheel handler. *)
Record view := View { scale : Q; translateX : Q; translateY : Q }.

Definition clampScale (s : Q) : Q := Qmax (1 # 10) (Qmin 3 s).

(** [deltaY > 0 ? -0.1 : 0.1]. *)
Definition wheelDelta (deltaY : Q) : Q :=
  if Qlt_le_dec 0 deltaY then (- (1 # 10))%Q else (1 # 10)%Q.

(** [mouseX], [mouseY]: cursor position relative to the chart container. *)
Definition handleWheel (deltaY mouseX mouseY : Q) (v : view) : view :=
  let delta := wheelDelta deltaY in
  let mouseChartX := ((mouseX - translateX v) / scale v)%Q in
  let mouseChartY := ((mouseY - translateY v) / scale v)%Q in
  let newScale := clampScale (scale v + delta)%Q in
  {| scale := newScale;
     translateX := (mouseX - mouseChartX * newScale)%Q;
     translateY := (mouseY - mouseChartY * newScale)%Q |}.

(** The content-space point under a focal point. *)
Definition contentPoint (focal : Q) (translate : Q) (s : Q) : Q :=
  ((focal - translate) / s)%Q.

(** [adjustZoom(delta)]: the zoom buttons; the zoom is about the centre of
    the container. *)
Definition adjustZoom (containerWidth containerHeight delta : Q) (v : view) : view :=
  let centerX := (containerWidth / 2)%Q in
  let centerY := (containerHeight / 2)%Q in
  let centerChartX := ((centerX - translateX v) / scale v)%Q in
  let centerChartY := ((centerY - translateY v) / scale v)%Q in
  let newScale := clampScale (scale v + delta)%Q in
  {| scale := newScale;
     translateX := (centerX - centerChartX * newScale)%Q;
     translateY := (centerY - centerChartY * newScale)%Q |}.

(** The zoom operations of the controls and of the wheel. *)
Inductive zoomOp :=
  | AdjustZoom (delta : Q)
  | Wheel (deltaY mouseX mouseY : Q).

Definition zoomStep (containerWidth containerHeight : Q) (v : view) (op : zoomOp) : view :=
  match op with
  | AdjustZoom delta => adjustZoom containerWidth containerHeight delta v
  | Wheel deltaY mouseX mouseY => handleWheel deltaY mouseX mouseY v
  end.

Definition runZoom (containerWidth containerHeight : Q) (ops : list zoomOp) (v : view) : view :=
  fold_left (zoomStep containerWidth containerHeight) ops v.

(** Dragging with the mouse ([startDrag], [moveDrag], [endDrag] of
    [setupZoomControls]).  [onControl] says that the target of the event is
    a button or lies inside a control, which [startDrag] ignores. *)
Record dragState := DragState { isDragging : bool; lastX : Q; lastY : Q }.

Inductive mouseEvent :=
  | MouseDown (button : Z) (onControl : bool) (clientX clientY : Q)
  | MouseMove (clientX clientY : Q)
  | MouseUp.

Definition mouseStep (st : view * dragState) (ev : mouseEvent) : view * dragState :=
  let '(v, d) := st in
  match ev with
  | MouseDown button onControl clientX clientY =>
      if (button =? 2)%Z || onControl then st
      else (v, {| isDragging := true; lastX := clientX; lastY := clientY |})
  | MouseMove clientX clientY =>
      if isDragging d then
        let deltaX := (clientX - lastX d)%Q in
        let deltaY := (clientY - lastY d)%Q in
        ({| scale := scale v;
            translateX := (translateX v + deltaX)%Q;
            translateY := (translateY v + deltaY)%Q |},
         {| isDragging := true; lastX := clientX; lastY := clientY |})
      else st
  | MouseUp =>
      if isDragging d then
        (v, {| isDragging := false; lastX := lastX d; lastY := lastY d |})
      else st
  end.

Definition runMouse (evs : list mouseEvent) (st : view * dragState) : view * dragState :=
  fold_left mouseStep evs st.

(** The expansion map under [toggleNode], [expandAll] and [collapseAll]
    (the DOM updates that follow are not modelled). *)
Definition toggleNode (nodeId : Z) (expandedNodes : gmap Z bool) : gmap Z bool :=
  let currentState := isExpanded expandedNodes nodeId in
  <[nodeId := negb currentState]> expandedNodes.

Fixpoint expandNode (node : tnode) (expandedNodes : gmap Z bool) : gmap Z bool :=
  match node with
  | TNode i _ ch =>
      fold_left (fun m c => expandNode c m) ch (<[i := true]> expandedNodes)
  end.

Definition expandAll (hierarchicalData : list tnode) (expandedNodes : gmap Z bool)
    : gmap Z bool :=
  fold_left (fun m n => expandNode n m) hierarchicalData expandedNodes.

Fixpoint collapseNode (o : options) (level : Z) (node : tnode)
    (expandedNodes : gmap Z bool) : gmap Z bool :=
  match node with
  | TNode i _ ch =>
      fold_left (fun m c => collapseNode o (level + 1) c m) ch
                (<[i := (level <? initialVisibleLevels o)%Z]> expandedNodes)
  end.

Definition collapseAll (o : options) (hierarchicalData : list tnode)
    (expandedNodes : gmap Z bool) : gmap Z bool :=
  fold_left (fun m n => collapseNode o 0 n m) hierarchicalData expandedNodes.

End HTMLOrgChart.

(** The comparators after choosing to sort by name. *)
Definition lname (n : tnode) : string := toLowerCase (name n).


(* ------------------------------------------------------------------ *)
(** * SimpleOrgChart.js                                                *)
(* ------------------------------------------------------------------ *)

Module SimpleOrgChart.

Record options := Options {
  nodeWidth : Q;
  horizontalSpacing : Q;
  initiallyExpanded : bool;
  initialVisibleLevels : Z;
  sortBy : sortField;
  sortDirection : direction
}.

Definition defaultOptions : options :=
  {| nodeWidth := 180; horizontalSpacing := 60;
     initiallyExpanded := false; initialVisibleLevels := 1;
     sortBy := ByName; sortDirection := Asc |}.

(** ** Initial expansion *)

Fixpoint configureExpansion (o : options) (level : Z) (node : tnode)
    (expandedNodes : gmap Z bool) : gmap Z bool :=
  match node with
  | TNode i _ ch =>
      let expanded := initiallyExpanded o && (level <? initialVisibleLevels o)%Z in
      fold_left (fun m c => configureExpansion o (level + 1) c m) ch
                (<[i := expanded]> expandedNodes)
  end.

Definition configureInitialExpansion (o : options) (hierarchicalData : list tnode)
    (expandedNodes : gmap Z bool) : gmap Z bool :=
  fold_left (fun m n => configureExpansion o 0 n m) hierarchicalData expandedNodes.

(** ** Duplicate filter on the tree *)

(** [filterDuplicates] with the [seen] set threaded through the recursion;
    [filterNode] is the treatment of the children of a node that is kept. *)
Fixpoint filterNode (n : tnode) (seen : gset Z) : tnode * gset Z :=
  match n with
  | TNode i nm ch =>
      let fix filterDuplicates (nodes : list tnode) (seen : gset Z)
          : list tnode * gset Z :=
        match nodes with
        | [] => ([], seen)
        | c :: r =>
            if decide (id c ∈ seen) then filterDuplicates r seen
            else
              let '(c', seen1) := filterNode c ({[id c]} ∪ seen) in
              let '(r', seen2) := filterDuplicates r seen1 in
              (c' :: r', seen2)
        end in
      let '(ch', seen') := filterDuplicates ch seen in
      (TNode i nm ch', seen')
  end.

Definition filterDuplicates : list tnode -> gset Z -> list tnode * gset Z :=
  fix filterDuplicates (nodes : list tnode) (seen : gset Z) : list tnode * gset Z :=
    match nodes with
    | [] => ([], seen)
    | c :: r =>
        if decide (id c ∈ seen) then filterDuplicates r seen
        else
          let '(c', seen1) := filterNode c ({[id c]} ∪ seen) in
          let '(r', seen2) := filterDuplicates r seen1 in
          (c' :: r', seen2)
    end.

Definition removeDuplicates (nodes : list tnode) : list tnode :=
  fst (filterDuplicates nodes ∅).

(** ** Sorting *)

(** The comparator of [sortNodes]: ties on the field are broken by id. *)
Definition compareNodes (o : options) (a b : tnode) : comparison :=
  let byId := oriented (sortDirection o) (Z.compare (id a) (id b)) in
  match sortBy o with
  | ByName =>
      match String.compare (toLowerCase (name a)) (toLowerCase (name b)) with
      | Lt => oriented (sortDirection o) Lt
      | Gt => oriented (sortDirection o) Gt
      | Eq => byId
      end
  | ById =>
      match Z.compare (id a) (id b) with
      | Lt => oriented (sortDirection o) Lt
      | Gt => oriented (sortDirection o) Gt
      | Eq => byId
      end
  end.

Definition sortNodes (o : options) (nodes : list tnode) : list tnode :=
  sortForest (compareNodes o) nodes.

(** The options after [changeSortOrder]. *)
Definition setSortOrder (f : sortField) (d : direction) (o : options) : options :=
  {| nodeWidth := nodeWidth o; horizontalSpacing := horizontalSpacing o;
     initiallyExpanded := initiallyExpanded o;
     initialVisibleLevels := initialVisibleLevels o;
     sortBy := f; sortDirection := d |}.

(** The value [configureExpansion] writes at a depth. *)
Definition policy (o : options) (level : Z) : bool :=
  initiallyExpanded o && (level <? initialVisibleLevels o)%Z.

(** ** Layout *)

Record position := Pos { x : Q; level : nat }.

Record layout := Layout {
  nodesAtLevel : list (list tnode);
  nodePositions : gmap Z position
}.

(** [Math.max] and [Math.min] of two numbers. *)
Definition qmax (a b : Q) : Q := if Qlt_le_dec a b then b else a.
Definition qmin (a b : Q) : Q := if Qlt_le_dec b a then b else a.

(** The visible tree built by [buildVisibleTree]. *)
Inductive nodeInfo := NodeInfo {
  node : tnode;
  infoChildren : list nodeInfo;
  width : Q;
  infoLevel : nat
}.

(** [tree.totalWidth]: widths plus spacing, less the last spacing. *)
Definition totalWidth (o : options) (nodes : list nodeInfo) : Q :=
  let t := fold_left (fun acc ni => (acc + (width ni + horizontalSpacing o))%Q) nodes 0%Q in
  if Qlt_le_dec 0 t then (t - horizontalSpacing o)%Q else t.

Fixpoint buildNodeInfo (o : options) (expandedNodes : gmap Z bool) (lvl : nat)
    (n : tnode) : nodeInfo :=
  match n with
  | TNode i nm ch =>
      match ch with
      | _ :: _ =>
          if isExpanded expandedNodes i then
            let sub := map (buildNodeInfo o expandedNodes (S lvl)) ch in
            let minWidth := qmax (nodeWidth o) (totalWidth o sub) in
            let w := if (3 <? length ch)%nat
                     then (minWidth + horizontalSpacing o * (1 # 2))%Q
                     else minWidth in
            NodeInfo (TNode i nm ch) sub w lvl
          else NodeInfo (TNode i nm ch) [] (nodeWidth o) lvl
      | [] => NodeInfo (TNode i nm ch) [] (nodeWidth o) lvl
      end
  end.

Definition buildVisibleTree (o : options) (expandedNodes : gmap Z bool)
    (nodes : list tnode) (lvl : nat) : list nodeInfo * Q :=
  let infos := map (buildNodeInfo o expandedNodes lvl) nodes in
  (infos, totalWidth o infos).

(** [if (!this.nodesAtLevel[l]) this.nodesAtLevel[l] = []]; a hole of the
    array reads as the empty list. *)
Definition ensureLevel (lvl : nat) (a : list (list tnode)) : list (list tnode) :=
  if decide (lvl < length a)%nat then a
  else a ++ replicate (lvl - length a) [] ++ [[]].

(** [this.nodesAtLevel[lvl].push(n)]; the level exists when this runs. *)
Definition pushAtLevel (lvl : nat) (n : tnode) (st : layout) : layout :=
  {| nodesAtLevel := alter (fun l => l ++ [n]) lvl (nodesAtLevel st);
     nodePositions := nodePositions st |}.

(** [this.nodePositions[i] = { x: xv, level: lvl }]. *)
Definition setPosition (i : Z) (xv : Q) (lvl : nat) (st : layout) : layout :=
  {| nodesAtLevel := nodesAtLevel st;
     nodePositions := <[i := {| x := xv; level := lvl |}]> (nodePositions st) |}.

Definition withLevels (f : list (list tnode) -> list (list tnode)) (st : layout) : layout :=
  {| nodesAtLevel := f (nodesAtLevel st); nodePositions := nodePositions st |}.

(** [this.nodePositions[id]?.x || 0]. *)
Definition xOf (pos : gmap Z position) (i : Z) : Q :=
  match pos !! i with Some p => x p | None => 0%Q end.

Definition calculateTotalWidth (o : options) (nodes : list nodeInfo) : Q :=
  match nodes with
  | [] => 0%Q
  | _ => (fold_left (fun t _ => t + (nodeWidth o + horizontalSpacing o)) nodes 0
          - horizontalSpacing o)%Q
  end.

Definition childrenStart (o : options) (startX : Q) (ch : list nodeInfo) : Q :=
  let childrenWidth := calculateTotalWidth o ch in
  if Qlt_le_dec childrenWidth (nodeWidth o)
  then (startX + (nodeWidth o - childrenWidth) / 2)%Q
  else startX.

(** [Math.min(...xs)] and [Math.max(...xs)]; only called on a non-empty
    array. *)
Definition mathMin (xs : list Q) : Q :=
  match xs with [] => 0%Q | a :: r => fold_left qmin r a end.

Definition mathMax (xs : list Q) : Q :=
  match xs with [] => 0%Q | a :: r => fold_left qmax r a end.

(** Second loop of [assignXPositions]; [endX] is the value of [startX] left
    by the first loop and [i] the loop index. *)
Fixpoint secondPass (o : options) (i : nat) (treeNodes : list nodeInfo) (endX : Q)
    (lvl : nat) (st : layout) : layout :=
  match treeNodes with
  | [] => st
  | ni :: rest =>
      let xv :=
        match infoChildren ni with
        | _ :: _ =>
            let childrenIds := map (fun h => id (node h)) (infoChildren ni) in
            let childrenXPositions := map (xOf (nodePositions st)) childrenIds in
            let minX := mathMin childrenXPositions in
            let maxX := mathMax childrenXPositions in
            ((minX + maxX) / 2)%Q
        | [] =>
            (endX - horizontalSpacing o - nodeWidth o / 2
             + inject_Z (Z.of_nat i) * (nodeWidth o + horizontalSpacing o))%Q
        end in
      secondPass o (S i) rest endX lvl (setPosition (id (node ni)) xv lvl st)
  end.

(** First loop of [assignXPositions] for one node at cursor [startX]; a node
    with children runs the whole of [assignXPositions] on them. *)
Fixpoint firstPassNode (o : options) (lvl : nat) (ni : nodeInfo) (startX : Q)
    (st : layout) : layout :=
  match ni with
  | NodeInfo nd ch w _ =>
      let st1 := pushAtLevel lvl nd st in
      match ch with
      | _ :: _ =>
          let childrenStartX := childrenStart o startX ch in
          let '(st2, endX) :=
            (fix firstPass (l : list nodeInfo) (cursor : Q) (s : layout) : layout * Q :=
               match l with
               | [] => (s, cursor)
               | c :: r =>
                   firstPass r (cursor + (width c + horizontalSpacing o))%Q
                             (firstPassNode o (S lvl) c cursor s)
               end) ch childrenStartX (withLevels (ensureLevel (S lvl)) st1) in
          secondPass o 0 ch endX (S lvl) st2
      | [] => setPosition (id nd) (startX + w / 2)%Q lvl st1
      end
  end.

Definition firstPass (o : options) (lvl : nat)
    : list nodeInfo -> Q -> layout -> layout * Q :=
  fix firstPass (l : list nodeInfo) (cursor : Q) (s : layout) : layout * Q :=
    match l with
    | [] => (s, cursor)
    | c :: r =>
        firstPass r (cursor + (width c + horizontalSpacing o))%Q
                  (firstPassNode o lvl c cursor s)
    end.

Definition assignXPositions (o : options) (treeNodes : list nodeInfo) (startX : Q)
    (currentLevel : nat) (st : layout) : layout :=
  let '(st1, endX) :=
    firstPass o currentLevel treeNodes startX (withLevels (ensureLevel currentLevel) st) in
  secondPass o 0 treeNodes endX currentLevel st1.

(** ** Same-level collision adjustment *)

Definition shiftX (adjustment : Q) (p : position) : position :=
  {| x := (x p + adjustment)%Q; level := level p |}.

Fixpoint adjustSubtreePositions (expandedNodes : gmap Z bool) (parentNode : tnode)
    (adjustment : Q) (pos : gmap Z position) : gmap Z position :=
  match parentNode with
  | TNode i _ ch =>
      match ch with
      | [] => pos
      | _ :: _ =>
          if isExpanded expandedNodes i then
            fold_left
              (fun p child =>
                 match p !! id child with
                 | Some _ =>
                     adjustSubtreePositions expandedNodes child adjustment
                       (alter (shiftX adjustment) (id child) p)
                 | None => p
                 end) ch pos
          else pos
      end
  end.

(** The loop over [j]: the collided node and every later node of the level
    move, each with its visible subtree. *)
Definition shiftFrom (expandedNodes : gmap Z bool) (adjustment : Q)
    (nodes : list tnode) (pos : gmap Z position) : gmap Z position :=
  fold_left
    (fun p n => adjustSubtreePositions expandedNodes n adjustment
                  (alter (shiftX adjustment) (id n) p))
    nodes pos.

(** The loop over [i]; [prev] is [nodes[i-1]], [rest] is [nodes[i..]].
    On these paths every node has a position, so [xOf] reads it. *)
Fixpoint scanLevel (o : options) (expandedNodes : gmap Z bool) (prev : tnode)
    (rest : list tnode) (pos : gmap Z position) : gmap Z position :=
  match rest with
  | [] => pos
  | cur :: rest' =>
      let minDistance := (nodeWidth o + horizontalSpacing o)%Q in
      let currentDistance := (xOf pos (id cur) - xOf pos (id prev))%Q in
      let pos' :=
        if Qlt_le_dec currentDistance minDistance
        then shiftFrom expandedNodes (minDistance - currentDistance)%Q rest pos
        else pos in
      scanLevel o expandedNodes cur rest' pos'
  end.

Definition compareX (pos : gmap Z position) (a b : tnode) : comparison :=
  (xOf pos (id a) - xOf pos (id b) ?= 0)%Q.

Definition adjustLevel (o : options) (expandedNodes : gmap Z bool)
    (nodes : list tnode) (pos : gmap Z position) : list tnode * gmap Z position :=
  match nodes with
  | [] | [_] => (nodes, pos)
  | _ =>
      let sorted := js_sort (compareX pos) nodes in
      match sorted with
      | [] => (sorted, pos)
      | first :: rest => (sorted, scanLevel o expandedNodes first rest pos)
      end
  end.

Fixpoint adjustLevels (o : options) (expandedNodes : gmap Z bool)
    (levels : list (list tnode)) (pos : gmap Z position)
    : list (list tnode) * gmap Z position :=
  match levels with
  | [] => ([], pos)
  | nodes :: more =>
      let '(nodes', pos1) := adjustLevel o expandedNodes nodes pos in
      let '(more', pos2) := adjustLevels o expandedNodes more pos1 in
      (nodes' :: more', pos2)
  end.

(** The x layout up to and including [assignXPositions]. *)
Definition initialLayout (o : options) (expandedNodes : gmap Z bool)
    (hierarchicalData : list tnode) : layout :=
  let visibleTree := buildVisibleTree o expandedNodes hierarchicalData 0 in
  assignXPositions o (fst visibleTree) (horizontalSpacing o) 0
    {| nodesAtLevel := []; nodePositions := ∅ |}.

(** [calculateDimensions]: positions and per-level node lists; the SVG size
    derived from them afterwards is not modelled. *)
Definition calculateDimensions (o : options) (expandedNodes : gmap Z bool)
    (hierarchicalData : list tnode) : layout :=
  let st := initialLayout o expandedNodes hierarchicalData in
  let '(levels, pos) := adjustLevels o expandedNodes (nodesAtLevel st) (nodePositions st) in
  {| nodesAtLevel := levels; nodePositions := pos |}.

(** ** Zoom *)

(** Viewport state; the container rectangle is a parameter of the
    operations. *)
Record view := View { currentScale : Q; translationX : Q; translationY : Q }.

Definition setZoom (containerWidth containerHeight : Q) (newZoom : Q) (v : view) : view :=
  let oldViewBoxWidth := (containerWidth / currentScale v)%Q in
  let oldViewBoxHeight := (containerHeight / currentScale v)%Q in
  let centerX := (- translationX v / currentScale v + oldViewBoxWidth / 2)%Q in
  let centerY := (- translationY v / currentScale v + oldViewBoxHeight / 2)%Q in
  let newViewBoxWidth := (containerWidth / newZoom)%Q in
  let newViewBoxHeight := (containerHeight / newZoom)%Q in
  {| currentScale := newZoom;
     translationX := (- (centerX - newViewBoxWidth / 2) * newZoom)%Q;
     translationY := (- (centerY - newViewBoxHeight / 2) * newZoom)%Q |}.

Definition adjustZoom (containerWidth containerHeight : Q) (delta : Q) (v : view) : view :=
  let newZoom := qmax (1 # 2) (qmin 3 (currentScale v + delta)%Q) in
  setZoom containerWidth containerHeight newZoom v.

(** The zoom bounds of this variant. *)
Definition inZoomRange (s : Q) : Prop := (1 # 2 <= s /\ s <= 3)%Q.

(** The public zoom operations; [Wheel deltaY] is a wheel event. *)
Inductive zoomOp := AdjustZoom (delta : Q) | SetZoom (newZoom : Q) | Wheel (deltaY : Q).

Definition zoomStep (containerWidth containerHeight : Q) (v : view) (op : zoomOp) : view :=
  match op with
  | AdjustZoom delta => adjustZoom containerWidth containerHeight delta v
  | SetZoom newZoom => setZoom containerWidth containerHeight newZoom v
  | Wheel deltaY =>
      let delta := if Qlt_le_dec deltaY 0 then (1 # 10)%Q else (- (1 # 10))%Q in
      adjustZoom containerWidth containerHeight delta v
  end.

Definition runZoom (containerWidth containerHeight : Q) (ops : list zoomOp) (v : view) : view :=
  fold_left (zoomStep containerWidth containerHeight) ops v.




(** ** Dragging *)

(** The mouse listeners of [configureDrag]; a press of another button than
    the main one is ignored. *)
Record dragState := DragState { isDragging : bool; startX : Q; startY : Q }.

Inductive mouseEvent :=
  | MouseDown (button : Z) (clientX clientY : Q)
  | MouseMove (clientX clientY : Q)
  | MouseUp.

Definition mouseStep (st : view * dragState) (ev : mouseEvent) : view * dragState :=
  let '(v, d) := st in
  match ev with
  | MouseDown button clientX clientY =>
      if (button =? 0)%Z then
        (v, {| isDragging := true;
               startX := (clientX - translationX v)%Q;
               startY := (clientY - translationY v)%Q |})
      else st
  | MouseMove clientX clientY =>
      if isDragging d then
        ({| currentScale := currentScale v;
            translationX := (clientX - startX d)%Q;
            translationY := (clientY - startY d)%Q |}, d)
      else st
  | MouseUp => (v, {| isDragging := false; startX := startX d; startY := startY d |})
  end.

Definition runMouse (evs : list mouseEvent) (st : view * dragState) : view * dragState :=
  fold_left mouseStep evs st.

(** ** Bounding box of the positioned nodes *)

(** [Math.min(acc, v)] and [Math.max(acc, v)] for an accumulator that starts
    at [Infinity] resp. [-Infinity], written [None]. *)
Definition minInf (acc : option Q) (v : Q) : option Q :=
  Some (match acc with None => v | Some a => qmin a v end).

Definition maxInf (acc : option Q) (v : Q) : option Q :=
  Some (match acc with None => v | Some a => qmax a v end).


(** The box around the node rectangles computed by [autoAdjustZoom]:
    [(minX, maxX, minY, maxY)]. *)
Definition zoomBox (o : options) (nodeHeight verticalSpacing : Q) (pos : gmap Z position)
    : option Q * option Q * option Q * option Q :=
  map_fold
    (fun _ p (acc : option Q * option Q * option Q * option Q) =>
       let '(minX, maxX, minY, maxY) := acc in
       let nodeLeft := (x p - nodeWidth o / 2)%Q in
       let nodeRight := (x p + nodeWidth o / 2)%Q in
       let nodeTop :=
         (inject_Z (Z.of_nat (level p)) * (nodeHeight + verticalSpacing) + 50
          - nodeHeight / 2)%Q in
       let nodeBottom := (nodeTop + nodeHeight)%Q in
       (minInf minX nodeLeft, maxInf maxX nodeRight,
        minInf minY nodeTop, maxInf maxY nodeBottom))
    (None, None, None, None) pos.

(** [autoAdjustZoom].  Divisions are exact; the divisors are at least 100
    when [nodeWidth] and [nodeHeight] are not negative. *)
Definition autoAdjustZoom (o : options) (nodeHeight verticalSpacing : Q)
    (containerWidth containerHeight : Q) (pos : gmap Z position) (v : view) : view :=
  match zoomBox o nodeHeight verticalSpacing pos with
  | (Some minX, Some maxX, Some minY, Some maxY) =>
      let margin := 50%Q in
      let minX := (minX - margin)%Q in
      let maxX := (maxX + margin)%Q in
      let minY := (minY - margin)%Q in
      let maxY := (maxY + margin)%Q in
      let contentWidth := (maxX - minX)%Q in
      let contentHeight := (maxY - minY)%Q in
      let horizontalZoom := (containerWidth / contentWidth)%Q in
      let verticalZoom := (containerHeight / contentHeight)%Q in
      let newZoom := qmin horizontalZoom verticalZoom in
      let newZoom := qmax (1 # 2) (qmin newZoom (3 # 2)) in
      if Qlt_le_dec (1 # 10) (Qabs (newZoom - currentScale v)) then
        let centerX := (minX + contentWidth / 2)%Q in
        let centerY := (minY + contentHeight / 2)%Q in
        {| currentScale := newZoom;
           translationX := (containerWidth / 2 - centerX * newZoom)%Q;
           translationY := (containerHeight / 2 - centerY * newZoom)%Q |}
      else v
  | _ => v   (* no positioned node: [minX === Infinity] *)
  end.




(** ** Centring and reset *)




(** ** Expansion state: [expandAll], [collapseAll], [toggleNode] *)

(** [expandAll]: every key the map holds is set to [true]. *)
Definition expandAll (expandedNodes : gmap Z bool) : gmap Z bool :=
  map_fold (fun key _ m => <[key := true]> m) expandedNodes expandedNodes.

Fixpoint collapseByLevel (o : options) (level : Z) (node : tnode)
    (expandedNodes : gmap Z bool) : gmap Z bool :=
  match node with
  | TNode i _ ch =>
      fold_left (fun m c => collapseByLevel o (level + 1) c m) ch
                (<[i := (level <? initialVisibleLevels o)%Z]> expandedNodes)
  end.

Definition collapseAll (o : options) (hierarchicalData : list tnode)
    (expandedNodes : gmap Z bool) : gmap Z bool :=
  fold_left (fun m n => collapseByLevel o 0 n m) hierarchicalData expandedNodes.

(** [findNodeById]: depth-first search in document order; [None] is
    [null]. *)
Fixpoint searchNode (i : Z) (n : tnode) : option tnode :=
  match n with
  | TNode j nm ch =>
      if decide (j = i) then Some (TNode j nm ch)
      else
        (fix searchNodes (nodes : list tnode) : option tnode :=
           match nodes with
           | [] => None
           | c :: r =>
               match searchNode i c with
               | Some found => Some found
               | None => searchNodes r
               end
           end) ch
  end.

Definition searchNodes (i : Z) : list tnode -> option tnode :=
  fix searchNodes (nodes : list tnode) : option tnode :=
    match nodes with
    | [] => None
    | c :: r =>
        match searchNode i c with
        | Some found => Some found
        | None => searchNodes r
        end
    end.

Definition findNodeById (hierarchicalData : list tnode) (i : Z) : option tnode :=
  searchNodes i hierarchicalData.

(** The forest after the children array of the node that [findNodeById]
    returns has been sorted in place; [None] when no node has the id. *)
Fixpoint sortChildrenOfNode (o : options) (i : Z) (n : tnode) : option tnode :=
  match n with
  | TNode j nm ch =>
      if decide (j = i) then Some (TNode j nm (sortNodes o ch))
      else
        TNode j nm <$>
        (fix sortChildrenOf (nodes : list tnode) : option (list tnode) :=
           match nodes with
           | [] => None
           | c :: r =>
               match sortChildrenOfNode o i c with
               | Some c' => Some (c' :: r)
               | None => cons c <$> sortChildrenOf r
               end
           end) ch
  end.

Definition sortChildrenOf (o : options) (i : Z) : list tnode -> option (list tnode) :=
  fix sortChildrenOf (nodes : list tnode) : option (list tnode) :=
    match nodes with
    | [] => None
    | c :: r =>
        match sortChildrenOfNode o i c with
        | Some c' => Some (c' :: r)
        | None => cons c <$> sortChildrenOf r
        end
    end.

(** [if (!this.expandedNodes.has(child.id)) this.expandedNodes.set(child.id, false)]
    for every child. *)
Definition markChildren (ch : list tnode) (expandedNodes : gmap Z bool) : gmap Z bool :=
  fold_left
    (fun m child =>
       match m !! id child with
       | Some _ => m
       | None => <[id child := false]> m
       end) ch expandedNodes.

(** [toggleNode] on the expansion map and the tree; the layout and the view
    are recomputed from these afterwards. *)
Definition toggleNode (o : options) (nodeId : Z)
    (st : gmap Z bool * list tnode) : gmap Z bool * list tnode :=
  let '(expandedNodes, hierarchicalData) := st in
  let currentState := isExpanded expandedNodes nodeId in
  let expandedNodes1 := <[nodeId := negb currentState]> expandedNodes in
  if negb currentState then
    match findNodeById hierarchicalData nodeId with
    | Some currentNode =>
        match children currentNode with
        | _ :: _ =>
            let sorted := sortNodes o (children currentNode) in
            (markChildren sorted expandedNodes1,
             default hierarchicalData (sortChildrenOf o nodeId hierarchicalData))
        | [] => (expandedNodes1, hierarchicalData)
        end
    | None => (expandedNodes1, hierarchicalData)
    end
  else (expandedNodes1, hierarchicalData).

End SimpleOrgChart.

(* ------------------------------------------------------------------ *)
(** * The layout of SimpleOrgChart.js over binary64 numbers            *)
(* ------------------------------------------------------------------ *)

(** The layout of module [SimpleOrgChart] above reads the arithmetic of
    the source exactly, over the rationals.  This module is the same code
    with the numbers JavaScript has: IEEE 754 binary64, every operation
    rounded to nearest, ties to even.  Numbers that are not finite do not
    arise from finite options on these paths. *)
Module Binary64.

Definition float64 : Type := SpecFloat.spec_float.

Definition prec : Z := 53.
Definition emax : Z := 1024.

Definition add : float64 -> float64 -> float64 := SpecFloat.SFadd prec emax.
Definition sub : float64 -> float64 -> float64 := SpecFloat.SFsub prec emax.
Definition mul : float64 -> float64 -> float64 := SpecFloat.SFmul prec emax.
Definition div : float64 -> float64 -> float64 := SpecFloat.SFdiv prec emax.

(** [a < b]. *)
Definition ltb : float64 -> float64 -> bool := SpecFloat.SFltb.

(** An integer as a number, and a decimal literal [n / d] with [d] a power
    of ten, such as 180.1 = 1801 / 10: the nearest binary64 number. *)
Definition ofZ (z : Z) : float64 := SpecFloat.binary_normalize prec emax z 0 false.
Definition decimal (n d : Z) : float64 := div (ofZ n) (ofZ d).

Definition zero : float64 := ofZ 0.
Definition two : float64 := ofZ 2.
Definition half : float64 := decimal 5 10.


Record options := Options {
  nodeWidth : float64;
  horizontalSpacing : float64;
  initiallyExpanded : bool;
  initialVisibleLevels : Z;
  sortBy : sortField;
  sortDirection : direction
}.


Record position := Pos { x : float64; level : nat }.

Record layout := Layout {
  nodesAtLevel : list (list tnode);
  nodePositions : gmap Z position
}.

(** [Math.max] and [Math.min] of two numbers. *)
Definition fmax (a b : float64) : float64 := if ltb a b then b else a.
Definition fmin (a b : float64) : float64 := if ltb b a then b else a.

Inductive nodeInfo := NodeInfo {
  node : tnode;
  infoChildren : list nodeInfo;
  width : float64;
  infoLevel : nat
}.

Definition totalWidth (o : options) (nodes : list nodeInfo) : float64 :=
  let t := fold_left (fun acc ni => add acc (add (width ni) (horizontalSpacing o)))
                     nodes zero in
  if ltb zero t then sub t (horizontalSpacing o) else t.

Fixpoint buildNodeInfo (o : options) (expandedNodes : gmap Z bool) (lvl : nat)
    (n : tnode) : nodeInfo :=
  match n with
  | TNode i nm ch =>
      match ch with
      | _ :: _ =>
          if isExpanded expandedNodes i then
            let sub := map (buildNodeInfo o expandedNodes (S lvl)) ch in
            let minWidth := fmax (nodeWidth o) (totalWidth o sub) in
            let w := if (3 <? length ch)%nat
                     then add minWidth (mul (horizontalSpacing o) half)
                     else minWidth in
            NodeInfo (TNode i nm ch) sub w lvl
          else NodeInfo (TNode i nm ch) [] (nodeWidth o) lvl
      | [] => NodeInfo (TNode i nm ch) [] (nodeWidth o) lvl
      end
  end.

Definition buildVisibleTree (o : options) (expandedNodes : gmap Z bool)
    (nodes : list tnode) (lvl : nat) : list nodeInfo * float64 :=
  let infos := map (buildNodeInfo o expandedNodes lvl) nodes in
  (infos, totalWidth o infos).

Definition pushAtLevel (lvl : nat) (n : tnode) (st : layout) : layout :=
  {| nodesAtLevel := alter (fun l => l ++ [n]) lvl (nodesAtLevel st);
     nodePositions := nodePositions st |}.

Definition setPosition (i : Z) (xv : float64) (lvl : nat) (st : layout) : layout :=
  {| nodesAtLevel := nodesAtLevel st;
     nodePositions := <[i := {| x := xv; level := lvl |}]> (nodePositions st) |}.

Definition withLevels (f : list (list tnode) -> list (list tnode)) (st : layout) : layout :=
  {| nodesAtLevel := f (nodesAtLevel st); nodePositions := nodePositions st |}.

(** [this.nodePositions[id]?.x || 0]: a missing position, a zero and a NaN
    read as 0. *)
Definition xOf (pos : gmap Z position) (i : Z) : float64 :=
  match pos !! i with
  | Some p =>
      match x p with
      | SpecFloat.S754_zero _ | SpecFloat.S754_nan => zero
      | v => v
      end
  | None => zero
  end.

(** [this.nodePositions[id].x] where the position exists. *)
Definition xAt (pos : gmap Z position) (i : Z) : float64 :=
  match pos !! i with Some p => x p | None => zero end.

Definition calculateTotalWidth (o : options) (nodes : list nodeInfo) : float64 :=
  match nodes with
  | [] => zero
  | _ => sub (fold_left (fun t _ => add t (add (nodeWidth o) (horizontalSpacing o)))
                        nodes zero)
             (horizontalSpacing o)
  end.

Definition childrenStart (o : options) (startX : float64) (ch : list nodeInfo) : float64 :=
  let childrenWidth := calculateTotalWidth o ch in
  if ltb childrenWidth (nodeWidth o)
  then add startX (div (sub (nodeWidth o) childrenWidth) two)
  else startX.

Definition mathMin (xs : list float64) : float64 :=
  match xs with [] => zero | a :: r => fold_left fmin r a end.

Definition mathMax (xs : list float64) : float64 :=
  match xs with [] => zero | a :: r => fold_left fmax r a end.

Fixpoint secondPass (o : options) (i : nat) (treeNodes : list nodeInfo) (endX : float64)
    (lvl : nat) (st : layout) : layout :=
  match treeNodes with
  | [] => st
  | ni :: rest =>
      let xv :=
        match infoChildren ni with
        | _ :: _ =>
            let childrenIds := map (fun h => id (node h)) (infoChildren ni) in
            let childrenXPositions := map (xOf (nodePositions st)) childrenIds in
            let minX := mathMin childrenXPositions in
            let maxX := mathMax childrenXPositions in
            div (add minX maxX) two
        | [] =>
            add (sub (sub endX (horizontalSpacing o)) (div (nodeWidth o) two))
                (mul (ofZ (Z.of_nat i)) (add (nodeWidth o) (horizontalSpacing o)))
        end in
      secondPass o (S i) rest endX lvl (setPosition (id (node ni)) xv lvl st)
  end.

Fixpoint firstPassNode (o : options) (lvl : nat) (ni : nodeInfo) (startX : float64)
    (st : layout) : layout :=
  match ni with
  | NodeInfo nd ch w _ =>
      let st1 := pushAtLevel lvl nd st in
      match ch with
      | _ :: _ =>
          let childrenStartX := childrenStart o startX ch in
          let '(st2, endX) :=
            (fix firstPass (l : list nodeInfo) (cursor : float64) (s : layout)
                 : layout * float64 :=
               match l with
               | [] => (s, cursor)
               | c :: r =>
                   firstPass r (add cursor (add (width c) (horizontalSpacing o)))
                             (firstPassNode o (S lvl) c cursor s)
               end) ch childrenStartX
              (withLevels (SimpleOrgChart.ensureLevel (S lvl)) st1) in
          secondPass o 0 ch endX (S lvl) st2
      | [] => setPosition (id nd) (add startX (div w two)) lvl st1
      end
  end.

Definition firstPass (o : options) (lvl : nat)
    : list nodeInfo -> float64 -> layout -> layout * float64 :=
  fix firstPass (l : list nodeInfo) (cursor : float64) (s : layout) : layout * float64 :=
    match l with
    | [] => (s, cursor)
    | c :: r =>
        firstPass r (add cursor (add (width c) (horizontalSpacing o)))
                  (firstPassNode o lvl c cursor s)
    end.

Definition assignXPositions (o : options) (treeNodes : list nodeInfo) (startX : float64)
    (currentLevel : nat) (st : layout) : layout :=
  let '(st1, endX) :=
    firstPass o currentLevel treeNodes startX
      (withLevels (SimpleOrgChart.ensureLevel currentLevel) st) in
  secondPass o 0 treeNodes endX currentLevel st1.

(** [x += adjustment]. *)
Definition shiftX (adjustment : float64) (p : position) : position :=
  {| x := add (x p) adjustment; level := level p |}.

Fixpoint adjustSubtreePositions (expandedNodes : gmap Z bool) (parentNode : tnode)
    (adjustment : float64) (pos : gmap Z position) : gmap Z position :=
  match parentNode with
  | TNode i _ ch =>
      match ch with
      | [] => pos
      | _ :: _ =>
          if isExpanded expandedNodes i then
            fold_left
              (fun p child =>
                 match p !! id child with
                 | Some _ =>
                     adjustSubtreePositions expandedNodes child adjustment
                       (alter (shiftX adjustment) (id child) p)
                 | None => p
                 end) ch pos
          else pos
      end
  end.

Definition shiftFrom (expandedNodes : gmap Z bool) (adjustment : float64)
    (nodes : list tnode) (pos : gmap Z position) : gmap Z position :=
  fold_left
    (fun p n => adjustSubtreePositions expandedNodes n adjustment
                  (alter (shiftX adjustment) (id n) p))
    nodes pos.

Fixpoint scanLevel (o : options) (expandedNodes : gmap Z bool) (prev : tnode)
    (rest : list tnode) (pos : gmap Z position) : gmap Z position :=
  match rest with
  | [] => pos
  | cur :: rest' =>
      let minDistance := add (nodeWidth o) (horizontalSpacing o) in
      let currentDistance := sub (xAt pos (id cur)) (xAt pos (id prev)) in
      let pos' :=
        if ltb currentDistance minDistance
        then shiftFrom expandedNodes (sub minDistance currentDistance) rest pos
        else pos in
      scanLevel o expandedNodes cur rest' pos'
  end.

(** The comparator [(a, b) => x_a - x_b] of the sort of a level. *)
Definition compareX (pos : gmap Z position) (a b : tnode) : comparison :=
  let d := sub (xAt pos (id a)) (xAt pos (id b)) in
  if ltb d zero then Lt else if ltb zero d then Gt else Eq.

Definition adjustLevel (o : options) (expandedNodes : gmap Z bool)
    (nodes : list tnode) (pos : gmap Z position) : list tnode * gmap Z position :=
  match nodes with
  | [] | [_] => (nodes, pos)
  | _ =>
      let sorted := js_sort (compareX pos) nodes in
      match sorted with
      | [] => (sorted, pos)
      | first :: rest => (sorted, scanLevel o expandedNodes first rest pos)
      end
  end.

Fixpoint adjustLevels (o : options) (expandedNodes : gmap Z bool)
    (levels : list (list tnode)) (pos : gmap Z position)
    : list (list tnode) * gmap Z position :=
  match levels with
  | [] => ([], pos)
  | nodes :: more =>
      let '(nodes', pos1) := adjustLevel o expandedNodes nodes pos in
      let '(more', pos2) := adjustLevels o expandedNodes more pos1 in
      (nodes' :: more', pos2)
  end.

Definition initialLayout (o : options) (expandedNodes : gmap Z bool)
    (hierarchicalData : list tnode) : layout :=
  let visibleTree := buildVisibleTree o expandedNodes hierarchicalData 0 in
  assignXPositions o (fst visibleTree) (horizontalSpacing o) 0
    {| nodesAtLevel := []; nodePositions := ∅ |}.

(** [calculateDimensions]: the per-level node lists and the positions. *)
Definition calculateDimensions (o : options) (expandedNodes : gmap Z bool)
    (hierarchicalData : list tnode) : layout :=
  let st := initialLayout o expandedNodes hierarchicalData in
  let '(levels, pos) := adjustLevels o expandedNodes (nodesAtLevel st) (nodePositions st) in
  {| nodesAtLevel := levels; nodePositions := pos |}.


(** The default options of the constructor. *)
Definition defaultOptions : options :=
  {| nodeWidth := ofZ 180; horizontalSpacing := ofZ 60;
     initiallyExpanded := false; initialVisibleLevels := 1;
     sortBy := ByName; sortDirection := Asc |}.

End Binary64.


(* ------------------------------------------------------------------ *)
(** * Notions used to state the layout properties                      *)
(* ------------------------------------------------------------------ *)

(** The children of a node that are shown: all of them when the node is
    expanded, none otherwise. *)
Definition vchildren (expandedNodes : gmap Z bool) (n : tnode) : list tnode :=
  if isExpanded expandedNodes (id n) then children n else [].

(** The visible nodes at and below a node, and of a forest. *)
Fixpoint visibleBelow (expandedNodes : gmap Z bool) (n : tnode) : list tnode :=
  match n with
  | TNode i nm ch =>
      TNode i nm ch ::
      (if isExpanded expandedNodes i then flat_map (visibleBelow expandedNodes) ch else [])
  end.

Definition visibleNodes (expandedNodes : gmap Z bool) (nodes : list tnode) : list tnode :=
  flat_map (visibleBelow expandedNodes) nodes.

(** The visible nodes one level further down. *)
Definition nextLevel (expandedNodes : gmap Z bool) (nodes : list tnode) : list tnode :=
  flat_map (vchildren expandedNodes) nodes.

(** The visible nodes [d] levels below the given ones. *)
Fixpoint levelBelow (expandedNodes : gmap Z bool) (d : nat) (nodes : list tnode) : list tnode :=
  match d with
  | O => nodes
  | S d' => levelBelow expandedNodes d' (nextLevel expandedNodes nodes)
  end.

(** Ids whose positions a shift of the subtrees of [nodes] may change. *)
Definition touched (nodes : list tnode) : list Z := flat_map sub_ids nodes.

(** Two positions of a level are at least [nodeWidth + horizontalSpacing]
    apart. *)
Definition apart (o : SimpleOrgChart.options) (pos : gmap Z SimpleOrgChart.position)
    (a b : tnode) : Prop :=
  (SimpleOrgChart.nodeWidth o + SimpleOrgChart.horizontalSpacing o
   <= Qabs (SimpleOrgChart.xOf pos (id a) - SimpleOrgChart.xOf pos (id b)))%Q.

(** Every node of the level list has a position and distinct entries of the
    list are apart. *)
Definition separated (o : SimpleOrgChart.options) (pos : gmap Z SimpleOrgChart.position)
    (nodes : list tnode) : Prop :=
  (forall a, a ∈ nodes -> is_Some (pos !! id a)) /\
  forall i j a b, nodes !! i = Some a -> nodes !! j = Some b -> i <> j -> apart o pos a b.

(** A node with visible children sits at the middle of the span of their
    x positions. *)
Definition centered (expandedNodes : gmap Z bool) (pos : gmap Z SimpleOrgChart.position)
    (n : tnode) : Prop :=
  match vchildren expandedNodes n with
  | [] => True
  | ch =>
      let xs := map (fun c => SimpleOrgChart.xOf pos (id c)) ch in
      (SimpleOrgChart.xOf pos (id n)
       == (SimpleOrgChart.mathMin xs + SimpleOrgChart.mathMax xs) / 2)%Q
  end.

(** Orderings of the nodes of a level by their x positions: [a] is not to
    the right of [b]; [b] is at least the minimum distance to the right of
    [a]. *)
Definition notRightOf (pos : gmap Z SimpleOrgChart.position) (a b : tnode) : Prop :=
  (SimpleOrgChart.xOf pos (id a) <= SimpleOrgChart.xOf pos (id b))%Q.

Definition gapOk (o : SimpleOrgChart.options) (pos : gmap Z SimpleOrgChart.position)
    (a b : tnode) : Prop :=
  (SimpleOrgChart.nodeWidth o + SimpleOrgChart.horizontalSpacing o
     <= SimpleOrgChart.xOf pos (id b) - SimpleOrgChart.xOf pos (id a) /\
   0 <= SimpleOrgChart.xOf pos (id b) - SimpleOrgChart.xOf pos (id a))%Q.

(** The per-level node lists of a tree: within a level the ids are pairwise
    distinct, and no id of a level occurs below a node of that level or at
    or below a node of a later level. *)
Fixpoint levelsGood (levels : list (list tnode)) : Prop :=
  match levels with
  | [] => True
  | nodes :: more =>
      NoDup (id <$> nodes) /\
      (forall a, a ∈ nodes ->
         (id a ∉ touched nodes) /\ (id a ∉ flat_map forest_ids more)) /\
      levelsGood more
  end.

(** The node list of level [k]; a level that was never created reads as the
    empty list. *)
Definition levelAt (levels : list (list tnode)) (k : nat) : list tnode :=
  default [] (levels !! k).

(** What the first loop for a node, and [assignXPositions] for a sibling
    list, add to the level lists and to the positioned ids. *)
Definition recordsNode (o : SimpleOrgChart.options) (e : gmap Z bool) (n : tnode) : Prop :=
  forall lvl x st, (lvl < length (SimpleOrgChart.nodesAtLevel st))%nat ->
    let st' := SimpleOrgChart.firstPassNode o lvl (SimpleOrgChart.buildNodeInfo o e lvl n) x st in
    (length (SimpleOrgChart.nodesAtLevel st) <= length (SimpleOrgChart.nodesAtLevel st'))%nat /\
    (forall k, levelAt (SimpleOrgChart.nodesAtLevel st') k =
               levelAt (SimpleOrgChart.nodesAtLevel st) k ++
               (if decide (lvl <= k)%nat then levelBelow e (k - lvl) [n] else [])) /\
    (forall j, is_Some (SimpleOrgChart.nodePositions st !! j) -> is_Some (SimpleOrgChart.nodePositions st' !! j)) /\
    (forall d a, a ∈ levelBelow e (S d) [n] -> is_Some (SimpleOrgChart.nodePositions st' !! id a)).

Definition recordsForest (o : SimpleOrgChart.options) (e : gmap Z bool)
    (nodes : list tnode) : Prop :=
  forall lvl x st,
    let st' := SimpleOrgChart.assignXPositions o (map (SimpleOrgChart.buildNodeInfo o e lvl) nodes) x lvl st in
    (length (SimpleOrgChart.nodesAtLevel st) <= length (SimpleOrgChart.nodesAtLevel st'))%nat /\
    (lvl < length (SimpleOrgChart.nodesAtLevel st'))%nat /\
    (forall k, levelAt (SimpleOrgChart.nodesAtLevel st') k =
               levelAt (SimpleOrgChart.nodesAtLevel st) k ++
               (if decide (lvl <= k)%nat then levelBelow e (k - lvl) nodes else [])) /\
    (forall j, is_Some (SimpleOrgChart.nodePositions st !! j) -> is_Some (SimpleOrgChart.nodePositions st' !! j)) /\
    (forall d a, a ∈ levelBelow e d nodes -> is_Some (SimpleOrgChart.nodePositions st' !! id a)).


(** The tail of [processData]: the forest hanging from [rootNodes] is
    filtered for duplicates and sorted.  [sortAllLevels] runs [sortNodes],
    which sorts every level below, again on every children list; these
    further runs find sorted lists and change nothing
    ([simple_sortNodes_idempotent]), so one run is modelled. *)
Definition hierarchicalData (o : SimpleOrgChart.options) (rootNodes : list tnode)
    : list tnode :=
  SimpleOrgChart.sortNodes o (SimpleOrgChart.removeDuplicates rootNodes).

(** What the duplicate filter guarantees for a node and for a sibling list
    given the ids seen so far. *)
Definition filtersNode (n : tnode) : Prop :=
  forall seen : gset Z,
    let r := SimpleOrgChart.filterNode n seen in
    id r.1 = id n /\
    NoDup (sub_ids r.1) /\
    (forall j, j ∈ sub_ids r.1 -> j ∉ seen) /\
    (forall j, j ∈ r.2 <-> j ∈ seen \/ j ∈ sub_ids r.1).

Definition filtersForest (nodes : list tnode) : Prop :=
  forall seen : gset Z,
    let r := SimpleOrgChart.filterDuplicates nodes seen in
    NoDup (forest_ids r.1) /\
    (forall j, j ∈ forest_ids r.1 -> j ∉ seen) /\
    (forall j, j ∈ r.2 <-> j ∈ seen \/ j ∈ forest_ids r.1).

(** What the first loop for a node, and [assignXPositions] for a sibling
    list, guarantee about positions when ids are pairwise distinct: only ids
    of the processed nodes change, and every visible node below (for a
    sibling list: at or below) is centred over its visible children. *)
Definition centresNode (o : SimpleOrgChart.options) (e : gmap Z bool) (n : tnode) : Prop :=
  forall lvl x st, NoDup (node_ids n) ->
    let st' := SimpleOrgChart.firstPassNode o lvl (SimpleOrgChart.buildNodeInfo o e lvl n) x st in
    (forall j, j ∉ node_ids n ->
       SimpleOrgChart.nodePositions st' !! j = SimpleOrgChart.nodePositions st !! j) /\
    (forall a, a ∈ visibleNodes e (vchildren e n) ->
       centered e (SimpleOrgChart.nodePositions st') a).

Definition centresForest (o : SimpleOrgChart.options) (e : gmap Z bool)
    (nodes : list tnode) : Prop :=
  forall lvl x st, NoDup (forest_ids nodes) ->
    let st' := SimpleOrgChart.assignXPositions o
                 (map (SimpleOrgChart.buildNodeInfo o e lvl) nodes) x lvl st in
    (forall j, j ∉ forest_ids nodes ->
       SimpleOrgChart.nodePositions st' !! j = SimpleOrgChart.nodePositions st !! j) /\
    (forall a, a ∈ visibleNodes e nodes ->
       centered e (SimpleOrgChart.nodePositions st') a).


(** The ascending order behind the comparator of SimpleOrgChart: the field,
    then the id. *)
Definition simpleBase (f : sortField) (a b : tnode) : comparison :=
  match f with
  | ByName =>
      match String.compare (lname a) (lname b) with
      | Eq => Z.compare (id a) (id b)
      | c => c
      end
  | ById => Z.compare (id a) (id b)
  end.

(** All nodes at and below a node, and of a forest, in document order. *)
Fixpoint allBelow (n : tnode) : list tnode :=
  match n with
  | TNode i nm ch => TNode i nm ch :: flat_map allBelow ch
  end.

Definition allNodes (nodes : list tnode) : list tnode := flat_map allBelow nodes.

(** The nodes [d] levels below the given ones, shown or not. *)
Fixpoint depthLevel (d : nat) (nodes : list tnode) : list tnode :=
  match d with
  | O => nodes
  | S d' => depthLevel d' (flat_map children nodes)
  end.

(** The nodes of a forest with their depth, in document order. *)
Fixpoint belowWithDepth (level : Z) (n : tnode) : list (tnode * Z) :=
  match n with
  | TNode i nm ch => (TNode i nm ch, level) :: flat_map (belowWithDepth (level + 1)) ch
  end.

Definition nodesWithDepth (level : Z) (nodes : list tnode) : list (tnode * Z) :=
  flat_map (belowWithDepth level) nodes.

(** A node is left as it is by the recursive sort. *)
Definition sortedNode (cmp : tnode -> tnode -> comparison) (n : tnode) : Prop :=
  sortNode cmp n = n.

(** Between two position maps: the same ids have positions, no position
    has moved to the left and none has changed its level. *)
Definition movedRight (pos pos' : gmap Z SimpleOrgChart.position) : Prop :=
  forall j,
    match pos !! j, pos' !! j with
    | Some p, Some p' =>
        (SimpleOrgChart.x p <= SimpleOrgChart.x p')%Q /\
        SimpleOrgChart.level p' = SimpleOrgChart.level p
    | None, None => True
    | _, _ => False
    end.






(* ================================================================== *)
(** * Proofs                                                           *)
(* ================================================================== *)

(* ------------------------------------------------------------------ *)
(** * Facts about the tree builder                                     *)
(* ------------------------------------------------------------------ *)

Section BuilderFacts.
Import Builder.

(** ** Facts about one iteration *)

(** Lookup through an [alter]: either the altered key or another one. *)
Ltac alter_cases :=
  rewrite lookup_alter; case_decide; subst; [|done];
  match goal with |- context [?m !! ?p] => by destruct (m !! p) end.

Lemma children_of_alter_level m l k p :
  children_of (alter (set_level l) k m) p = children_of m p.
Proof. unfold children_of. alter_cases. Qed.

Lemma children_of_alter_push m c k p :
  children_of (alter (push_child c) k m) p =
  if decide (k = p) then
    match m !! p with Some _ => children_of m p ++ [c] | None => [] end
  else children_of m p.
Proof. unfold children_of. alter_cases. Qed.

Lemma level_of_alter_level m l k p :
  level_of (alter (set_level l) k m) p =
  if decide (k = p) then (fun _ => l) <$> level_of m p else level_of m p.
Proof. unfold level_of. alter_cases. Qed.

Lemma level_of_alter_push m c k p :
  level_of (alter (push_child c) k m) p = level_of m p.
Proof. unfold level_of. alter_cases. Qed.

Lemma child_of_children_of m p c : child_of m p c <-> c ∈ children_of m p.
Proof.
  unfold child_of, children_of. split.
  - intros (pn & -> & H). done.
  - destruct (m !! p) as [pn|]; simpl; [eauto|]. by intros ?%elem_of_nil.
Qed.

Lemma attach_eq st node :
  is_Some (nodeMap st !! rid node) ->
  attach st node =
  if attaches (nodeMap st) node then
    {| nodeMap :=
         alter (push_child (rid node)) (rpid node)
           (alter (set_level (default 0%Z (level_of (nodeMap st) (rpid node)) + 1))
                  (rid node) (nodeMap st));
       rootNodes := rootNodes st |}
  else
    {| nodeMap := alter (set_level 0) (rid node) (nodeMap st);
       rootNodes := rootNodes st ++ [rid node] |}.
Proof.
  intros [pn Hpn]. unfold attach, attaches, level_of. rewrite Hpn.
  destruct (truthy (rpid node)); simpl; [|done].
  case_bool_decide as Hp; [|done].
  destruct Hp as [q Hq]. by rewrite Hq.
Qed.

Lemma attach_dom st node k :
  is_Some (nodeMap (attach st node) !! k) <-> is_Some (nodeMap st !! k).
Proof.
  unfold attach.
  destruct (nodeMap st !! rid node) eqn:E; [|done].
  destruct (truthy (rpid node) && bool_decide (is_Some (nodeMap st !! rpid node))).
  - destruct (nodeMap st !! rpid node); [|done]. simpl.
    by rewrite !lookup_alter_is_Some.
  - simpl. by rewrite lookup_alter_is_Some.
Qed.

Lemma attach_attaches st node n :
  attaches (nodeMap (attach st node)) n = attaches (nodeMap st) n.
Proof.
  unfold attaches. f_equal. apply bool_decide_ext, attach_dom.
Qed.

Lemma attach_roots st node k :
  is_Some (nodeMap st !! rid node) ->
  k ∈ rootNodes (attach st node) <->
  k ∈ rootNodes st \/ (k = rid node /\ attaches (nodeMap st) node = false).
Proof.
  intros H. rewrite attach_eq by done.
  destruct (attaches (nodeMap st) node); simpl.
  - naive_solver.
  - rewrite elem_of_app, list_elem_of_singleton. naive_solver.
Qed.

Lemma attach_children st node p c :
  is_Some (nodeMap st !! rid node) ->
  c ∈ children_of (nodeMap (attach st node)) p <->
  c ∈ children_of (nodeMap st) p \/
  (c = rid node /\ p = rpid node /\ attaches (nodeMap st) node = true).
Proof.
  intros H. rewrite attach_eq by done.
  destruct (attaches (nodeMap st) node) eqn:E; simpl.
  - rewrite children_of_alter_push. case_decide as Hk.
    + subst p. rewrite lookup_alter.
      apply andb_prop in E as [_ [q Hq]%bool_decide_eq_true].
      assert (is_Some (if decide (rid node = rpid node)
                then set_level (default 0%Z (level_of (nodeMap st) (rpid node)) + 1)
                       <$> nodeMap st !! rid node
                else nodeMap st !! rpid node)) as [q' ->].
      { case_decide as Hd; [rewrite Hd|]; rewrite ?fmap_is_Some; by rewrite Hq. }
      rewrite elem_of_app, list_elem_of_singleton, children_of_alter_level.
      naive_solver.
    + rewrite children_of_alter_level. naive_solver.
  - rewrite children_of_alter_level. naive_solver.
Qed.

Lemma attach_level_other st node k :
  k <> rid node ->
  level_of (nodeMap (attach st node)) k = level_of (nodeMap st) k.
Proof.
  intros Hk. unfold attach.
  destruct (nodeMap st !! rid node) eqn:E; [|done].
  destruct (truthy (rpid node) && bool_decide (is_Some (nodeMap st !! rpid node))).
  - destruct (nodeMap st !! rpid node); [|done]. simpl.
    rewrite level_of_alter_push, level_of_alter_level. by case_decide.
  - simpl. rewrite level_of_alter_level. by case_decide.
Qed.

Lemma attach_level_root st node :
  is_Some (nodeMap st !! rid node) ->
  attaches (nodeMap st) node = false ->
  level_of (nodeMap (attach st node)) (rid node) = Some 0%Z.
Proof.
  intros H E. rewrite attach_eq, E by done. simpl.
  rewrite level_of_alter_level. rewrite decide_True by done.
  unfold level_of. destruct H as [q ->]. done.
Qed.

Lemma attach_level_child st node :
  is_Some (nodeMap st !! rid node) ->
  attaches (nodeMap st) node = true ->
  level_of (nodeMap (attach st node)) (rid node) =
  (fun l => (l + 1)%Z) <$> level_of (nodeMap st) (rpid node).
Proof.
  intros H E. rewrite attach_eq, E by done. simpl.
  rewrite level_of_alter_push, level_of_alter_level, decide_True by done.
  apply andb_prop in E as [_ [q Hq]%bool_decide_eq_true].
  unfold level_of. destruct H as [q' ->]. rewrite Hq. done.
Qed.

(** ** Facts about the input passes *)

Lemma uniqueData_from_elem seen data n :
  n ∈ uniqueData_from seen data -> n ∈ data.
Proof.
  revert seen. induction data as [|a data IH]; intros seen; simpl; [done|].
  case_decide.
  - intros H1%IH. by right.
  - intros [->|H1]%elem_of_cons; [left|right; eauto].
Qed.

Lemma uniqueData_from_fresh seen data n :
  n ∈ uniqueData_from seen data -> rid n ∉ seen.
Proof.
  revert seen. induction data as [|a data IH]; intros seen; simpl.
  - by intros ?%elem_of_nil.
  - case_decide; [by eauto|].
    intros [->|H1]%elem_of_cons; [done|].
    apply IH in H1. set_solver.
Qed.

Lemma uniqueData_from_NoDup seen data :
  NoDup (rid <$> uniqueData_from seen data).
Proof.
  revert seen. induction data as [|a data IH]; intros seen; simpl.
  - constructor.
  - case_decide; [done|]. rewrite fmap_cons. constructor; [|done].
    intros (n & Hn & Hin)%list_elem_of_fmap.
    apply uniqueData_from_fresh in Hin. set_solver.
Qed.

Lemma uniqueData_NoDup data : NoDup (rid <$> uniqueData data).
Proof. apply uniqueData_from_NoDup. Qed.

Lemma uniqueData_id data :
  NoDup (rid <$> data) -> uniqueData data = data.
Proof.
  unfold uniqueData.
  assert (forall seen, (forall n, n ∈ data -> rid n ∉ seen) ->
            NoDup (rid <$> data) -> uniqueData_from seen data = data) as G.
  { induction data as [|a data IH]; intros seen Hs Hn; simpl; [done|].
    rewrite fmap_cons in Hn. apply NoDup_cons in Hn as [Ha Hn].
    rewrite decide_False by (apply Hs; left).
    f_equal. apply IH; [|done].
    intros n Hin. rewrite not_elem_of_union, not_elem_of_singleton. split.
    - intros E. apply Ha. rewrite <- E. apply list_elem_of_fmap. eauto.
    - apply Hs. by right. }
  apply G. set_solver.
Qed.

Lemma firstPass_dom uniq k :
  is_Some (firstPass uniq !! k) <-> k ∈ rid <$> uniq.
Proof.
  unfold firstPass.
  induction uniq as [|n uniq IH] using rev_ind.
  - simpl. rewrite lookup_empty, is_Some_alt. set_solver.
  - rewrite fold_left_app, fmap_app. simpl.
    rewrite lookup_insert_is_Some, elem_of_app, IH, list_elem_of_singleton.
    destruct (decide (rid n = k)); naive_solver.
Qed.

(** ** Facts about the whole second pass *)

Lemma secondPass_dom l st k :
  is_Some (nodeMap (secondPass l st) !! k) <-> is_Some (nodeMap st !! k).
Proof.
  revert st. induction l as [|n l IH]; intros st; simpl; [done|].
  unfold secondPass in IH. by rewrite IH, attach_dom.
Qed.

Lemma secondPass_attaches l st n :
  attaches (nodeMap (secondPass l st)) n = attaches (nodeMap st) n.
Proof.
  unfold attaches. f_equal. apply bool_decide_ext, secondPass_dom.
Qed.

Lemma secondPass_roots l st k :
  (forall n, n ∈ l -> is_Some (nodeMap st !! rid n)) ->
  k ∈ rootNodes (secondPass l st) <->
  k ∈ rootNodes st \/
  exists n, n ∈ l /\ rid n = k /\ attaches (nodeMap st) n = false.
Proof.
  revert st. induction l as [|n l IH]; intros st Hdom; simpl.
  - split; [by left|]. intros [?|(n & ?%elem_of_nil & _)]; done.
  - unfold secondPass in IH. rewrite IH.
    2:{ intros n' Hn'. apply attach_dom, Hdom. by right. }
    rewrite attach_roots by (apply Hdom; left). split.
    + intros [[?|[-> ?]]|(n' & Hin & <- & Hat)]; [by left| |].
      * right. exists n. split; [left|done].
      * right. exists n'. rewrite attach_attaches in Hat. split; [by right|done].
    + intros [?|(n' & [->|Hin]%elem_of_cons & <- & Hat)]; [by left;left| |].
      * left; right. done.
      * right. exists n'. by rewrite attach_attaches.
Qed.

Lemma secondPass_children l st p c :
  (forall n, n ∈ l -> is_Some (nodeMap st !! rid n)) ->
  c ∈ children_of (nodeMap (secondPass l st)) p <->
  c ∈ children_of (nodeMap st) p \/
  exists n, n ∈ l /\ rid n = c /\ rpid n = p /\ attaches (nodeMap st) n = true.
Proof.
  revert st. induction l as [|n l IH]; intros st Hdom; simpl.
  - split; [by left|]. intros [?|(n & ?%elem_of_nil & _)]; done.
  - unfold secondPass in IH. rewrite IH.
    2:{ intros n' Hn'. apply attach_dom, Hdom. by right. }
    rewrite attach_children by (apply Hdom; left). split.
    + intros [[?|(-> & -> & ?)]|(n' & Hin & <- & <- & Hat)]; [by left| |].
      * right. exists n. split; [left|done].
      * right. exists n'. rewrite attach_attaches in Hat. split; [by right|done].
    + intros [?|(n' & [->|Hin]%elem_of_cons & <- & <- & Hat)]; [by left;left| |].
      * left; right. done.
      * right. exists n'. by rewrite attach_attaches.
Qed.

Lemma secondPass_level_keep l st k :
  k ∉ rid <$> l ->
  level_of (nodeMap (secondPass l st)) k = level_of (nodeMap st) k.
Proof.
  revert st. induction l as [|n l IH]; intros st Hk; simpl; [done|].
  rewrite fmap_cons, not_elem_of_cons in Hk. destruct Hk as [Hk1 Hk2].
  unfold secondPass in IH. rewrite IH by done. by apply attach_level_other.
Qed.

Lemma start_dom data n :
  n ∈ uniqueData data -> is_Some (nodeMap (start data) !! rid n).
Proof. intros H. apply firstPass_dom, list_elem_of_fmap. eauto. Qed.

Lemma start_children data p : children_of (nodeMap (start data)) p = [].
Proof.
  unfold start, firstPass, children_of. simpl.
  induction (uniqueData data) as [|n uniq IH] using rev_ind; [done|].
  rewrite fold_left_app. simpl. rewrite lookup_insert. by case_decide.
Qed.

Lemma processData_roots data k :
  k ∈ rootNodes (processData data) <->
  exists n, n ∈ uniqueData data /\ rid n = k /\
            attaches (nodeMap (start data)) n = false.
Proof.
  unfold processData.
  rewrite secondPass_roots by apply start_dom. simpl. set_solver.
Qed.

Lemma processData_children data p c :
  child_of (nodeMap (processData data)) p c <->
  exists n, n ∈ uniqueData data /\ rid n = c /\ rpid n = p /\
            attaches (nodeMap (start data)) n = true.
Proof.
  rewrite child_of_children_of. unfold processData.
  rewrite secondPass_children by apply start_dom.
  rewrite start_children. set_solver.
Qed.

Lemma uniqueData_rid_inj data n1 n2 :
  n1 ∈ uniqueData data -> n2 ∈ uniqueData data -> rid n1 = rid n2 -> n1 = n2.
Proof.
  intros H1 H2 E. pose proof (uniqueData_NoDup data) as Hnd.
  apply list_elem_of_lookup in H1 as [i1 H1], H2 as [i2 H2].
  assert (i1 = i2) as ->; [|congruence].
  eapply NoDup_lookup; [exact Hnd| |]; rewrite list_lookup_fmap.
  - by rewrite H1.
  - rewrite H2. simpl. by rewrite E.
Qed.

(** Every non-root node has exactly one parent. *)
Lemma parent_unique data p1 p2 c :
  child_of (nodeMap (processData data)) p1 c ->
  child_of (nodeMap (processData data)) p2 c -> p1 = p2.
Proof.
  intros (n1 & Hin1 & Hc1 & <- & _)%processData_children
         (n2 & Hin2 & Hc2 & <- & _)%processData_children.
  f_equal. apply (uniqueData_rid_inj data); congruence.
Qed.

Lemma root_no_parent data p r :
  r ∈ rootNodes (processData data) ->
  ~ child_of (nodeMap (processData data)) p r.
Proof.
  intros (n1 & Hin1 & Hr1 & Hat1)%processData_roots
         (n2 & Hin2 & Hr2 & _ & Hat2)%processData_children.
  assert (n1 = n2) by (apply (uniqueData_rid_inj data); congruence).
  congruence.
Qed.

Lemma processData_level_root data n :
  n ∈ uniqueData data -> attaches (nodeMap (start data)) n = false ->
  level_of (nodeMap (processData data)) (rid n) = Some 0%Z.
Proof.
  intros Hin Hat. unfold processData.
  pose proof (uniqueData_NoDup data) as Hnd.
  pose proof (start_dom data) as Hdom.
  apply list_elem_of_split in Hin as (l1 & l2 & E). rewrite E in Hnd, Hdom |- *.
  unfold secondPass. rewrite fold_left_app. simpl.
  fold (secondPass l1 (start data)).
  fold (secondPass l2 (attach (secondPass l1 (start data)) n)).
  rewrite fmap_app, fmap_cons in Hnd.
  apply NoDup_app in Hnd as (_ & _ & [Hn _]%NoDup_cons).
  rewrite secondPass_level_keep by done.
  apply attach_level_root.
  - apply secondPass_dom, Hdom. set_solver.
  - by rewrite secondPass_attaches.
Qed.

Lemma tc_last {A} (R : relation A) x y :
  tc R x y -> exists z, rtc R x z /\ R z y.
Proof.
  induction 1 as [x y H|x y z H _ (w & Hw & Hl)].
  - exists x. split; [apply rtc_refl|done].
  - exists w. split; [by eapply rtc_l|done].
Qed.

(** A node on a cycle has its parent on the same cycle. *)
Lemma cycle_parent data p k :
  descends (nodeMap (processData data)) k k ->
  child_of (nodeMap (processData data)) p k ->
  descends (nodeMap (processData data)) p p.
Proof.
  intros Hc Hp. apply tc_last in Hc as (z & Hz & Hl).
  assert (z = p) as -> by (eapply parent_unique; eauto).
  eapply tc_rtc_r; [by apply tc_once|done].
Qed.

(** Where every parent record precedes its child records, the level of a
    child is one more than the level of its parent. *)
Lemma level_invariant_in_order data p c :
  (forall l1 n l2, uniqueData data = l1 ++ n :: l2 ->
     attaches (nodeMap (start data)) n = true -> rpid n ∈ rid <$> l1) ->
  child_of (nodeMap (processData data)) p c ->
  level_of (nodeMap (processData data)) c =
  (fun l => (l + 1)%Z) <$> level_of (nodeMap (processData data)) p.
Proof.
  intros Horder (n & Hin & <- & <- & Hat)%processData_children.
  unfold processData.
  pose proof (uniqueData_NoDup data) as Hnd.
  pose proof (start_dom data) as Hdom.
  apply list_elem_of_split in Hin as (l1 & l2 & E).
  specialize (Horder l1 n l2 E Hat).
  rewrite E in Hnd, Hdom |- *.
  unfold secondPass. rewrite fold_left_app. simpl.
  fold (secondPass l1 (start data)).
  fold (secondPass l2 (attach (secondPass l1 (start data)) n)).
  rewrite fmap_app, fmap_cons in Hnd.
  apply NoDup_app in Hnd as (_ & Hdisj & [Hn Hnd2]%NoDup_cons).
  assert (rpid n ∉ rid <$> l2) as Hp2.
  { intros Hin2. apply (Hdisj (rpid n) Horder). by right. }
  assert (rpid n <> rid n) as Hpn.
  { intros Heq. apply (Hdisj (rpid n) Horder). rewrite Heq. left. }
  rewrite !secondPass_level_keep by done.
  rewrite attach_level_child.
  - by rewrite (attach_level_other _ _ (rpid n)).
  - apply secondPass_dom, Hdom. set_solver.
  - by rewrite secondPass_attaches.
Qed.

(** ** C10 *)

(** C10 as stated fails: not every input record with a falsy [pid] becomes
    a root.  The third record below has [pid] 0 but repeats id 1; the
    duplicate filter drops it, and id 1 stands for the first record, which
    is hung under node 2 at level 1 and is no root. *)
Lemma duplicate_falsy_pid_is_not_root :
  let data := [Rec (JNum 1) (JNum 2); Rec (JNum 2) JUndef; Rec (JNum 1) (JNum 0)] in
  let node := Rec (JNum 1) (JNum 0) in
  let m := nodeMap (processData data) in
  (node ∈ data) /\ truthy (rpid node) = false /\
  (rid node ∉ rootNodes (processData data)) /\
  level_of m (rid node) = Some 1%Z /\
  child_of m (JNum 2) (rid node).
Proof.
  intros data node m. split; [|split; [|split; [|split]]].
  - right; right; left.
  - reflexivity.
  - apply (bool_decide_unpack _); vm_compute; exact I.
  - vm_compute; reflexivity.
  - eexists. split; [vm_compute; reflexivity|]. simpl. left.
Qed.

(** C10, amended.  A record that the duplicate filter keeps (the first
    record of its id) and whose [pid] is falsy is put in [rootNodes] with
    level 0 and is nobody's child, whatever ids the other records have; the
    records hung under a parent are exactly ones with a truthy [pid]. *)
Theorem falsy_pid_is_root (data : list record) (node : record) :
  node ∈ uniqueData data ->
  truthy (rpid node) = false ->
  rid node ∈ rootNodes (processData data) /\
  level_of (nodeMap (processData data)) (rid node) = Some 0%Z /\
  (forall p, ~ child_of (nodeMap (processData data)) p (rid node)) /\
  (forall p c, child_of (nodeMap (processData data)) p c ->
     exists n, n ∈ uniqueData data /\ rid n = c /\ rpid n = p /\
               truthy (rpid n) = true).
Proof.
  intros Hin Hf.
  assert (attaches (nodeMap (start data)) node = false) as Hat
    by (unfold attaches; by rewrite Hf).
  assert (rid node ∈ rootNodes (processData data)) as Hroot
    by (apply processData_roots; eauto).
  repeat split.
  - done.
  - by apply processData_level_root.
  - intros p. by apply root_no_parent.
  - intros p c (n & Hn & Hc & Hp & [Ht _]%andb_prop)%processData_children.
    eauto.
Qed.

Lemma falsy_pid_is_root_witness :
  let data := [Rec (JNum 0) JUndef; Rec (JNum 5) (JNum 0);
               Rec (JStr EmptyString) JNull; Rec (JNum 7) (JStr EmptyString)] in
  let node := Rec (JNum 5) (JNum 0) in
  node ∈ uniqueData data /\ truthy (rpid node) = false /\
  rid node ∈ rootNodes (processData data) /\
  level_of (nodeMap (processData data)) (rid node) = Some 0%Z.
Proof.
  intros data node.
  assert (node ∈ uniqueData data) as Hin by (vm_compute; right; left).
  assert (truthy (rpid node) = false) as Hf by reflexivity.
  destruct (falsy_pid_is_root data node Hin Hf) as (H1 & H2 & _).
  exact (conj Hin (conj Hf (conj H1 H2))).
Defined.

(** ** C5 *)

(** C5 as stated fails: two records naming each other as parent are hung
    under each other, so node 1 is its own descendant. *)
Lemma children_cycle_counterexample :
  let m := nodeMap (processData [Rec (JNum 1) (JNum 2); Rec (JNum 2) (JNum 1)]) in
  descends m (JNum 1) (JNum 1).
Proof.
  intros m. apply tc_l with (JNum 2); [|apply tc_once].
  - eexists. split; [vm_compute; reflexivity|]. simpl. left.
  - eexists. split; [vm_compute; reflexivity|]. simpl. left.
Qed.

(** C5, amended.  In the forest hanging from [rootNodes] no node is its own
    descendant: a node reachable from a root by children links lies on no
    cycle of the children relation. *)
Theorem no_cycle_below_roots (data : list record) (r k : jsval) :
  r ∈ rootNodes (processData data) ->
  reaches (nodeMap (processData data)) r k ->
  ~ descends (nodeMap (processData data)) k k.
Proof.
  intros Hr. unfold reaches. revert k. apply rtc_ind_r.
  - intros (z & _ & Hl)%tc_last. by eapply root_no_parent.
  - intros y z _ Hstep IH Hc. apply IH. by eapply cycle_parent.
Qed.

Lemma no_cycle_below_roots_witness :
  let data := [Rec (JNum 3) (JNum 2); Rec (JNum 2) (JNum 1); Rec (JNum 1) JUndef;
               Rec (JNum 8) (JNum 9); Rec (JNum 9) (JNum 8)] in
  JNum 1 ∈ rootNodes (processData data) /\
  reaches (nodeMap (processData data)) (JNum 1) (JNum 2) /\
  ~ descends (nodeMap (processData data)) (JNum 2) (JNum 2).
Proof.
  intros data.
  assert (JNum 1 ∈ rootNodes (processData data)) as Hr by (vm_compute; left).
  assert (reaches (nodeMap (processData data)) (JNum 1) (JNum 2)) as Hk.
  { apply rtc_once. eexists. split; [vm_compute; reflexivity|]. simpl. left. }
  exact (conj Hr (conj Hk (no_cycle_below_roots data _ _ Hr Hk))).
Defined.

(** ** C4 *)

(** C4 at the failing input: record 3 names 2 as parent and comes first,
    record 2 names 1 and comes second.  Node 3 is hung under node 2 while
    node 2 still has level 0, so both end with level 1. *)
Lemma level_out_of_order :
  let m := nodeMap (processData
             [Rec (JNum 3) (JNum 2); Rec (JNum 2) (JNum 1); Rec (JNum 1) JUndef]) in
  child_of m (JNum 2) (JNum 3) /\
  level_of m (JNum 2) = Some 1%Z /\
  level_of m (JNum 3) = Some 1%Z.
Proof.
  intros m. split; [|split]; [|vm_compute; reflexivity..].
  eexists. split; [vm_compute; reflexivity|]. simpl. left.
Qed.

End BuilderFacts.

(* ------------------------------------------------------------------ *)
(** * Viewport: zoom                                                   *)
(* ------------------------------------------------------------------ *)

Section HtmlZoom.
Import HTMLOrgChart.

Lemma clampScale_bounds s : (1 # 10 <= clampScale s /\ clampScale s <= 3)%Q.
Proof.
  unfold clampScale. split.
  - apply Q.le_max_l.
  - apply Q.max_lub; [lra|apply Q.le_min_l].
Qed.

Lemma refocus (focal c s : Q) :
  (~ s == 0 -> (focal - (focal - c * s)) / s == c)%Q.
Proof. intros Hs. field. exact Hs. Qed.

(** C3.  One wheel step of [handleWheel] keeps the content-space point under
    the cursor, in both coordinates, for every prior view and cursor
    position; the new scale is the clamped sum.  (Exact arithmetic.) *)
Theorem wheel_keeps_focal_point (deltaY mouseX mouseY : Q) (v : view) :
  let v' := handleWheel deltaY mouseX mouseY v in
  (scale v' == clampScale (scale v + wheelDelta deltaY) /\
   contentPoint mouseX (translateX v') (scale v')
     == contentPoint mouseX (translateX v) (scale v) /\
   contentPoint mouseY (translateY v') (scale v')
     == contentPoint mouseY (translateY v) (scale v))%Q.
Proof.
  intros v'. subst v'. unfold handleWheel, contentPoint. simpl.
  pose proof (clampScale_bounds (scale v + wheelDelta deltaY)) as [Hlo _].
  assert (~ clampScale (scale v + wheelDelta deltaY) == 0)%Q as Hne by lra.
  split; [reflexivity|]. split; apply refocus; exact Hne.
Qed.

End HtmlZoom.

Section SimpleZoom.
Import SimpleOrgChart.

Lemma qmax_bounds a b : (a <= qmax a b /\ b <= qmax a b)%Q.
Proof. unfold qmax. destruct (Qlt_le_dec a b); lra. Qed.

Lemma qmin_bounds a b : (qmin a b <= a /\ qmin a b <= b)%Q.
Proof. unfold qmin. destruct (Qlt_le_dec b a); lra. Qed.

Lemma setZoom_scale w h z v : currentScale (setZoom w h z v) = z.
Proof. reflexivity. Qed.

Lemma adjustZoom_in_range w h delta v :
  inZoomRange (currentScale (adjustZoom w h delta v)).
Proof.
  unfold adjustZoom. rewrite setZoom_scale. unfold inZoomRange.
  pose proof (qmax_bounds (1 # 2) (qmin 3 (currentScale v + delta))) as [H1 _].
  split; [exact H1|].
  unfold qmax. destruct (Qlt_le_dec _ _); [|lra].
  apply qmin_bounds.
Qed.

(** C9 as stated fails: [setZoom] stores its argument unclamped. *)
Lemma setZoom_leaves_range :
  let v := runZoom 800 600 [SetZoom 10] {| currentScale := 1; translationX := 0; translationY := 0 |} in
  ~ inZoomRange (currentScale v).
Proof. intros v [_ H]. vm_compute in H. apply H. reflexivity. Qed.

(** C9, amended.  Along every sequence of [adjustZoom], wheel and [setZoom]
    operations in which each [setZoom] argument lies in [0.5, 3] (as the
    slider supplies), from a scale in [0.5, 3], the scale stays in
    [0.5, 3]; [adjustZoom] and the wheel clamp from any scale. *)
Theorem zoom_stays_in_range (w h : Q) (ops : list zoomOp) (v : view) :
  inZoomRange (currentScale v) ->
  (forall z, SetZoom z ∈ ops -> inZoomRange z) ->
  inZoomRange (currentScale (runZoom w h ops v)).
Proof.
  revert v. induction ops as [|op ops IH]; intros v Hv Hset; simpl; [done|].
  unfold runZoom in IH. apply IH.
  - destruct op as [delta|z|dy]; cbn [zoomStep].
    + apply adjustZoom_in_range.
    + rewrite setZoom_scale. apply Hset. left.
    + apply adjustZoom_in_range.
  - intros z Hz. apply Hset. by right.
Qed.

Lemma zoom_stays_in_range_witness :
  let v := {| currentScale := 1; translationX := 0; translationY := 0 |} in
  let ops := [AdjustZoom 5; SetZoom (5 # 2); Wheel 1; AdjustZoom (-9)] in
  inZoomRange (currentScale v) /\
  (forall z, SetZoom z ∈ ops -> inZoomRange z) /\
  inZoomRange (currentScale (runZoom 800 600 ops v)).
Proof.
  intros v ops.
  assert (inZoomRange (currentScale v)) as Hv by (split; vm_compute; discriminate).
  assert (forall z, SetZoom z ∈ ops -> inZoomRange z) as Hs.
  { intros z Hz. unfold ops in Hz.
    repeat (apply elem_of_cons in Hz as [Hz|Hz]; [try discriminate|]).
    - injection Hz as ->. split; vm_compute; discriminate.
    - by apply elem_of_nil in Hz. }
  exact (conj Hv (conj Hs (zoom_stays_in_range 800 600 ops v Hv Hs))).
Defined.

End SimpleZoom.

(* ------------------------------------------------------------------ *)
(** * Trees: induction and ids                                         *)
(* ------------------------------------------------------------------ *)

Lemma tnode_forall_ind (P : tnode -> Prop) :
  (forall i nm ch, Forall P ch -> P (TNode i nm ch)) -> forall n, P n.
Proof.
  intros H. fix IH 1. intros [i nm ch]. apply H.
  induction ch as [|c ch IHch]; constructor; [apply IH|exact IHch].
Qed.

Lemma fold_left_flat_map {A B C} (f : A -> B -> A) (g : C -> list B) l a :
  fold_left f (flat_map g l) a = fold_left (fun acc c => fold_left f (g c) acc) l a.
Proof.
  revert a. induction l as [|c l IH]; intros a; simpl; [done|].
  by rewrite fold_left_app, IH.
Qed.

Lemma node_depths_ids lvl n : (node_depths lvl n).*1 = node_ids n.
Proof.
  revert lvl. induction n as [i nm ch IH] using tnode_forall_ind. intros lvl.
  cbn [node_depths]. rewrite fmap_cons. cbn [fst node_ids]. f_equal.
  induction IH as [|c ch Hc _ IHch]; [done|].
  cbn [flat_map]. by rewrite fmap_app, Hc, IHch.
Qed.

Lemma forest_depths_ids lvl nodes : (forest_depths lvl nodes).*1 = forest_ids nodes.
Proof.
  unfold forest_depths, forest_ids.
  induction nodes as [|c ch IH]; [done|].
  cbn [flat_map]. by rewrite fmap_app, node_depths_ids, IH.
Qed.

(* ------------------------------------------------------------------ *)
(** * Initial expansion                                                *)
(* ------------------------------------------------------------------ *)

Section Expansion.

Lemma writePolicy_lookup pol l m i d :
  NoDup l.*1 -> (i, d) ∈ l -> writePolicy pol l m !! i = Some (pol d).
Proof.
  unfold writePolicy.
  induction l as [|[j e] l IH] using rev_ind; intros Hnd Hin.
  - by apply elem_of_nil in Hin.
  - rewrite fold_left_app. simpl.
    rewrite fmap_app in Hnd. apply NoDup_app in Hnd as (Hnd & Hdisj & _).
    apply elem_of_app in Hin as [Hin|Hin].
    + rewrite lookup_insert_ne; [by apply IH|].
      intros ->. eapply Hdisj; [|simpl; left].
      apply list_elem_of_fmap. by exists (i, d).
    + apply list_elem_of_singleton in Hin. injection Hin as -> ->.
      by rewrite lookup_insert_eq.
Qed.

Lemma html_configureExpansion_fold o lvl n m :
  HTMLOrgChart.configureExpansion o lvl n m =
  writePolicy (HTMLOrgChart.policy o) (node_depths lvl n) m.
Proof.
  revert lvl m. induction n as [i nm ch IH] using tnode_forall_ind. intros lvl m.
  unfold writePolicy.
  cbn [HTMLOrgChart.configureExpansion node_depths fold_left fst snd].
  fold (HTMLOrgChart.policy o lvl). generalize (<[i:=HTMLOrgChart.policy o lvl]> m). clear m.
  intros m. rewrite fold_left_flat_map. revert m.
  induction IH as [|c ch Hc _ IHch]; intros m; [done|].
  cbn [fold_left]. by rewrite Hc, IHch.
Qed.

Lemma simple_configureExpansion_fold o lvl n m :
  SimpleOrgChart.configureExpansion o lvl n m =
  writePolicy (SimpleOrgChart.policy o) (node_depths lvl n) m.
Proof.
  revert lvl m. induction n as [i nm ch IH] using tnode_forall_ind. intros lvl m.
  unfold writePolicy.
  cbn [SimpleOrgChart.configureExpansion node_depths fold_left fst snd].
  fold (SimpleOrgChart.policy o lvl). generalize (<[i:=SimpleOrgChart.policy o lvl]> m). clear m.
  intros m. rewrite fold_left_flat_map. revert m.
  induction IH as [|c ch Hc _ IHch]; intros m; [done|].
  cbn [fold_left]. by rewrite Hc, IHch.
Qed.

Lemma html_configureInitialExpansion_fold o nodes m :
  HTMLOrgChart.configureInitialExpansion o nodes m =
  writePolicy (HTMLOrgChart.policy o) (forest_depths 0 nodes) m.
Proof.
  unfold HTMLOrgChart.configureInitialExpansion, writePolicy, forest_depths.
  rewrite fold_left_flat_map. revert m.
  induction nodes as [|c ch IH]; intros m; [done|].
  cbn [fold_left]. by rewrite html_configureExpansion_fold, IH.
Qed.

Lemma simple_configureInitialExpansion_fold o nodes m :
  SimpleOrgChart.configureInitialExpansion o nodes m =
  writePolicy (SimpleOrgChart.policy o) (forest_depths 0 nodes) m.
Proof.
  unfold SimpleOrgChart.configureInitialExpansion, writePolicy, forest_depths.
  rewrite fold_left_flat_map. revert m.
  induction nodes as [|c ch IH]; intros m; [done|].
  cbn [fold_left]. by rewrite simple_configureExpansion_fold, IH.
Qed.

(** C6.  After [configureInitialExpansion] on a tree whose ids are pairwise
    distinct, the entry of a node at depth [d] is
    [initiallyExpanded || d < initialVisibleLevels] in HTMLOrgChart and
    [initiallyExpanded && d < initialVisibleLevels] in SimpleOrgChart,
    whatever the map held before; with the default options the HTML variant
    marks roots expanded and SimpleOrgChart marks every node collapsed. *)
Theorem initial_expansion_policy (ho : HTMLOrgChart.options)
    (so : SimpleOrgChart.options) (hierarchicalData : list tnode)
    (before : gmap Z bool) (i d : Z) :
  NoDup (forest_ids hierarchicalData) ->
  (i, d) ∈ forest_depths 0 hierarchicalData ->
  HTMLOrgChart.configureInitialExpansion ho hierarchicalData before !! i
    = Some (HTMLOrgChart.initiallyExpanded ho
            || (d <? HTMLOrgChart.initialVisibleLevels ho)%Z) /\
  SimpleOrgChart.configureInitialExpansion so hierarchicalData before !! i
    = Some (SimpleOrgChart.initiallyExpanded so
            && (d <? SimpleOrgChart.initialVisibleLevels so)%Z) /\
  (d = 0%Z ->
   HTMLOrgChart.configureInitialExpansion HTMLOrgChart.defaultOptions
     hierarchicalData before !! i = Some true) /\
  SimpleOrgChart.configureInitialExpansion SimpleOrgChart.defaultOptions
    hierarchicalData before !! i = Some false.
Proof.
  intros Hnd Hin. rewrite <- (forest_depths_ids 0) in Hnd.
  rewrite !html_configureInitialExpansion_fold, !simple_configureInitialExpansion_fold.
  rewrite !(writePolicy_lookup _ _ _ i d) by done.
  repeat split. by intros ->.
Qed.

Lemma initial_expansion_policy_witness :
  let data := [TNode 1 "Ann" [TNode 2 "Bob" [TNode 4 "Dan" []]; TNode 3 "Cid" []]] in
  NoDup (forest_ids data) /\ (4%Z, 2%Z) ∈ forest_depths 0 data /\
  HTMLOrgChart.configureInitialExpansion HTMLOrgChart.defaultOptions data ∅ !! 4%Z
    = Some false /\
  SimpleOrgChart.configureInitialExpansion SimpleOrgChart.defaultOptions data ∅ !! 4%Z
    = Some false.
Proof.
  intros data.
  assert (NoDup (forest_ids data)) as Hnd by (apply (bool_decide_unpack _); vm_compute; exact I).
  assert ((4%Z, 2%Z) ∈ forest_depths 0 data) as Hin
    by (apply (bool_decide_unpack _); vm_compute; exact I).
  destruct (initial_expansion_policy HTMLOrgChart.defaultOptions
              SimpleOrgChart.defaultOptions data ∅ 4 2 Hnd Hin) as (H1 & _ & _ & H4).
  exact (conj Hnd (conj Hin (conj H1 H4))).
Defined.

End Expansion.

(* ------------------------------------------------------------------ *)
(** * The stable sort                                                  *)
(* ------------------------------------------------------------------ *)

Section JsSort.
Context {A : Type}.
Implicit Types (cmp : A -> A -> comparison) (l : list A).

Lemma js_insert_perm cmp a l : js_insert cmp a l ≡ₚ a :: l.
Proof.
  induction l as [|b l IH]; simpl; [done|].
  destruct (cmp a b); [done..|]. rewrite IH. apply Permutation_swap.
Qed.

Lemma js_sort_perm cmp l : js_sort cmp l ≡ₚ l.
Proof.
  induction l as [|a l IH]; simpl; [done|].
  by rewrite js_insert_perm, IH.
Qed.

Lemma js_sort_elem cmp l a : a ∈ js_sort cmp l <-> a ∈ l.
Proof. by rewrite js_sort_perm. Qed.



Section Order.
Context (cmp : A -> A -> comparison).
Context (cmp_antisym : forall a b, cmp a b = CompOpp (cmp b a)).
Context (cmp_trans : forall a b c, cmp a b = Lt -> cmp b c = Lt -> cmp a c = Lt).



End Order.
End JsSort.

Lemma js_insert_sorted_le {A} (cmp : A -> A -> comparison) a l :
  (forall a b, cmp a b = Gt -> cmp b a <> Gt) ->
  (forall a b c, cmp a b <> Gt -> cmp b c <> Gt -> cmp a c <> Gt) ->
  StronglySorted (fun a b => cmp a b <> Gt) l ->
  StronglySorted (fun a b => cmp a b <> Gt) (js_insert cmp a l).
Proof.
  intros Htot Htr Hs. induction Hs as [|b l Hs IH Hb]; simpl.
  - repeat constructor.
  - destruct (cmp a b) eqn:E.
    + constructor; [by constructor|]. constructor; [by rewrite E|].
      eapply Forall_impl; [exact Hb|]. intros c Hc. simpl in Hc.
      eapply Htr; [|exact Hc]. by rewrite E.
    + constructor; [by constructor|]. constructor; [by rewrite E|].
      eapply Forall_impl; [exact Hb|]. intros c Hc. simpl in Hc.
      eapply Htr; [|exact Hc]. by rewrite E.
    + constructor; [done|].
      apply Forall_forall. intros c Hc.
      rewrite js_insert_perm in Hc. apply elem_of_cons in Hc as [->|Hc]; [by apply Htot|].
      rewrite Forall_forall in Hb. by apply Hb.
Qed.

Lemma js_sort_sorted_le {A} (cmp : A -> A -> comparison) l :
  (forall a b, cmp a b = Gt -> cmp b a <> Gt) ->
  (forall a b c, cmp a b <> Gt -> cmp b c <> Gt -> cmp a c <> Gt) ->
  StronglySorted (fun a b => cmp a b <> Gt) (js_sort cmp l).
Proof.
  intros Htot Htr. induction l as [|a l IH]; simpl; [constructor|].
  by apply js_insert_sorted_le.
Qed.

Lemma js_sort_map {A B} (f : A -> B) (cmpA : A -> A -> comparison)
    (cmpB : B -> B -> comparison) l :
  (forall a b, cmpB (f a) (f b) = cmpA a b) ->
  js_sort cmpB (map f l) = map f (js_sort cmpA l).
Proof.
  intros Hf. induction l as [|a l IH]; simpl; [done|]. rewrite IH.
  generalize (js_sort cmpA l). intros s.
  induction s as [|b s IHs]; simpl; [done|].
  rewrite Hf. destruct (cmpA a b); simpl; by rewrite ?IHs.
Qed.


Lemma StronglySorted_weaken {A} (R R' : A -> A -> Prop) l :
  (forall a b, R a b -> R' a b) -> StronglySorted R l -> StronglySorted R' l.
Proof.
  intros HR. induction 1 as [|a l _ IH Ha]; constructor; [done|].
  eapply Forall_impl; [exact Ha|]. simpl. eauto.
Qed.



(* ------------------------------------------------------------------ *)
(** * Sorting a tree both ways                                         *)
(* ------------------------------------------------------------------ *)

Lemma sortNode_label cmp n : label (sortNode cmp n) = label n.
Proof. by destruct n. Qed.


Lemma below_Forall R ch :
  foldr (fun c acc => pairwiseBelow R c /\ acc) True ch <-> Forall (pairwiseBelow R) ch.
Proof.
  induction ch as [|c ch IH]; simpl.
  - split; [constructor|done].
  - rewrite Forall_cons, IH. done.
Qed.

Section RoundTrip.
Context (asc desc : tnode -> tnode -> comparison).
Context (asc_label : forall a a' b b',
           label a = label a' -> label b = label b' -> asc a b = asc a' b').
Context (asc_antisym : forall a b, asc a b = CompOpp (asc b a)).
Context (asc_trans : forall a b c, asc a b = Lt -> asc b c = Lt -> asc a c = Lt).
Context (desc_opp : forall a b, desc a b = CompOpp (asc a b)).




End RoundTrip.

(** ** String comparison is a strict order *)

Lemma ascii_compare_refl c : Ascii.compare c c = Eq.
Proof. unfold Ascii.compare. apply N.compare_refl. Qed.

Lemma ascii_compare_trans a b c :
  Ascii.compare a b = Lt -> Ascii.compare b c = Lt -> Ascii.compare a c = Lt.
Proof. unfold Ascii.compare. rewrite !N.compare_lt_iff. lia. Qed.

Lemma string_compare_trans s1 s2 s3 :
  String.compare s1 s2 = Lt -> String.compare s2 s3 = Lt -> String.compare s1 s3 = Lt.
Proof.
  revert s2 s3. induction s1 as [|c1 s1 IH]; intros [|c2 s2] [|c3 s3]; simpl; try done.
  destruct (Ascii.compare c1 c2) eqn:E12; try done;
    destruct (Ascii.compare c2 c3) eqn:E23; try done; intros H12 H23.
  - apply Ascii.compare_eq_iff in E12, E23. subst.
    rewrite ascii_compare_refl. eauto.
  - apply Ascii.compare_eq_iff in E12. subst. by rewrite E23.
  - apply Ascii.compare_eq_iff in E23. subst. by rewrite E12.
  - by rewrite (ascii_compare_trans _ _ _ E12 E23).
Qed.

Lemma string_compare_refl s : String.compare s s = Eq.
Proof.
  pose proof (String.compare_antisym s s) as H.
  by destruct (String.compare s s).
Qed.

(** ** The two comparators *)



Section Comparators.






End Comparators.

(** ** Sorting again changes nothing *)

Lemma js_sort_fixed {A} (cmp : A -> A -> comparison) l :
  StronglySorted (fun a b => cmp a b <> Gt) l -> js_sort cmp l = l.
Proof.
  induction 1 as [|a l _ IH Ha]; simpl; [done|]. rewrite IH.
  destruct Ha as [|b r Hb _]; simpl; [done|]. by destruct (cmp a b).
Qed.

Section Preorder.
Context (cmp : tnode -> tnode -> comparison).
Context (cmp_label : forall a a' b b',
           label a = label a' -> label b = label b' -> cmp a b = cmp a' b').
Context (cmp_antisym : forall a b, cmp a b = CompOpp (cmp b a)).
Context (cmp_trans : forall a b c, cmp a b = Lt -> cmp b c = Lt -> cmp a c = Lt).
Context (cmp_eq : forall a b c, cmp a b = Eq -> cmp a c = cmp b c).

Lemma preorder_total a b : cmp a b = Gt -> cmp b a <> Gt.
Proof using cmp_antisym. intros H. by rewrite cmp_antisym, H. Qed.

Lemma preorder_trans a b c : cmp a b <> Gt -> cmp b c <> Gt -> cmp a c <> Gt.
Proof using cmp_antisym cmp_trans cmp_eq.
  intros Hab Hbc.
  destruct (cmp a b) eqn:E1; [by rewrite (cmp_eq a b c)| |done].
  destruct (cmp b c) eqn:E2; [| |done].
  - assert (cmp c b = Eq) as E3 by (by rewrite cmp_antisym, E2).
    rewrite cmp_antisym, (cmp_eq c b a E3), <- cmp_antisym, E1. done.
  - by rewrite (cmp_trans a b c).
Qed.

Lemma sortForest_sorted nodes :
  StronglySorted (fun a b => cmp a b <> Gt) (sortForest cmp nodes).
Proof using cmp_antisym cmp_trans cmp_eq.
  apply js_sort_sorted_le; [apply preorder_total|apply preorder_trans].
Qed.

Lemma siblings_sorted_again ch :
  Forall (fun n => sortNode cmp (sortNode cmp n) = sortNode cmp n) ch ->
  sortForest cmp (sortForest cmp ch) = sortForest cmp ch.
Proof using cmp_antisym cmp_trans cmp_eq.
  intros Hch. unfold sortForest at 1.
  assert (map (sortNode cmp) (sortForest cmp ch) = sortForest cmp ch) as ->.
  { rewrite <- (map_id (sortForest cmp ch)) at 2. apply map_ext_in.
    intros n Hn%list_elem_of_In. unfold sortForest in Hn.
    apply js_sort_elem, list_elem_of_In, in_map_iff in Hn as (c & <- & Hc).
    rewrite Forall_forall in Hch. by apply Hch, list_elem_of_In. }
  apply js_sort_fixed, sortForest_sorted.
Qed.

Lemma sortNode_idempotent n : sortNode cmp (sortNode cmp n) = sortNode cmp n.
Proof using cmp_antisym cmp_trans cmp_eq.
  induction n as [i nm ch IH] using tnode_forall_ind.
  cbn [sortNode]. f_equal. by apply siblings_sorted_again.
Qed.

(** Running [sortNodes] on an already sorted forest, as [sortAllLevels]
    does level by level, leaves it as it is. *)
Lemma sortForest_idempotent nodes :
  sortForest cmp (sortForest cmp nodes) = sortForest cmp nodes.
Proof using cmp_antisym cmp_trans cmp_eq.
  apply siblings_sorted_again, Forall_forall. intros n _. apply sortNode_idempotent.
Qed.

End Preorder.

Lemma simple_compare_oriented o a b :
  SimpleOrgChart.compareNodes o a b =
  oriented (SimpleOrgChart.sortDirection o) (simpleBase (SimpleOrgChart.sortBy o) a b).
Proof.
  unfold SimpleOrgChart.compareNodes, simpleBase, lname.
  destruct (SimpleOrgChart.sortBy o), (SimpleOrgChart.sortDirection o); simpl.
  - by destruct (String.compare _ _).
  - by destruct (String.compare _ _).
  - by destruct (Z.compare _ _).
  - by destruct (Z.compare (id a) (id b)).
Qed.

Lemma simpleBase_antisym f a b : simpleBase f a b = CompOpp (simpleBase f b a).
Proof.
  destruct f; simpl; [|apply Z.compare_antisym].
  rewrite (String.compare_antisym (lname b) (lname a)), (Z.compare_antisym (id b) (id a)).
  by destruct (String.compare (lname a) (lname b)).
Qed.

Lemma simpleBase_trans f a b c :
  simpleBase f a b = Lt -> simpleBase f b c = Lt -> simpleBase f a c = Lt.
Proof.
  destruct f; simpl; [|rewrite !Z.compare_lt_iff; lia].
  destruct (String.compare (lname a) (lname b)) eqn:E1;
    destruct (String.compare (lname b) (lname c)) eqn:E2; try done.
  - apply String.compare_eq_iff in E1, E2. rewrite E1, E2, string_compare_refl.
    rewrite !Z.compare_lt_iff. lia.
  - apply String.compare_eq_iff in E1. by rewrite E1, E2.
  - apply String.compare_eq_iff in E2. by rewrite <- E2, E1.
  - by rewrite (string_compare_trans _ _ _ E1 E2).
Qed.

Lemma simpleBase_eq f a b c : simpleBase f a b = Eq -> simpleBase f a c = simpleBase f b c.
Proof.
  destruct f; simpl.
  - destruct (String.compare (lname a) (lname b)) eqn:E1; try done.
    apply String.compare_eq_iff in E1. intros E2%Z.compare_eq_iff. by rewrite E1, E2.
  - by intros ->%Z.compare_eq_iff.
Qed.

Lemma simple_sortNodes_idempotent o nodes :
  SimpleOrgChart.sortNodes o (SimpleOrgChart.sortNodes o nodes)
  = SimpleOrgChart.sortNodes o nodes.
Proof.
  unfold SimpleOrgChart.sortNodes. apply sortForest_idempotent.
  - intros a b. rewrite !simple_compare_oriented, (simpleBase_antisym _ a b).
    destruct (SimpleOrgChart.sortDirection o); simpl; [done|].
    by destruct (simpleBase _ b a).
  - intros a b c. rewrite !simple_compare_oriented.
    destruct (SimpleOrgChart.sortDirection o); simpl; [apply simpleBase_trans|].
    rewrite (simpleBase_antisym _ a b), (simpleBase_antisym _ b c),
      (simpleBase_antisym _ a c).
    intros H1 H2. rewrite (simpleBase_trans _ c b a); [done|..].
    + by destruct (simpleBase _ c b).
    + by destruct (simpleBase _ b a).
  - intros a b c. rewrite !simple_compare_oriented.
    destruct (SimpleOrgChart.sortDirection o); simpl.
    + apply simpleBase_eq.
    + intros H. f_equal. apply simpleBase_eq. by destruct (simpleBase _ a b).
Qed.

(** The source sorts a sibling list first and then recurses into the
    children of the sorted nodes; as the comparator reads only the label,
    that is the same as sorting the recursively sorted nodes. *)
Lemma sortForest_source_order cmp nodes :
  (forall a a' b b', label a = label a' -> label b = label b' -> cmp a b = cmp a' b') ->
  sortForest cmp nodes = map (sortNode cmp) (js_sort cmp nodes).
Proof.
  intros Hl. unfold sortForest. apply js_sort_map.
  intros a b. apply Hl; apply sortNode_label.
Qed.

(** ** C7 *)




(* ------------------------------------------------------------------ *)
(** * Ids of a forest                                                  *)
(* ------------------------------------------------------------------ *)

Lemma elem_of_flat_map {A B} (f : A -> list B) (l : list A) (x : B) :
  x ∈ flat_map f l <-> exists y, y ∈ l /\ x ∈ f y.
Proof.
  rewrite list_elem_of_In, in_flat_map. setoid_rewrite list_elem_of_In. done.
Qed.

Lemma node_ids_eq n : node_ids n = id n :: sub_ids n.
Proof. by destruct n. Qed.

Lemma forest_ids_cons n l : forest_ids (n :: l) = id n :: sub_ids n ++ forest_ids l.
Proof. unfold forest_ids. simpl. by rewrite node_ids_eq. Qed.

Lemma forest_ids_app l1 l2 : forest_ids (l1 ++ l2) = forest_ids l1 ++ forest_ids l2.
Proof. apply flat_map_app. Qed.

Lemma touched_cons n l : touched (n :: l) = sub_ids n ++ touched l.
Proof. reflexivity. Qed.

Lemma elem_of_forest_ids j nodes :
  j ∈ forest_ids nodes <-> exists n, n ∈ nodes /\ (j = id n \/ j ∈ sub_ids n).
Proof.
  unfold forest_ids. rewrite elem_of_flat_map.
  split; intros (n & Hn & Hj); exists n; (split; [done|]);
    rewrite node_ids_eq, elem_of_cons in *; done.
Qed.

Lemma forest_ids_perm nodes : forest_ids nodes ≡ₚ (id <$> nodes) ++ touched nodes.
Proof.
  induction nodes as [|n nodes IH]; [done|].
  rewrite forest_ids_cons, touched_cons, fmap_cons. simpl. f_equiv.
  rewrite IH. rewrite !app_assoc. f_equiv. apply Permutation_app_comm.
Qed.

(* ------------------------------------------------------------------ *)
(** * Same-level collision adjustment                                  *)
(* ------------------------------------------------------------------ *)

Section Collision.
Import SimpleOrgChart.
Context (o : options) (e : gmap Z bool).

Lemma adjustSubtreePositions_eq i nm ch adj pos :
  adjustSubtreePositions e (TNode i nm ch) adj pos =
  if isExpanded e i then
    fold_left
      (fun p child =>
         match p !! id child with
         | Some _ => adjustSubtreePositions e child adj (alter (shiftX adj) (id child) p)
         | None => p
         end) ch pos
  else pos.
Proof. destruct ch; simpl; by destruct (isExpanded e i). Qed.

(** A subtree shift changes positions of proper descendants only and keeps
    the set of positioned ids. *)
Lemma adjustSubtreePositions_lookup n adj pos j :
  (j ∉ sub_ids n -> adjustSubtreePositions e n adj pos !! j = pos !! j) /\
  (is_Some (adjustSubtreePositions e n adj pos !! j) <-> is_Some (pos !! j)).
Proof.
  revert pos. induction n as [i nm ch IH] using tnode_forall_ind. intros pos.
  rewrite adjustSubtreePositions_eq. destruct (isExpanded e i); [|done].
  unfold sub_ids. cbn [children].
  revert pos. induction IH as [|c ch Hc _ IHch]; intros pos; cbn [fold_left]; [done|].
  rewrite forest_ids_cons.
  destruct (pos !! id c) as [p|] eqn:Ep.
  - destruct (IHch (adjustSubtreePositions e c adj (alter (shiftX adj) (id c) pos)))
      as [IH1 IH2].
    destruct (Hc (alter (shiftX adj) (id c) pos)) as [Hc1 Hc2]. split.
    + rewrite not_elem_of_cons, not_elem_of_app. intros (Hj1 & Hj2 & Hj3).
      rewrite IH1, Hc1 by done. by rewrite lookup_alter_ne.
    + by rewrite IH2, Hc2, lookup_alter_is_Some.
  - destruct (IHch pos) as [IH1 IH2]. split; [|done].
    rewrite not_elem_of_cons, not_elem_of_app. intros (Hj1 & Hj2 & Hj3). by apply IH1.
Qed.

Lemma xOf_ext pos pos' j : pos' !! j = pos !! j -> xOf pos' j = xOf pos j.
Proof. unfold xOf. by intros ->. Qed.

Lemma xOf_shift pos adj j :
  is_Some (pos !! j) -> xOf (alter (shiftX adj) j pos) j = (xOf pos j + adj)%Q.
Proof. intros [p Hp]. unfold xOf. by rewrite lookup_alter_eq, Hp. Qed.

Lemma shiftFrom_frame adj nodes pos j :
  j ∉ id <$> nodes -> j ∉ touched nodes -> shiftFrom e adj nodes pos !! j = pos !! j.
Proof.
  unfold shiftFrom. revert pos.
  induction nodes as [|n nodes IH]; intros pos; cbn [fold_left]; [done|].
  rewrite fmap_cons, touched_cons, not_elem_of_cons, not_elem_of_app.
  intros [Hj1 Hj2] [Hj3 Hj4]. rewrite IH by done.
  destruct (adjustSubtreePositions_lookup n adj (alter (shiftX adj) (id n) pos) j) as [-> _];
    [|done]. by rewrite lookup_alter_ne.
Qed.

Lemma shiftFrom_dom adj nodes pos j :
  is_Some (shiftFrom e adj nodes pos !! j) <-> is_Some (pos !! j).
Proof.
  unfold shiftFrom. revert pos.
  induction nodes as [|n nodes IH]; intros pos; cbn [fold_left]; [done|].
  rewrite IH.
  destruct (adjustSubtreePositions_lookup n adj (alter (shiftX adj) (id n) pos) j) as [_ ->].
  by rewrite lookup_alter_is_Some.
Qed.

(** Every node of the shifted list moves by exactly [adj]. *)
Lemma shiftFrom_shift adj nodes pos n :
  NoDup (id <$> nodes) ->
  (forall a, a ∈ nodes -> id a ∉ touched nodes) ->
  (forall a, a ∈ nodes -> is_Some (pos !! id a)) ->
  n ∈ nodes ->
  xOf (shiftFrom e adj nodes pos) (id n) = (xOf pos (id n) + adj)%Q.
Proof.
  unfold shiftFrom. revert pos.
  induction nodes as [|a nodes IH]; intros pos Hnd Ht Hpos Hn; cbn [fold_left].
  { by apply elem_of_nil in Hn. }
  rewrite fmap_cons in Hnd. apply NoDup_cons in Hnd as [Ha Hnd].
  set (pos1 := adjustSubtreePositions e a adj (alter (shiftX adj) (id a) pos)).
  assert (forall b, b ∈ (a :: nodes) -> (id b ∉ sub_ids a) /\ (id b ∉ touched nodes)) as Ht'.
  { intros b Hb. specialize (Ht b Hb). by rewrite touched_cons, not_elem_of_app in Ht. }
  apply elem_of_cons in Hn as [->|Hn].
  - fold (shiftFrom e adj nodes pos1). rewrite (xOf_ext pos1).
    2:{ apply shiftFrom_frame; [done|]. apply Ht'. left. }
    unfold pos1. rewrite (xOf_ext (alter (shiftX adj) (id a) pos)).
    2:{ apply adjustSubtreePositions_lookup. apply Ht'. left. }
    apply xOf_shift, Hpos. left.
  - rewrite IH; [|done| | |done].
    + f_equal. unfold pos1. rewrite (xOf_ext (alter (shiftX adj) (id a) pos)).
      2:{ apply adjustSubtreePositions_lookup. apply Ht'. by right. }
      apply xOf_ext, lookup_alter_ne. intros E. apply Ha. rewrite E.
      apply list_elem_of_fmap. eauto.
    + intros b Hb. apply Ht'. by right.
    + intros b Hb. unfold pos1.
      apply adjustSubtreePositions_lookup, lookup_alter_is_Some, Hpos. by right.
Qed.

(** ** Sorting a level by x *)

Lemma compareX_le pos a b : compareX pos a b <> Gt <-> notRightOf pos a b.
Proof.
  unfold compareX, notRightOf. rewrite <- Qle_alt. split; intros H; lra.
Qed.

Lemma js_sort_by_x pos nodes :
  StronglySorted (notRightOf pos) (js_sort (compareX pos) nodes).
Proof.
  apply (StronglySorted_weaken (fun a b => compareX pos a b <> Gt)).
  { intros a b. apply compareX_le. }
  apply js_sort_sorted_le.
  - intros a b Hab. rewrite compareX_le.
    assert (~ notRightOf pos a b) as H by (rewrite <- compareX_le; tauto).
    unfold notRightOf in *. lra.
  - intros a b c. rewrite !compareX_le. unfold notRightOf. lra.
Qed.

Lemma StronglySorted_restrict {A} (R R' : A -> A -> Prop) l :
  (forall a b, a ∈ l -> b ∈ l -> R a b -> R' a b) ->
  StronglySorted R l -> StronglySorted R' l.
Proof.
  intros HR Hs. induction Hs as [|a l Hs IH Ha]; constructor.
  - apply IH. intros b c Hb Hc. apply HR; by right.
  - rewrite Forall_forall in Ha |- *. intros b Hb. apply HR; [left|by right|by apply Ha].
Qed.

Lemma StronglySorted_lookup {A} (R : A -> A -> Prop) l i j a b :
  StronglySorted R l -> (i < j)%nat -> l !! i = Some a -> l !! j = Some b -> R a b.
Proof.
  intros Hs. revert i j. induction Hs as [|c l Hs IH Hc]; intros i j Hij Hi Hj.
  - done.
  - destruct j as [|j]; [lia|]. destruct i as [|i]; simpl in *.
    + injection Hi as ->. rewrite Forall_forall in Hc.
      apply Hc. by eapply list_elem_of_lookup_2.
    + eapply IH; [|done..]. lia.
Qed.

Lemma touched_elem j nodes :
  j ∈ touched nodes <-> exists n, n ∈ nodes /\ j ∈ sub_ids n.
Proof. apply elem_of_flat_map. Qed.

(** ** One level *)

Lemma scanLevel_spec rest : forall prev pos,
  NoDup (id <$> prev :: rest) ->
  (forall a, a ∈ (prev :: rest) -> id a ∉ touched (prev :: rest)) ->
  (forall a, a ∈ (prev :: rest) -> is_Some (pos !! id a)) ->
  StronglySorted (notRightOf pos) (prev :: rest) ->
  (forall j, j ∉ id <$> rest -> j ∉ touched rest ->
     scanLevel o e prev rest pos !! j = pos !! j) /\
  (forall j, is_Some (scanLevel o e prev rest pos !! j) <-> is_Some (pos !! j)) /\
  StronglySorted (gapOk o (scanLevel o e prev rest pos)) (prev :: rest).
Proof.
  induction rest as [|cur rest IH]; intros prev pos Hnd Ht Hpos Hs; cbn [scanLevel].
  { split; [done|]. split; [done|]. repeat constructor. }
  set (minD := (nodeWidth o + horizontalSpacing o)%Q).
  set (d := (xOf pos (id cur) - xOf pos (id prev))%Q).
  set (pos1 := if Qlt_le_dec d minD
               then shiftFrom e (minD - d) (cur :: rest) pos else pos).
  rewrite fmap_cons in Hnd. apply NoDup_cons in Hnd as [Hprev Hnd].
  assert (forall a, a ∈ (cur :: rest) -> id a ∉ touched (cur :: rest)) as Ht1.
  { intros a Ha. specialize (Ht a (list_elem_of_further _ _ _ Ha)).
    rewrite touched_cons, not_elem_of_app in Ht. tauto. }
  assert (id prev ∉ touched (cur :: rest)) as Htp.
  { specialize (Ht prev (list_elem_of_here _ _)).
    rewrite touched_cons, not_elem_of_app in Ht. tauto. }
  assert (forall a, a ∈ (cur :: rest) -> is_Some (pos !! id a)) as Hpos1
    by (intros a Ha; apply Hpos; by right).
  apply StronglySorted_inv in Hs as [Hs Hprevle].
  assert (0 <= d)%Q as Hd.
  { apply Forall_cons in Hprevle as [H _]. unfold notRightOf in H. unfold d. lra. }
  (* what the possible shift does *)
  assert (forall j, j ∉ id <$> cur :: rest -> j ∉ touched (cur :: rest) ->
            pos1 !! j = pos !! j) as Hframe1.
  { intros j Hj1 Hj2. unfold pos1. destruct (Qlt_le_dec d minD); [|done].
    by apply shiftFrom_frame. }
  assert (forall j, is_Some (pos1 !! j) <-> is_Some (pos !! j)) as Hdom1.
  { intros j. unfold pos1. destruct (Qlt_le_dec d minD); [|done]. apply shiftFrom_dom. }
  assert (exists adj, (0 <= adj /\ minD <= d + adj)%Q /\
            forall a, a ∈ (cur :: rest) ->
              (xOf pos1 (id a) == xOf pos (id a) + adj)%Q) as (adj & [Hadj HminD] & Hshift).
  { unfold pos1. destruct (Qlt_le_dec d minD) as [Hlt|Hge].
    - exists (minD - d)%Q. split; [lra|]. intros a Ha.
      by rewrite (shiftFrom_shift (minD - d) (cur :: rest) pos a).
    - exists 0%Q. split; [lra|]. intros a Ha. lra. }
  assert (xOf pos1 (id prev) = xOf pos (id prev)) as Hprev1
    by (apply xOf_ext, Hframe1; done).
  destruct (IH cur pos1) as (Hframe2 & Hdom2 & Hgap); [done|done| | |].
  { intros a Ha. by apply Hdom1, Hpos1. }
  { eapply StronglySorted_restrict; [|exact Hs].
    intros a b Ha Hb. unfold notRightOf.
    rewrite (Hshift a Ha), (Hshift b Hb). lra. }
  apply NoDup_cons in Hnd as [Hcur Hnd].
  fold pos1. set (pos2 := scanLevel o e cur rest pos1) in *.
  split; [|split].
  - intros j Hj1 Hj2. rewrite Hframe2.
    + by apply Hframe1.
    + rewrite fmap_cons, not_elem_of_cons in Hj1. tauto.
    + rewrite touched_cons, not_elem_of_app in Hj2. tauto.
  - intros j. by rewrite Hdom2, Hdom1.
  - constructor; [done|].
    assert (gapOk o pos2 prev cur) as Hpc.
    { unfold gapOk. fold minD.
      rewrite (xOf_ext pos1 pos2 (id cur)), (xOf_ext pos1 pos2 (id prev)).
      - rewrite Hprev1, (Hshift cur (list_elem_of_here _ _)). unfold d in *. lra.
      - apply Hframe2.
        + intros Hin. apply Hprev. rewrite fmap_cons. by right.
        + rewrite touched_cons, not_elem_of_app in Htp. tauto.
      - apply Hframe2; [done|].
        specialize (Ht1 cur (list_elem_of_here _ _)).
        rewrite touched_cons, not_elem_of_app in Ht1. tauto. }
    constructor; [done|].
    apply StronglySorted_inv in Hgap as [_ Hcn].
    eapply Forall_impl; [exact Hcn|]. intros n Hn. simpl in Hn.
    unfold gapOk in *. lra.
Qed.

Lemma gapOk_apart pos a b : gapOk o pos a b -> apart o pos a b /\ apart o pos b a.
Proof.
  unfold gapOk, apart. intros [H1 H2]. split; apply Qabs_case; intros; lra.
Qed.

Lemma separated_sorted pos nodes :
  (forall a, a ∈ nodes -> is_Some (pos !! id a)) ->
  StronglySorted (gapOk o pos) nodes -> separated o pos nodes.
Proof.
  intros Hpos Hs. split; [done|]. intros i j a b Hi Hj Hij.
  destruct (decide (i < j)%nat).
  - apply (gapOk_apart pos a b). by eapply (StronglySorted_lookup _ nodes i j).
  - apply (gapOk_apart pos b a). eapply (StronglySorted_lookup _ nodes j i); [done|lia|done..].
Qed.

Lemma separated_ext pos pos' nodes :
  (forall a, a ∈ nodes -> pos' !! id a = pos !! id a) ->
  separated o pos nodes -> separated o pos' nodes.
Proof.
  intros Hext [Hpos Hsep]. split.
  - intros a Ha. rewrite Hext by done. by apply Hpos.
  - intros i j a b Hi Hj Hij. specialize (Hsep i j a b Hi Hj Hij).
    unfold apart in *.
    rewrite (xOf_ext pos pos' (id a)), (xOf_ext pos pos' (id b)); [done|..];
      apply Hext; by eapply list_elem_of_lookup_2.
Qed.

Lemma adjustLevel_spec nodes pos :
  NoDup (id <$> nodes) ->
  (forall a, a ∈ nodes -> id a ∉ touched nodes) ->
  (forall a, a ∈ nodes -> is_Some (pos !! id a)) ->
  (adjustLevel o e nodes pos).1 ≡ₚ nodes /\
  (forall j, j ∉ id <$> nodes -> j ∉ touched nodes ->
     (adjustLevel o e nodes pos).2 !! j = pos !! j) /\
  (forall j, is_Some ((adjustLevel o e nodes pos).2 !! j) <-> is_Some (pos !! j)) /\
  separated o (adjustLevel o e nodes pos).2 (adjustLevel o e nodes pos).1.
Proof.
  intros Hnd Ht Hpos.
  destruct nodes as [|a0 [|b0 nodes0]].
  - simpl. repeat split; try done; intros a Ha; by apply elem_of_nil in Ha.
  - simpl. repeat split; try done;
      intros [|i] [|j] a b Hi Hj Hij; simpl in *; done.
  - assert (adjustLevel o e (a0 :: b0 :: nodes0) pos =
            let sorted := js_sort (compareX pos) (a0 :: b0 :: nodes0) in
            match sorted with
            | [] => (sorted, pos)
            | first :: rest => (sorted, scanLevel o e first rest pos)
            end) as -> by reflexivity.
    cbv zeta. remember (a0 :: b0 :: nodes0) as nodes eqn:Enodes.
    pose proof (js_sort_perm (compareX pos) nodes) as Hperm.
    pose proof (js_sort_by_x pos nodes) as Hsorted.
    destruct (js_sort (compareX pos) nodes) as [|first rest] eqn:E.
    { subst nodes. symmetry in Hperm. by apply Permutation_nil_r in Hperm. }
    clear Enodes.
    assert (forall j, j ∈ touched (first :: rest) <-> j ∈ touched nodes) as Htouch.
    { intros j. rewrite !touched_elem. by setoid_rewrite Hperm. }
    destruct (scanLevel_spec rest first pos) as (Hframe & Hdom & Hgap).
    + by rewrite Hperm.
    + intros a Ha. rewrite Htouch. apply Ht. by rewrite <- Hperm.
    + intros a Ha. apply Hpos. by rewrite <- Hperm.
    + done.
    + simpl. split; [done|]. split; [|split; [done|]].
      * intros j Hj1 Hj2. apply Hframe.
        -- intros Hin. apply Hj1. rewrite <- Hperm, fmap_cons. by right.
        -- intros Hin. apply Hj2, Htouch. rewrite touched_cons, elem_of_app. by right.
      * apply separated_sorted; [|done].
        intros a Ha. apply Hdom, Hpos. by rewrite <- Hperm.
Qed.

(** ** All levels *)

Lemma forest_ids_split j nodes :
  j ∈ forest_ids nodes <-> j ∈ id <$> nodes \/ j ∈ touched nodes.
Proof. by rewrite forest_ids_perm, elem_of_app. Qed.

Lemma adjustLevels_spec levels : forall pos,
  levelsGood levels ->
  (forall nodes a, nodes ∈ levels -> a ∈ nodes -> is_Some (pos !! id a)) ->
  Forall2 Permutation (adjustLevels o e levels pos).1 levels /\
  (forall j, j ∉ flat_map forest_ids levels ->
     (adjustLevels o e levels pos).2 !! j = pos !! j) /\
  (forall j, is_Some ((adjustLevels o e levels pos).2 !! j) <-> is_Some (pos !! j)) /\
  Forall (separated o (adjustLevels o e levels pos).2) (adjustLevels o e levels pos).1.
Proof.
  induction levels as [|nodes more IH]; intros pos Hgood Hpos; cbn [adjustLevels].
  { simpl. repeat split; try done; constructor. }
  destruct Hgood as (Hnd & Hdisj & Hgood).
  destruct (adjustLevel_spec nodes pos) as (Hperm1 & Hframe1 & Hdom1 & Hsep1).
  { done. }
  { intros a Ha. by apply Hdisj. }
  { intros a Ha. apply (Hpos nodes); [left|done]. }
  destruct (adjustLevel o e nodes pos) as [nodes' pos1]. simpl in *.
  destruct (IH pos1) as (Hperm2 & Hframe2 & Hdom2 & Hsep2).
  { done. }
  { intros l a Hl Ha. apply Hdom1, (Hpos l); [by right|done]. }
  destruct (adjustLevels o e more pos1) as [more' pos2]. simpl in *.
  split; [by constructor|]. split; [|split].
  - intros j Hj. rewrite not_elem_of_app in Hj. destruct Hj as [Hj1 Hj2].
    rewrite Hframe2 by done. rewrite forest_ids_split in Hj1.
    apply Hframe1; tauto.
  - intros j. by rewrite Hdom2, Hdom1.
  - constructor; [|done].
    apply (separated_ext pos1); [|done].
    intros a Ha. apply Hframe2. apply Hdisj. by rewrite <- Hperm1.
Qed.

End Collision.

(* ------------------------------------------------------------------ *)
(** * The visible tree and the level lists                             *)
(* ------------------------------------------------------------------ *)

Section VisibleTree.
Import SimpleOrgChart.
Context (o : options) (e : gmap Z bool).

Lemma buildNodeInfo_node lvl n : node (buildNodeInfo o e lvl n) = n.
Proof. destruct n as [i nm [|c ch]]; simpl; [done|]. by destruct (isExpanded e i). Qed.

Lemma buildNodeInfo_children lvl n :
  infoChildren (buildNodeInfo o e lvl n) = map (buildNodeInfo o e (S lvl)) (vchildren e n).
Proof.
  destruct n as [i nm [|c ch]]; unfold vchildren; simpl;
    by destruct (isExpanded e i).
Qed.

Lemma firstPassNode_eq lvl ni x st :
  firstPassNode o lvl ni x st =
  match infoChildren ni with
  | [] => setPosition (id (node ni)) (x + width ni / 2)%Q lvl (pushAtLevel lvl (node ni) st)
  | _ :: _ =>
      assignXPositions o (infoChildren ni) (childrenStart o x (infoChildren ni)) (S lvl)
        (pushAtLevel lvl (node ni) st)
  end.
Proof. destruct ni as [nd [|c ch] w l]; reflexivity. Qed.

Lemma visibleBelow_eq n : visibleBelow e n = n :: visibleNodes e (vchildren e n).
Proof.
  destruct n as [i nm ch]. unfold vchildren, visibleNodes. simpl.
  by destruct (isExpanded e i).
Qed.

Lemma levelBelow_nil d : levelBelow e d [] = [].
Proof. induction d as [|d IH]; simpl; done. Qed.

Lemma levelBelow_app d l1 l2 :
  levelBelow e d (l1 ++ l2) = levelBelow e d l1 ++ levelBelow e d l2.
Proof.
  revert l1 l2. induction d as [|d IH]; intros l1 l2; simpl; [done|].
  unfold nextLevel. by rewrite flat_map_app, IH.
Qed.

Lemma levelBelow_cons d n l :
  levelBelow e d (n :: l) = levelBelow e d [n] ++ levelBelow e d l.
Proof. apply (levelBelow_app d [n] l). Qed.

Lemma levelBelow_S_single d n :
  levelBelow e (S d) [n] = levelBelow e d (vchildren e n).
Proof. simpl. unfold nextLevel. simpl. by rewrite app_nil_r. Qed.

(** ** The array of level lists *)

Lemma levelAt_ensureLevel lvl a k : levelAt (ensureLevel lvl a) k = levelAt a k.
Proof.
  unfold levelAt, ensureLevel. case_decide as Hl; [done|].
  destruct (decide (k < length a)%nat).
  - by rewrite lookup_app_l.
  - rewrite lookup_app_r by lia. rewrite (lookup_ge_None_2 a) by lia. simpl.
    destruct (decide (k - length a < lvl - length a)%nat).
    + rewrite lookup_app_l by (rewrite length_replicate; lia).
      by rewrite lookup_replicate_2.
    + rewrite lookup_app_r by (rewrite length_replicate; lia).
      rewrite length_replicate.
      by destruct (k - length a - (lvl - length a))%nat as [|[|?]].
Qed.

Lemma ensureLevel_length lvl a :
  (lvl < length (ensureLevel lvl a) /\ length a <= length (ensureLevel lvl a))%nat.
Proof.
  unfold ensureLevel. case_decide; [lia|].
  rewrite !length_app, length_replicate. simpl. lia.
Qed.

Lemma levelAt_push lvl n a k :
  (lvl < length a)%nat ->
  levelAt (alter (fun l => l ++ [n]) lvl a) k =
  levelAt a k ++ (if decide (k = lvl) then [n] else []).
Proof.
  intros Hl. unfold levelAt. case_decide as Hk.
  - subst k. rewrite list_lookup_alter_eq.
    destruct (lookup_lt_is_Some_2 a lvl Hl) as [l ->]. done.
  - rewrite list_lookup_alter_ne by done. by rewrite app_nil_r.
Qed.

(** ** What [assignXPositions] records *)

Lemma secondPass_records l : forall i endX lvl st,
  let st' := secondPass o i l endX lvl st in
  nodesAtLevel st' = nodesAtLevel st /\
  (forall j, is_Some (nodePositions st !! j) -> is_Some (nodePositions st' !! j)) /\
  (forall ni, ni ∈ l -> is_Some (nodePositions st' !! id (node ni))).
Proof.
  induction l as [|ni l IH]; intros i endX lvl st; cbn [secondPass].
  { split; [done|]. split; [done|]. intros ni Hni. by apply elem_of_nil in Hni. }
  match goal with |- context [setPosition ?a ?b ?c st] => set (st1 := setPosition a b c st) end.
  destruct (IH (S i) endX lvl st1) as (Hlv & Hdom & Hset).
  cbv zeta. split; [by rewrite Hlv|]. split.
  - intros j Hj. apply Hdom. unfold st1, setPosition; simpl.
    rewrite lookup_insert_is_Some. destruct (decide (id (node ni) = j)); auto.
  - intros ni' [->|Hin]%elem_of_cons; [|by apply Hset].
    apply Hdom. unfold st1, setPosition; simpl. by rewrite lookup_insert_eq.
Qed.

Lemma firstPass_records nodes :
  Forall (recordsNode o e) nodes ->
  forall lvl x st, (lvl < length (nodesAtLevel st))%nat ->
    let st' := (firstPass o lvl (map (buildNodeInfo o e lvl) nodes) x st).1 in
    (length (nodesAtLevel st) <= length (nodesAtLevel st'))%nat /\
    (forall k, levelAt (nodesAtLevel st') k =
               levelAt (nodesAtLevel st) k ++
               (if decide (lvl <= k)%nat then levelBelow e (k - lvl) nodes else [])) /\
    (forall j, is_Some (nodePositions st !! j) -> is_Some (nodePositions st' !! j)) /\
    (forall d a, a ∈ levelBelow e (S d) nodes -> is_Some (nodePositions st' !! id a)).
Proof.
  induction 1 as [|n nodes Hn _ IH]; intros lvl x st Hlvl; cbn [map firstPass].
  { simpl. split; [done|]. split; [|split; [done|]].
    - intros k. rewrite levelBelow_nil. case_decide; by rewrite app_nil_r.
    - intros d a. rewrite levelBelow_nil. by intros ?%elem_of_nil. }
  destruct (Hn lvl x st Hlvl) as (Hlen1 & Hlv1 & Hdom1 & Hpos1).
  set (st1 := firstPassNode o lvl (buildNodeInfo o e lvl n) x st) in *.
  destruct (IH lvl (x + (width (buildNodeInfo o e lvl n) + horizontalSpacing o))%Q st1)
    as (Hlen2 & Hlv2 & Hdom2 & Hpos2); [lia|].
  cbv zeta in *. split; [lia|]. split; [|split].
  - intros k. rewrite Hlv2, Hlv1, <- app_assoc. f_equal.
    rewrite (levelBelow_cons _ n nodes). by case_decide.
  - auto.
  - intros d a. rewrite (levelBelow_cons _ n nodes), elem_of_app.
    intros [Ha|Ha]; [apply Hdom2; by eapply Hpos1|by eapply Hpos2].
Qed.

Lemma recordsForest_of_nodes nodes : Forall (recordsNode o e) nodes -> (recordsForest o e) nodes.
Proof.
  intros Hnodes lvl x st. unfold assignXPositions.
  set (st0 := withLevels (ensureLevel lvl) st).
  destruct (ensureLevel_length lvl (nodesAtLevel st)) as [Hl0 Hl0'].
  destruct (firstPass_records nodes Hnodes lvl x st0) as (Hlen1 & Hlv1 & Hdom1 & Hpos1);
    [done|].
  destruct (firstPass o lvl (map (buildNodeInfo o e lvl) nodes) x st0) as [st1 endX].
  destruct (secondPass_records (map (buildNodeInfo o e lvl) nodes) 0 endX lvl st1)
    as (Hlv2 & Hdom2 & Hset2).
  simpl in *. rewrite Hlv2. split; [lia|]. split; [lia|]. split; [|split].
  - intros k. by rewrite Hlv1, levelAt_ensureLevel.
  - auto.
  - intros [|d] a Ha.
    + simpl in Ha. rewrite <- (buildNodeInfo_node lvl a). apply Hset2.
      apply list_elem_of_In, in_map, list_elem_of_In, Ha.
    + apply Hdom2. by eapply Hpos1.
Qed.

Lemma recordsNode_all n : (recordsNode o e) n.
Proof.
  induction n as [i nm ch IH] using tnode_forall_ind.
  set (n := TNode i nm ch). intros lvl x st Hlvl.
  rewrite firstPassNode_eq, buildNodeInfo_children, buildNodeInfo_node.
  assert (forall k, levelAt (nodesAtLevel (pushAtLevel lvl n st)) k =
            levelAt (nodesAtLevel st) k ++ (if decide (k = lvl) then [n] else [])) as Hpush
    by (intros k; by apply levelAt_push).
  assert (length (nodesAtLevel (pushAtLevel lvl n st)) = length (nodesAtLevel st)) as Hplen
    by apply length_alter.
  destruct (vchildren e n) as [|c0 ch0] eqn:Ev.
  - cbn [map]. cbv zeta.
    change (nodesAtLevel (setPosition ?a ?b ?c ?s)) with (nodesAtLevel s).
    change (nodePositions (setPosition ?a ?b ?c ?s))
      with (<[a := {| x := b; level := c |}]> (nodePositions s)).
    change (nodePositions (pushAtLevel ?a ?b ?s)) with (nodePositions s).
    rewrite Hplen. split; [done|]. split; [|split].
    + intros k. rewrite (Hpush k).
      f_equal. repeat case_decide; try lia; try done.
      * replace (k - lvl)%nat with 0%nat by lia. done.
      * destruct (k - lvl)%nat as [|d] eqn:Ed; [lia|].
        by rewrite levelBelow_S_single, Ev, levelBelow_nil.
    + intros j Hj. rewrite lookup_insert_is_Some. destruct (decide (id n = j)); auto.
    + intros d a. rewrite levelBelow_S_single, Ev, levelBelow_nil. by intros ?%elem_of_nil.
  - cbn [map].
    change (buildNodeInfo o e (S lvl) c0 :: map (buildNodeInfo o e (S lvl)) ch0)
      with (map (buildNodeInfo o e (S lvl)) (c0 :: ch0)).
    rewrite <- Ev.
    assert ((recordsForest o e) (vchildren e n)) as Hch.
    { apply recordsForest_of_nodes. unfold vchildren, n. simpl.
      destruct (isExpanded e i); [done|constructor]. }
    match goal with |- context [assignXPositions o ?l ?x0 _ _] =>
      destruct (Hch (S lvl) x0 (pushAtLevel lvl n st)) as (Hlen & _ & Hlv & Hdom & Hpos)
    end.
    cbv zeta in *. split; [lia|]. split; [|split].
    + intros k. rewrite Hlv, (Hpush k), <- app_assoc. f_equal.
      repeat case_decide; try lia; try done.
      * subst k. replace (lvl - lvl)%nat with 0%nat by lia. done.
      * replace (k - lvl)%nat with (S (k - S lvl)) by lia.
        by rewrite levelBelow_S_single.
    + intros j Hj. by apply Hdom.
    + intros d a. rewrite levelBelow_S_single. apply Hpos.
Qed.

Lemma recordsForest_all nodes : (recordsForest o e) nodes.
Proof. apply recordsForest_of_nodes, Forall_forall. intros n _. apply recordsNode_all. Qed.

End VisibleTree.

(* ------------------------------------------------------------------ *)
(** * No overlap within a level                                        *)
(* ------------------------------------------------------------------ *)

Section NoOverlap.
Import SimpleOrgChart.
Context (o : options) (e : gmap Z bool).

Lemma initialLayout_levels nodes k :
  levelAt (nodesAtLevel (initialLayout o e nodes)) k = levelBelow e k nodes.
Proof.
  unfold initialLayout, buildVisibleTree. cbn [fst].
  destruct (recordsForest_all o e nodes 0%nat (horizontalSpacing o)
              {| nodesAtLevel := []; nodePositions := ∅ |}) as (_ & _ & Hlv & _).
  rewrite Hlv. rewrite decide_True by lia. rewrite Nat.sub_0_r.
  cbn [nodesAtLevel]. unfold levelAt at 1. by rewrite lookup_nil.
Qed.

Lemma initialLayout_positioned nodes d a :
  a ∈ levelBelow e d nodes ->
  is_Some (nodePositions (initialLayout o e nodes) !! id a).
Proof.
  unfold initialLayout, buildVisibleTree. cbn [fst].
  destruct (recordsForest_all o e nodes 0%nat (horizontalSpacing o)
              {| nodesAtLevel := []; nodePositions := ∅ |}) as (_ & _ & _ & _ & Hpos).
  apply Hpos.
Qed.

Lemma vchildren_sub n c : c ∈ vchildren e n -> c ∈ children n.
Proof. unfold vchildren. destruct (isExpanded e (id n)); [done|]. by intros ?%elem_of_nil. Qed.

Lemma forest_ids_nextLevel_touched nodes j :
  j ∈ forest_ids (nextLevel e nodes) -> j ∈ touched nodes.
Proof.
  unfold forest_ids, nextLevel, touched, sub_ids, forest_ids.
  rewrite !elem_of_flat_map. intros (c & (n & Hn & Hc)%elem_of_flat_map & Hj).
  exists n. split; [done|]. apply elem_of_flat_map. exists c.
  split; [by apply vchildren_sub|done].
Qed.

Lemma forest_ids_nextLevel_NoDup nodes :
  NoDup (touched nodes) -> NoDup (forest_ids (nextLevel e nodes)).
Proof.
  induction nodes as [|n nodes IH]; [done|].
  rewrite touched_cons. unfold nextLevel. cbn [flat_map].
  rewrite forest_ids_app. fold (nextLevel e nodes).
  intros (H1 & H2 & H3)%NoDup_app. apply NoDup_app. split; [|split].
  - unfold vchildren. destruct (isExpanded e (id n)); [done|constructor].
  - intros j Hj1 Hj2%forest_ids_nextLevel_touched. apply (H2 j); [|done].
    revert Hj1. unfold vchildren. destruct (isExpanded e (id n)); [done|].
    by intros ?%elem_of_nil.
  - by apply IH.
Qed.

Lemma forest_ids_levelBelow nodes k j :
  j ∈ forest_ids (levelBelow e k nodes) -> j ∈ forest_ids nodes.
Proof.
  revert nodes. induction k as [|k IH]; intros nodes; simpl; [done|].
  intros Hj%IH%forest_ids_nextLevel_touched. apply forest_ids_split. by right.
Qed.

Lemma levelsGood_of_levels levels : forall nodes,
  (forall k, levelAt levels k = levelBelow e k nodes) ->
  NoDup (forest_ids nodes) -> levelsGood levels.
Proof.
  induction levels as [|l more IH]; intros nodes Hlv Hnd; [done|].
  pose proof (Hlv 0%nat) as H0. unfold levelAt in H0. simpl in H0. subst l.
  rewrite forest_ids_perm in Hnd. apply NoDup_app in Hnd as (Hids & Hdisj & Ht).
  assert (forall k, levelAt more k = levelBelow e k (nextLevel e nodes)) as Hmore
    by (intros k; apply (Hlv (S k))).
  split; [done|]. split.
  - intros a Ha.
    assert (id a ∉ touched nodes) as Hat.
    { apply Hdisj, list_elem_of_fmap. eauto. }
    split; [done|].
    intros (l & Hl & Hj)%elem_of_flat_map. apply Hat.
    apply list_elem_of_lookup in Hl as [k Hk].
    assert (l = levelAt more k) as -> by (unfold levelAt; by rewrite Hk).
    rewrite Hmore in Hj.
    by apply forest_ids_levelBelow, forest_ids_nextLevel_touched in Hj.
  - apply (IH (nextLevel e nodes)); [done|]. by apply forest_ids_nextLevel_NoDup.
Qed.

(** No overlap for a tree with pairwise distinct ids. *)
Lemma no_overlap_distinct_ids (hierarchicalData : list tnode) (lvl : nat)
    (nodes : list tnode) :
  NoDup (forest_ids hierarchicalData) ->
  nodesAtLevel (calculateDimensions o e hierarchicalData) !! lvl = Some nodes ->
  nodes ≡ₚ levelBelow e lvl hierarchicalData /\
  separated o (nodePositions (calculateDimensions o e hierarchicalData)) nodes.
Proof.
  intros Hnd Hlook. unfold calculateDimensions in *.
  set (st := initialLayout o e hierarchicalData) in *.
  destruct (adjustLevels_spec o e (nodesAtLevel st) (nodePositions st))
    as (Hperm & _ & _ & Hsep).
  { apply (levelsGood_of_levels _ hierarchicalData); [|done].
    intros k. apply initialLayout_levels. }
  { intros l a Hl Ha. apply list_elem_of_lookup in Hl as [k Hk].
    apply (initialLayout_positioned hierarchicalData k).
    rewrite <- initialLayout_levels. fold st. unfold levelAt. by rewrite Hk. }
  destruct (adjustLevels o e (nodesAtLevel st) (nodePositions st)) as [levels pos].
  simpl in *. split.
  - destruct (Forall2_lookup_l _ _ _ _ _ Hperm Hlook) as (l & Hl & Hp).
    rewrite Hp, <- initialLayout_levels. fold st. unfold levelAt. by rewrite Hl.
  - rewrite Forall_forall in Hsep. apply Hsep. by eapply list_elem_of_lookup_2.
Qed.

End NoOverlap.

(* ------------------------------------------------------------------ *)
(** * The processed tree has pairwise distinct ids                     *)
(* ------------------------------------------------------------------ *)

Section DistinctIds.
Import SimpleOrgChart.

Lemma filterNode_eq i nm ch seen :
  filterNode (TNode i nm ch) seen =
  (TNode i nm (filterDuplicates ch seen).1, (filterDuplicates ch seen).2).
Proof.
  cbn [filterNode]. fold filterDuplicates.
  change ((fix filterDuplicates (nodes : list tnode) (seen : gset Z) {struct nodes}
             : list tnode * gset Z := _) ch seen) with (filterDuplicates ch seen).
  by destruct (filterDuplicates ch seen).
Qed.

Lemma filterDuplicates_cons c r seen :
  filterDuplicates (c :: r) seen =
  if decide (id c ∈ seen) then filterDuplicates r seen
  else
    let r1 := filterNode c ({[id c]} ∪ seen) in
    let r2 := filterDuplicates r r1.2 in
    (r1.1 :: r2.1, r2.2).
Proof.
  cbn [filterDuplicates]. case_decide; [done|].
  destruct (filterNode c ({[id c]} ∪ seen)) as [c' seen1]. simpl.
  by destruct (filterDuplicates r seen1).
Qed.

Lemma filtersForest_of_nodes nodes : Forall filtersNode nodes -> filtersForest nodes.
Proof.
  induction 1 as [|c r Hc _ IH]; intros seen.
  { simpl. split; [constructor|]. split; [by intros j ?%elem_of_nil|].
    intros j. split; [by left|]. by intros [?|?%elem_of_nil]. }
  rewrite filterDuplicates_cons. case_decide as Hseen; [apply IH|].
  destruct (Hc ({[id c]} ∪ seen)) as (Hid & Hnd1 & Hfresh1 & Hseen1).
  destruct (filterNode c ({[id c]} ∪ seen)) as [c' seen1]. cbn [fst snd] in *.
  destruct (IH seen1) as (Hnd2 & Hfresh2 & Hseen2).
  destruct (filterDuplicates r seen1) as [r' seen2]. cbv zeta. cbn [fst snd] in *.
  rewrite forest_ids_cons, Hid.
  split; [|split].
  - constructor.
    + rewrite not_elem_of_app. split.
      * intros Hin%Hfresh1. set_solver.
      * intros Hin%Hfresh2. apply Hin, Hseen1. left. set_solver.
    + apply NoDup_app. split; [done|]. split; [|done].
      intros j Hj1 Hj2%Hfresh2. apply Hj2, Hseen1. by right.
  - intros j [->|[Hj|Hj]%elem_of_app]%elem_of_cons; [done| |].
    + apply Hfresh1 in Hj. set_solver.
    + apply Hfresh2 in Hj. intros Hin. apply Hj, Hseen1. left. set_solver.
  - intros j. rewrite Hseen2, Hseen1, elem_of_cons, elem_of_app. set_solver.
Qed.

Lemma filtersNode_all n : filtersNode n.
Proof.
  induction n as [i nm ch IH] using tnode_forall_ind. intros seen.
  rewrite filterNode_eq. cbv zeta. cbn [fst snd id]. unfold sub_ids. cbn [children].
  destruct (filtersForest_of_nodes ch IH seen) as (H1 & H2 & H3). done.
Qed.

Lemma removeDuplicates_NoDup nodes : NoDup (forest_ids (removeDuplicates nodes)).
Proof.
  unfold removeDuplicates.
  apply (filtersForest_of_nodes nodes). apply Forall_forall. intros n _. apply filtersNode_all.
Qed.

(** Sorting permutes the ids. *)
Lemma forest_ids_Permutation l1 l2 : l1 ≡ₚ l2 -> forest_ids l1 ≡ₚ forest_ids l2.
Proof. intros H. unfold forest_ids. by apply Permutation_flat_map. Qed.

Lemma sortNode_ids cmp n : node_ids (sortNode cmp n) ≡ₚ node_ids n.
Proof.
  induction n as [i nm ch IH] using tnode_forall_ind.
  cbn [sortNode node_ids]. f_equiv.
  change (forest_ids (js_sort cmp (map (sortNode cmp) ch)) ≡ₚ forest_ids ch).
  rewrite (forest_ids_Permutation _ _ (js_sort_perm cmp _)).
  unfold forest_ids. induction IH as [|c ch Hc _ IHch]; [done|].
  cbn [map flat_map]. by rewrite Hc, IHch.
Qed.

Lemma sortForest_ids cmp nodes : forest_ids (sortForest cmp nodes) ≡ₚ forest_ids nodes.
Proof.
  unfold sortForest. rewrite (forest_ids_Permutation _ _ (js_sort_perm cmp _)).
  unfold forest_ids. induction nodes as [|c ch IH]; [done|].
  cbn [map flat_map]. by rewrite sortNode_ids, IH.
Qed.

Lemma hierarchicalData_NoDup o rootNodes : NoDup (forest_ids (hierarchicalData o rootNodes)).
Proof.
  unfold hierarchicalData, sortNodes. rewrite sortForest_ids. apply removeDuplicates_NoDup.
Qed.

End DistinctIds.

(* ------------------------------------------------------------------ *)
(** * Centring of parents                                              *)
(* ------------------------------------------------------------------ *)

Section Centring.
Import SimpleOrgChart.
Context (o : options) (e : gmap Z bool).

Lemma centered_ext pos pos' n :
  pos' !! id n = pos !! id n ->
  (forall c, c ∈ vchildren e n -> pos' !! id c = pos !! id c) ->
  centered e pos n -> centered e pos' n.
Proof.
  intros Hn Hc. unfold centered.
  destruct (vchildren e n) as [|c0 ch0] eqn:Ev; [done|].
  rewrite (xOf_ext pos pos' (id n)) by done.
  assert (map (fun c => xOf pos' (id c)) (c0 :: ch0)
          = map (fun c => xOf pos (id c)) (c0 :: ch0)) as ->; [|done].
  apply map_ext_in. intros c Hin%list_elem_of_In. by apply xOf_ext, Hc.
Qed.

Lemma visibleBelow_ids n a j : a ∈ visibleBelow e n -> j ∈ node_ids a -> j ∈ node_ids n.
Proof.
  revert a j. induction n as [i nm ch IH] using tnode_forall_ind. intros a j.
  cbn [visibleBelow]. intros [->|Ha]%elem_of_cons; [done|].
  destruct (isExpanded e i); [|by apply elem_of_nil in Ha].
  apply elem_of_flat_map in Ha as (c & Hc & Ha). intros Hj.
  cbn [node_ids]. right. apply elem_of_flat_map. exists c. split; [done|].
  rewrite Forall_forall in IH. by eapply IH.
Qed.

Lemma visibleNodes_ids nodes a j :
  a ∈ visibleNodes e nodes -> j ∈ node_ids a -> j ∈ forest_ids nodes.
Proof.
  intros (n & Hn & Ha)%elem_of_flat_map Hj.
  apply elem_of_flat_map. exists n. split; [done|]. by eapply visibleBelow_ids.
Qed.

Lemma vchildren_ids n c : c ∈ vchildren e n -> id c ∈ sub_ids n.
Proof.
  intros Hc%vchildren_sub. apply elem_of_flat_map. exists c. split; [done|].
  rewrite node_ids_eq. left.
Qed.

Lemma forest_ids_vchildren n j : j ∈ forest_ids (vchildren e n) -> j ∈ sub_ids n.
Proof.
  unfold vchildren, sub_ids. destruct (isExpanded e (id n)); [done|].
  by intros ?%elem_of_nil.
Qed.

Lemma node_ids_eq_app n l : node_ids n ++ l = id n :: sub_ids n ++ l.
Proof. by rewrite node_ids_eq. Qed.

(** The ids that [centered] reads at a visible node of a forest. *)
Lemma centered_reads nodes a :
  a ∈ visibleNodes e nodes ->
  id a ∈ forest_ids nodes /\ forall c, c ∈ vchildren e a -> id c ∈ forest_ids nodes.
Proof.
  intros Ha. split.
  - apply (visibleNodes_ids nodes a); [done|]. rewrite node_ids_eq. left.
  - intros c Hc%vchildren_ids. apply (visibleNodes_ids nodes a); [done|].
    rewrite node_ids_eq. by right.
Qed.

Lemma secondPass_centres nodes : forall i endX lvl st,
  NoDup (id <$> nodes) ->
  (forall n c, n ∈ nodes -> c ∈ vchildren e n -> id c ∉ id <$> nodes) ->
  let st' := secondPass o i (map (buildNodeInfo o e lvl) nodes) endX lvl st in
  (forall j, j ∉ id <$> nodes -> nodePositions st' !! j = nodePositions st !! j) /\
  (forall n, n ∈ nodes -> centered e (nodePositions st') n).
Proof.
  induction nodes as [|n nodes IH]; intros i endX lvl st Hnd Hch; cbn [map secondPass].
  { split; [done|]. by intros n ?%elem_of_nil. }
  rewrite buildNodeInfo_node, buildNodeInfo_children.
  match goal with |- context [setPosition (id n) ?v lvl st] => set (xv := v) end.
  set (st1 := setPosition (id n) xv lvl st).
  rewrite fmap_cons in Hnd. apply NoDup_cons in Hnd as [Hn Hnd].
  destruct (IH (S i) endX lvl st1) as (Hframe & Hcent); [done| |].
  { intros n' c Hn' Hc Hin. apply (Hch n' c); [by right|done|]. rewrite fmap_cons. by right. }
  cbv zeta. split.
  - intros j [Hj1 Hj2]%not_elem_of_cons. rewrite Hframe by done.
    unfold st1, setPosition; simpl. by rewrite lookup_insert_ne.
  - intros n' [->|Hn']%elem_of_cons; [|by apply Hcent].
    apply (centered_ext (nodePositions st1)).
    { by apply Hframe. }
    { intros c Hc. apply Hframe. intros Hin. apply (Hch n c); [left|done|].
      rewrite fmap_cons. by right. }
    unfold centered.
    assert (xOf (nodePositions st1) (id n) = xv) as ->.
    { unfold xOf, st1, setPosition; simpl. by rewrite lookup_insert_eq. }
    unfold xv. destruct (vchildren e n) as [|c0 ch0] eqn:Ev; [done|].
    cbn [map]. rewrite !buildNodeInfo_node.
    assert (forall l, Forall (fun c => c ∈ c0 :: ch0) l ->
              map (xOf (nodePositions st))
                (map (fun h => id (node h)) (map (buildNodeInfo o e (S lvl)) l))
              = map (fun c => xOf (nodePositions st1) (id c)) l) as Hxs.
    { induction 1 as [|c l Hc _ IHl]; [done|]. cbn [map].
      rewrite IHl, buildNodeInfo_node. f_equal. symmetry. apply xOf_ext.
      unfold st1, setPosition; simpl. apply lookup_insert_ne.
      intros E. apply (Hch n c); [left|by rewrite Ev|]. rewrite fmap_cons, E. left. }
    rewrite (Hxs ch0).
    2:{ apply Forall_forall. intros c Hc. by right. }
    assert (xOf (nodePositions st) (id c0) = xOf (nodePositions st1) (id c0)) as ->.
    { symmetry. apply xOf_ext. unfold st1, setPosition; simpl. apply lookup_insert_ne.
      intros E. apply (Hch n c0); [left|rewrite Ev; left|]. rewrite fmap_cons, E. left. }
    reflexivity.
Qed.

Lemma firstPass_centres nodes :
  Forall (centresNode o e) nodes ->
  forall lvl x st, NoDup (forest_ids nodes) ->
    let st' := (firstPass o lvl (map (buildNodeInfo o e lvl) nodes) x st).1 in
    (forall j, j ∉ forest_ids nodes -> nodePositions st' !! j = nodePositions st !! j) /\
    (forall n a, n ∈ nodes -> a ∈ visibleNodes e (vchildren e n) ->
       centered e (nodePositions st') a).
Proof.
  induction 1 as [|n nodes Hn _ IH]; intros lvl x st Hnd; cbn [map firstPass].
  { split; [done|]. by intros n a ?%elem_of_nil. }
  rewrite forest_ids_cons in Hnd. rewrite <- node_ids_eq_app in Hnd.
  apply NoDup_app in Hnd as (Hnd1 & Hdisj & Hnd2).
  destruct (Hn lvl x st Hnd1) as (Hframe1 & Hcent1).
  set (st1 := firstPassNode o lvl (buildNodeInfo o e lvl n) x st) in *.
  destruct (IH lvl (x + (width (buildNodeInfo o e lvl n) + horizontalSpacing o))%Q st1 Hnd2)
    as (Hframe2 & Hcent2).
  cbv zeta in *. split.
  - intros j Hj. rewrite forest_ids_cons, <- node_ids_eq_app, not_elem_of_app in Hj.
    destruct Hj as [Hj1 Hj2]. by rewrite Hframe2, Hframe1.
  - intros n' a [->|Hn']%elem_of_cons Ha; [|by eapply Hcent2].
    destruct (centered_reads (vchildren e n) a Ha) as [Hida Hidc].
    apply (centered_ext (nodePositions st1)); [| |by apply Hcent1].
    + apply Hframe2. intros Hin. apply (Hdisj (id a)); [|done].
      rewrite node_ids_eq. right. by apply forest_ids_vchildren.
    + intros c Hc. apply Hframe2. intros Hin. apply (Hdisj (id c)); [|done].
      rewrite node_ids_eq. right. by apply forest_ids_vchildren, Hidc.
Qed.

Lemma centresForest_of_nodes nodes : Forall (centresNode o e) nodes -> centresForest o e nodes.
Proof.
  intros Hnodes lvl x st Hnd. unfold assignXPositions.
  set (st0 := withLevels (ensureLevel lvl) st).
  destruct (firstPass_centres nodes Hnodes lvl x st0 Hnd) as (Hframe1 & Hcent1).
  destruct (firstPass o lvl (map (buildNodeInfo o e lvl) nodes) x st0) as [st1 endX].
  pose proof Hnd as Hnd'. rewrite forest_ids_perm in Hnd'.
  apply NoDup_app in Hnd' as (Hids & Hdisj & _).
  destruct (secondPass_centres nodes 0 endX lvl st1 Hids) as (Hframe2 & Hcent2).
  { intros n c Hn Hc Hin. apply (Hdisj (id c) Hin).
    apply touched_elem. exists n. split; [done|]. by apply vchildren_ids. }
  cbn [fst] in *. cbv zeta in *. split.
  - intros j Hj. rewrite forest_ids_split in Hj.
    rewrite Hframe2 by tauto. apply Hframe1. rewrite forest_ids_split. tauto.
  - intros a (n & Hn & Ha)%elem_of_flat_map.
    rewrite visibleBelow_eq in Ha. apply elem_of_cons in Ha as [->|Ha]; [by apply Hcent2|].
    destruct (centered_reads (vchildren e n) a Ha) as [Hida Hidc].
    assert (forall j, j ∈ forest_ids (vchildren e n) -> j ∉ id <$> nodes) as Hbelow.
    { intros j Hj Hin. apply (Hdisj j Hin). apply touched_elem. exists n.
      split; [done|]. by apply forest_ids_vchildren. }
    apply (centered_ext (nodePositions st1)); [| |by eapply Hcent1].
    + by apply Hframe2, Hbelow.
    + intros c Hc. by apply Hframe2, Hbelow, Hidc.
Qed.

Lemma centresNode_all n : centresNode o e n.
Proof.
  induction n as [i nm ch IH] using tnode_forall_ind.
  set (n := TNode i nm ch). intros lvl x st Hnd.
  rewrite firstPassNode_eq, buildNodeInfo_children, buildNodeInfo_node.
  destruct (vchildren e n) as [|c0 ch0] eqn:Ev.
  - cbn [map]. cbv zeta. split.
    + intros j Hj. unfold setPosition, pushAtLevel; simpl.
      apply lookup_insert_ne. intros <-. apply Hj. left.
    + by intros a ?%elem_of_nil.
  - cbn [map].
    change (buildNodeInfo o e (S lvl) c0 :: map (buildNodeInfo o e (S lvl)) ch0)
      with (map (buildNodeInfo o e (S lvl)) (c0 :: ch0)).
    rewrite <- Ev.
    assert (centresForest o e (vchildren e n)) as Hch.
    { apply centresForest_of_nodes. unfold vchildren, n. simpl.
      destruct (isExpanded e i); [done|constructor]. }
    assert (NoDup (forest_ids (vchildren e n))) as Hnd'.
    { rewrite node_ids_eq in Hnd. apply NoDup_cons in Hnd as [_ Hnd].
      unfold vchildren, sub_ids in *. destruct (isExpanded e (id n)); [done|constructor]. }
    match goal with |- context [assignXPositions o ?l ?x0 _ _] =>
      destruct (Hch (S lvl) x0 (pushAtLevel lvl n st) Hnd') as (Hframe & Hcent)
    end.
    cbv zeta in *. split; [|done].
    intros j Hj. rewrite Hframe; [done|].
    intros Hin%forest_ids_vchildren. apply Hj. rewrite node_ids_eq. by right.
Qed.

Lemma centresForest_all nodes : centresForest o e nodes.
Proof. apply centresForest_of_nodes, Forall_forall. intros n _. apply centresNode_all. Qed.

End Centring.

(* ------------------------------------------------------------------ *)
(** * The layout claims                                                *)
(* ------------------------------------------------------------------ *)

Section LayoutClaims.
Import SimpleOrgChart.

(** ** No overlap, over exact arithmetic *)

(** For every forest of processed nodes, after the duplicate filter and
    the sort of [processData], and for every expansion state: after
    [calculateDimensions] - [assignXPositions] followed by the left-to-right
    collision scan of every level - the list of a level holds the visible
    nodes of that depth, each of them has a position, and two distinct
    nodes of the list have x positions at least
    [nodeWidth + horizontalSpacing] apart.  This is the layout computed
    without rounding; the binary64 layout is treated further down. *)
Theorem no_overlap_within_level (o : options) (expandedNodes : gmap Z bool)
    (rootNodes : list tnode) (lvl : nat) (nodes : list tnode) :
  let data := hierarchicalData o rootNodes in
  nodesAtLevel (calculateDimensions o expandedNodes data) !! lvl = Some nodes ->
  nodes ≡ₚ levelBelow expandedNodes lvl data /\
  separated o (nodePositions (calculateDimensions o expandedNodes data)) nodes.
Proof.
  intros data. apply no_overlap_distinct_ids, hierarchicalData_NoDup.
Qed.

Lemma no_overlap_within_level_witness :
  let o := defaultOptions in
  let expandedNodes : gmap Z bool := {[1%Z := true; 2%Z := true]} in
  let rootNodes := [TNode 2 "Bea" [TNode 21 "Cy" []];
                    TNode 1 "Al" [TNode 12 "Eve" []; TNode 11 "Dan" []; TNode 12 "Eve" []]] in
  let nodes := [TNode 11 "Dan" []; TNode 12 "Eve" []; TNode 21 "Cy" []] in
  let data := hierarchicalData o rootNodes in
  nodesAtLevel (calculateDimensions o expandedNodes data) !! 1%nat = Some nodes /\
  separated o (nodePositions (calculateDimensions o expandedNodes data)) nodes.
Proof.
  intros o expandedNodes rootNodes nodes data.
  assert (nodesAtLevel (calculateDimensions o expandedNodes data) !! 1%nat = Some nodes)
    as H by (vm_compute; reflexivity).
  exact (conj H (proj2 (no_overlap_within_level o expandedNodes rootNodes 1 nodes H))).
Defined.

(** ** C2 *)

(** C2 at the failing input: two expanded roots, Al with the children Dan
    and Eve, Bea with the child Cy.  After the full layout the visible node
    Bea is not at the middle of the span of its visible children: the second
    loop of [assignXPositions] has put the childless nodes of level 1 too far
    to the right (the defect of C8), the collision scan then pushes Cy from
    750 to 870, and nothing re-centres its parent, which stays at 750.
    The numbers are small integers, and the binary64 run gives the same
    two positions. *)
Lemma parent_off_centre_after_collision :
  let o := defaultOptions in
  let expandedNodes : gmap Z bool := {[1%Z := true; 2%Z := true]} in
  let data := [TNode 1 "Al" [TNode 11 "Dan" []; TNode 12 "Eve" []];
               TNode 2 "Bea" [TNode 21 "Cy" []]] in
  let pos64 :=
    Binary64.nodePositions
      (Binary64.calculateDimensions Binary64.defaultOptions expandedNodes data) in
  TNode 2 "Bea" [TNode 21 "Cy" []] ∈ visibleNodes expandedNodes data /\
  ~ centered expandedNodes (nodePositions (calculateDimensions o expandedNodes data))
      (TNode 2 "Bea" [TNode 21 "Cy" []]) /\
  Binary64.xAt pos64 2 = Binary64.ofZ 750 /\
  Binary64.xAt pos64 21 = Binary64.ofZ 870.
Proof.
  intros o expandedNodes data pos64. split; [|split; [|split]].
  - vm_compute. right; right; right. left.
  - intros H. vm_compute in H. discriminate H.
  - vm_compute. reflexivity.
  - vm_compute. reflexivity.
Qed.

(** Right after [assignXPositions], before the same-level collision
    adjustment, every visible node with at least one visible child has x
    equal to (min + max) / 2 of the x positions of its visible children:
    the second loop centres every parent, and only the scan moves children
    away afterwards. *)
Theorem centered_after_assignXPositions (o : options) (expandedNodes : gmap Z bool)
    (rootNodes : list tnode) (n : tnode) :
  let data := hierarchicalData o rootNodes in
  n ∈ visibleNodes expandedNodes data ->
  centered expandedNodes (nodePositions (initialLayout o expandedNodes data)) n.
Proof.
  intros data Hn. unfold initialLayout, buildVisibleTree. cbn [fst].
  destruct (centresForest_all o expandedNodes data 0%nat (horizontalSpacing o)
              {| nodesAtLevel := []; nodePositions := ∅ |}
              (hierarchicalData_NoDup o rootNodes)) as [_ H].
  by apply H.
Qed.

Lemma centered_after_assignXPositions_witness :
  let o := defaultOptions in
  let expandedNodes : gmap Z bool := {[1%Z := true; 2%Z := true]} in
  let rootNodes := [TNode 2 "Bea" [TNode 21 "Cy" []];
                    TNode 1 "Al" [TNode 12 "Eve" []; TNode 11 "Dan" []]] in
  let data := hierarchicalData o rootNodes in
  let n := TNode 1 "Al" [TNode 11 "Dan" []; TNode 12 "Eve" []] in
  n ∈ visibleNodes expandedNodes data /\
  centered expandedNodes (nodePositions (initialLayout o expandedNodes data)) n.
Proof.
  intros o expandedNodes rootNodes data n.
  assert (n ∈ visibleNodes expandedNodes data) as H by (vm_compute; left).
  exact (conj H (centered_after_assignXPositions o expandedNodes rootNodes n H)).
Defined.

(** ** C8 *)

(** C8 at the failing input: two childless roots.  The first loop puts node
    1 at cursor + width / 2 = 60 + 90 = 150 and node 2 at 390; the second
    loop then overwrites both from the final cursor, 540 - 60 - 90 + i * 240,
    so node 1 ends at 390 and node 2 at 630. *)
Lemma childless_node_moved_by_second_pass :
  let o := defaultOptions in
  let infos := (buildVisibleTree o ∅ [TNode 1 "Al" []; TNode 2 "Bea" []] 0).1 in
  let st0 := withLevels (ensureLevel 0) {| nodesAtLevel := []; nodePositions := ∅ |} in
  let afterFirstPass := (firstPass o 0 infos (horizontalSpacing o) st0).1 in
  let final :=
    assignXPositions o infos (horizontalSpacing o) 0
      {| nodesAtLevel := []; nodePositions := ∅ |} in
  (xOf (nodePositions afterFirstPass) 1 == 150 /\
   xOf (nodePositions afterFirstPass) 2 == 390 /\
   xOf (nodePositions final) 1 == 390 /\
   xOf (nodePositions final) 2 == 630)%Q.
Proof. vm_compute. repeat split. Qed.

End LayoutClaims.

(* ------------------------------------------------------------------ *)
(** * Childless sibling lists                                          *)
(* ------------------------------------------------------------------ *)

Section Childless.
Import SimpleOrgChart.
Context (o : options) (e : gmap Z bool).

Lemma buildNodeInfo_leaf_width lvl n :
  vchildren e n = [] -> width (buildNodeInfo o e lvl n) = nodeWidth o.
Proof.
  destruct n as [i nm [|c ch]]; unfold vchildren; simpl; [done|].
  by destruct (isExpanded e i).
Qed.

Lemma index_succ i : (inject_Z (Z.of_nat (S i)) == inject_Z (Z.of_nat i) + 1)%Q.
Proof. rewrite Nat2Z.inj_succ, <- Z.add_1_r, inject_Z_plus. reflexivity. Qed.

Lemma firstPassNode_leaf lvl n x st :
  vchildren e n = [] ->
  nodePositions (firstPassNode o lvl (buildNodeInfo o e lvl n) x st)
  = <[id n := {| x := (x + nodeWidth o / 2)%Q; level := lvl |}]> (nodePositions st).
Proof.
  intros Hv. rewrite firstPassNode_eq, buildNodeInfo_children, Hv. cbn [map].
  by rewrite buildNodeInfo_node, buildNodeInfo_leaf_width.
Qed.

(** The first loop on childless nodes: node [i] gets cursor + width / 2
    with the cursor advanced [i] times. *)
Lemma firstPass_leaves lvl nodes : forall x0 st,
  NoDup (id <$> nodes) ->
  Forall (fun n => vchildren e n = []) nodes ->
  let r := firstPass o lvl (map (buildNodeInfo o e lvl) nodes) x0 st in
  (r.2 == x0 + inject_Z (Z.of_nat (length nodes)) * (nodeWidth o + horizontalSpacing o))%Q /\
  (forall j, j ∉ id <$> nodes -> nodePositions r.1 !! j = nodePositions st !! j) /\
  (forall i n, nodes !! i = Some n ->
     (xOf (nodePositions r.1) (id n)
      == x0 + inject_Z (Z.of_nat i) * (nodeWidth o + horizontalSpacing o)
         + nodeWidth o / 2)%Q).
Proof.
  induction nodes as [|n nodes IH]; intros x0 st Hnd Hleaf; cbn [map firstPass].
  { simpl. split; [ring|]. split; [done|]. intros i n H. by rewrite lookup_nil in H. }
  rewrite fmap_cons in Hnd. apply NoDup_cons in Hnd as [Hn Hnd].
  apply Forall_cons in Hleaf as [Hv Hleaf].
  rewrite (buildNodeInfo_leaf_width lvl n Hv).
  set (st1 := firstPassNode o lvl (buildNodeInfo o e lvl n) x0 st).
  destruct (IH (x0 + (nodeWidth o + horizontalSpacing o))%Q st1 Hnd Hleaf)
    as (Hend & Hframe & Hx).
  cbv zeta in *. split; [|split].
  - rewrite Hend. cbn [length]. rewrite index_succ. ring.
  - intros j [Hj1 Hj2]%not_elem_of_cons. rewrite Hframe by done.
    unfold st1. rewrite firstPassNode_leaf by done. by rewrite lookup_insert_ne.
  - intros [|i] a Ha; simpl in Ha.
    + injection Ha as <-. rewrite (xOf_ext (nodePositions st1)) by (by apply Hframe).
      unfold st1, xOf. rewrite firstPassNode_leaf by done.
      rewrite lookup_insert_eq. simpl. field.
    + rewrite (Hx i a Ha), index_succ. field.
Qed.

Lemma secondPass_frame lvl nodes : forall i0 endX st j,
  j ∉ id <$> nodes ->
  nodePositions (secondPass o i0 (map (buildNodeInfo o e lvl) nodes) endX lvl st) !! j
  = nodePositions st !! j.
Proof.
  induction nodes as [|a nodes IH]; intros i0 endX st j Hj; cbn [map secondPass]; [done|].
  rewrite fmap_cons, not_elem_of_cons in Hj. destruct Hj as [Hj1 Hj2].
  rewrite IH by done. rewrite buildNodeInfo_node.
  unfold setPosition; simpl. by rewrite lookup_insert_ne.
Qed.

(** The second loop on childless nodes: node [i] is put at
    endX - spacing - width / 2 + i * (width + spacing). *)
Lemma secondPass_leaves lvl nodes : forall i0 endX st,
  NoDup (id <$> nodes) ->
  Forall (fun n => vchildren e n = []) nodes ->
  forall i n, nodes !! i = Some n ->
    xOf (nodePositions (secondPass o i0 (map (buildNodeInfo o e lvl) nodes) endX lvl st)) (id n)
    = (endX - horizontalSpacing o - nodeWidth o / 2
       + inject_Z (Z.of_nat (i0 + i)) * (nodeWidth o + horizontalSpacing o))%Q.
Proof.
  induction nodes as [|a nodes IH]; intros i0 endX st Hnd Hleaf i n Hi.
  { by rewrite lookup_nil in Hi. }
  rewrite fmap_cons in Hnd. apply NoDup_cons in Hnd as [Ha Hnd].
  apply Forall_cons in Hleaf as [Hv Hleaf].
  cbn [map secondPass]. rewrite buildNodeInfo_children, Hv, buildNodeInfo_node. cbn [map].
  destruct i as [|i]; simpl in Hi.
  - injection Hi as <-. unfold xOf. rewrite secondPass_frame by done.
    unfold setPosition; simpl. rewrite lookup_insert_eq. simpl.
    by rewrite Nat.add_0_r.
  - rewrite (IH (S i0) endX _ Hnd Hleaf i n Hi). do 3 f_equal. lia.
Qed.

(** For a sibling list of childless nodes with pairwise distinct ids, the x
    that [assignXPositions] leaves at a node is the x of its first loop
    plus (length - 1) * (nodeWidth + horizontalSpacing): the two agree for
    a single node only (unless nodeWidth + horizontalSpacing = 0). *)
Lemma childless_siblings_shifted lvl nodes startX st i n :
  NoDup (id <$> nodes) ->
  Forall (fun n => vchildren e n = []) nodes ->
  nodes !! i = Some n ->
  let infos := map (buildNodeInfo o e lvl) nodes in
  let afterFirstPass := (firstPass o lvl infos startX (withLevels (ensureLevel lvl) st)).1 in
  let final := assignXPositions o infos startX lvl st in
  (xOf (nodePositions afterFirstPass) (id n)
   == startX + inject_Z (Z.of_nat i) * (nodeWidth o + horizontalSpacing o)
      + nodeWidth o / 2 /\
   xOf (nodePositions final) (id n)
   == xOf (nodePositions afterFirstPass) (id n)
      + (inject_Z (Z.of_nat (length nodes)) - 1) * (nodeWidth o + horizontalSpacing o))%Q.
Proof.
  intros Hnd Hleaf Hi infos afterFirstPass final.
  destruct (firstPass_leaves lvl nodes startX (withLevels (ensureLevel lvl) st) Hnd Hleaf)
    as (Hend & _ & Hx).
  specialize (Hx i n Hi). fold infos in Hend, Hx. fold afterFirstPass in Hx.
  split; [exact Hx|].
  unfold final, assignXPositions. fold infos.
  destruct (firstPass o lvl infos startX (withLevels (ensureLevel lvl) st)) as [st1 endX] eqn:E.
  unfold infos. rewrite (secondPass_leaves lvl nodes 0 endX st1 Hnd Hleaf i n Hi).
  simpl in Hend. rewrite Hx, Hend. change (0 + i)%nat with i. field.
Qed.

End Childless.

(* ------------------------------------------------------------------ *)
(** * Further properties of the tree builder                           *)
(* ------------------------------------------------------------------ *)

Section BuilderOrder.
Import Builder.

Lemma uniqueData_from_split seen data n :
  n ∈ uniqueData_from seen data ->
  exists l1 l2, data = l1 ++ n :: l2 /\ (rid n ∉ rid <$> l1) /\ rid n ∉ seen.
Proof.
  revert seen. induction data as [|node rest IH]; intros seen Hn.
  { by apply elem_of_nil in Hn. }
  cbn [uniqueData_from] in Hn. case_decide as Hseen.
  - destruct (IH _ Hn) as (l1 & l2 & -> & Hl1 & Hs).
    exists (node :: l1), l2. split; [done|]. split; [|done].
    rewrite fmap_cons, not_elem_of_cons. split; [|done].
    intros E. apply Hs. by rewrite E.
  - apply elem_of_cons in Hn as [->|Hn].
    + exists [], rest. split; [done|]. split; [|done].
      rewrite fmap_nil. apply not_elem_of_nil.
    + destruct (IH _ Hn) as (l1 & l2 & -> & Hl1 & Hs).
      exists (node :: l1), l2. split; [done|].
      rewrite fmap_cons, not_elem_of_cons. set_solver.
Qed.

Lemma uniqueData_from_ids seen data k :
  k ∈ rid <$> uniqueData_from seen data <-> (k ∈ rid <$> data) /\ k ∉ seen.
Proof.
  revert seen. induction data as [|node rest IH]; intros seen.
  { cbn. rewrite elem_of_nil. tauto. }
  cbn [uniqueData_from]. rewrite fmap_cons. case_decide as Hseen.
  - rewrite IH, elem_of_cons. split; [tauto|].
    intros [[->|?] ?]; [done|tauto].
  - rewrite fmap_cons, !elem_of_cons, IH. split.
    + intros [->|[? Hk]]; [tauto|]. split; [tauto|set_solver].
    + intros [[->|?] ?]; [tauto|].
      destruct (decide (k = rid node)) as [->|]; [tauto|]. right. set_solver.
Qed.

Lemma uniqueData_ids data k : k ∈ rid <$> uniqueData data <-> k ∈ rid <$> data.
Proof. unfold uniqueData. rewrite uniqueData_from_ids. set_solver. Qed.

Lemma start_lookup_dom data k :
  is_Some (nodeMap (start data) !! k) <-> k ∈ rid <$> data.
Proof. cbn [start nodeMap]. by rewrite firstPass_dom, uniqueData_ids. Qed.

Lemma attaches_start data n :
  attaches (nodeMap (start data)) n
  = truthy (rpid n) && bool_decide (rpid n ∈ rid <$> data).
Proof.
  unfold attaches. f_equal. apply bool_decide_ext, start_lookup_dom.
Qed.

Lemma filter_ext_in {A} (f g : A -> bool) l :
  (forall a, a ∈ l -> f a = g a) -> List.filter f l = List.filter g l.
Proof.
  induction l as [|a l IH]; intros H; [done|]. cbn.
  rewrite (H a) by left. rewrite IH; [done|]. intros b Hb. apply H. by right.
Qed.

Lemma secondPass_roots_list l : forall st,
  (forall n, n ∈ l -> is_Some (nodeMap st !! rid n)) ->
  rootNodes (secondPass l st)
  = rootNodes st ++ (rid <$> List.filter (fun n => negb (attaches (nodeMap st) n)) l).
Proof.
  induction l as [|n l IH]; intros st Hdom.
  { cbn. by rewrite app_nil_r. }
  change (secondPass (n :: l) st) with (secondPass l (attach st n)).
  rewrite IH.
  2:{ intros n' Hn'. apply attach_dom, Hdom. by right. }
  rewrite (filter_ext_in _ (fun n' => negb (attaches (nodeMap st) n'))).
  2:{ intros a _. by rewrite attach_attaches. }
  rewrite attach_eq by (apply Hdom; left).
  cbn [List.filter]. destruct (attaches (nodeMap st) n); cbn [negb rootNodes].
  - done.
  - by rewrite fmap_cons, <- app_assoc.
Qed.

Lemma secondPass_children_list l p : forall st,
  (forall n, n ∈ l -> is_Some (nodeMap st !! rid n)) ->
  children_of (nodeMap (secondPass l st)) p
  = children_of (nodeMap st) p ++
    (rid <$> List.filter
               (fun n => attaches (nodeMap st) n && bool_decide (rpid n = p)) l).
Proof.
  induction l as [|n l IH]; intros st Hdom.
  { cbn. by rewrite app_nil_r. }
  change (secondPass (n :: l) st) with (secondPass l (attach st n)).
  rewrite IH.
  2:{ intros n' Hn'. apply attach_dom, Hdom. by right. }
  rewrite (filter_ext_in _
             (fun n' => attaches (nodeMap st) n' && bool_decide (rpid n' = p))).
  2:{ intros a _. by rewrite attach_attaches. }
  rewrite attach_eq by (apply Hdom; left).
  cbn [List.filter]. destruct (attaches (nodeMap st) n) eqn:Hat; cbn [andb nodeMap].
  - rewrite children_of_alter_push.
    unfold attaches in Hat. apply andb_prop in Hat as [_ Hin].
    apply bool_decide_eq_true in Hin.
    case_bool_decide as Hp; case_decide as Hp'; try congruence.
    + subst p.
      assert (is_Some (alter (set_level
                (default 0%Z (level_of (nodeMap st) (rpid n)) + 1)) (rid n)
                (nodeMap st) !! rpid n)) as [pn Hpn].
      { by apply lookup_alter_is_Some. }
      rewrite Hpn, children_of_alter_level, fmap_cons, <- app_assoc. done.
    + by rewrite children_of_alter_level.
  - by rewrite children_of_alter_level.
Qed.

Lemma NoDup_fmap_filter {A B} `{EqDecision B} (f : A -> B) (g : A -> bool) l :
  NoDup (f <$> l) -> NoDup (f <$> List.filter g l).
Proof.
  induction l as [|a l IH]; [done|].
  rewrite fmap_cons, NoDup_cons. intros [Ha Hl]. cbn.
  destruct (g a); [|by apply IH].
  rewrite fmap_cons, NoDup_cons. split; [|by apply IH].
  intros Hin. apply Ha.
  apply list_elem_of_fmap in Hin as (b & -> & Hb).
  apply list_elem_of_fmap. exists b. split; [done|].
  apply list_elem_of_In, filter_In in Hb as [Hb _]. by apply list_elem_of_In.
Qed.

Lemma processData_roots_list data :
  rootNodes (processData data)
  = rid <$> List.filter (fun n => negb (attaches (nodeMap (start data)) n))
                        (uniqueData data).
Proof.
  unfold processData. rewrite secondPass_roots_list by apply start_dom. done.
Qed.

Lemma processData_children_list data p :
  children_of (nodeMap (processData data)) p
  = rid <$> List.filter
              (fun n => attaches (nodeMap (start data)) n && bool_decide (rpid n = p))
              (uniqueData data).
Proof.
  unfold processData. rewrite secondPass_children_list by apply start_dom.
  by rewrite start_children.
Qed.

Lemma alter_node_rec (f : pnode -> pnode) j (m : gmap jsval pnode) k pn' :
  (forall q, node_rec (f q) = node_rec q) ->
  alter f j m !! k = Some pn' ->
  exists pn, m !! k = Some pn /\ node_rec pn' = node_rec pn.
Proof.
  intros Hf. destruct (decide (j = k)) as [->|Hne].
  - rewrite lookup_alter_eq. destruct (m !! k) as [pn|] eqn:E; cbn; [|done].
    intros [= <-]. eauto.
  - rewrite lookup_alter_ne by done. eauto.
Qed.

Lemma attach_node_rec st node k pn' :
  nodeMap (attach st node) !! k = Some pn' ->
  exists pn, nodeMap st !! k = Some pn /\ node_rec pn' = node_rec pn.
Proof.
  unfold attach. destruct (nodeMap st !! rid node) eqn:E; [|by eauto].
  destruct (truthy (rpid node) && bool_decide (is_Some (nodeMap st !! rpid node))).
  - destruct (nodeMap st !! rpid node) as [parentNode|] eqn:Ep; [|by eauto].
    cbn [nodeMap]. intros H.
    apply alter_node_rec in H as (pn1 & H & E1); [|done].
    apply alter_node_rec in H as (pn2 & H & E2); [|done].
    exists pn2. split; [done|]. congruence.
  - cbn [nodeMap]. intros H.
    apply alter_node_rec in H as (pn1 & H & E1); [|done]. eauto.
Qed.

Lemma secondPass_node_rec l : forall st k pn',
  nodeMap (secondPass l st) !! k = Some pn' ->
  exists pn, nodeMap st !! k = Some pn /\ node_rec pn' = node_rec pn.
Proof.
  induction l as [|n l IH]; intros st k pn' H; [by eauto|].
  change (secondPass (n :: l) st) with (secondPass l (attach st n)) in H.
  apply IH in H as (pn1 & H & E1).
  apply attach_node_rec in H as (pn & H & E2).
  exists pn. split; [done|]. congruence.
Qed.

Lemma firstPass_node_rec uniq k pn :
  firstPass uniq !! k = Some pn -> (node_rec pn ∈ uniq) /\ rid (node_rec pn) = k.
Proof.
  unfold firstPass.
  assert (forall (m : gmap jsval pnode),
    fold_left (fun nodeMap node =>
       <[rid node := {| node_rec := node; children := []; level := 0 |}]> nodeMap)
      uniq m !! k = Some pn ->
    m !! k = Some pn \/ ((node_rec pn ∈ uniq) /\ rid (node_rec pn) = k)) as H.
  { induction uniq as [|n l IH]; intros m Hm; [by left|].
    cbn [fold_left] in Hm. apply IH in Hm as [Hm|[Hin Hk]].
    - destruct (decide (rid n = k)) as [<-|Hne].
      + rewrite lookup_insert_eq in Hm. injection Hm as <-. right. cbn.
        split; [by left|done].
      + rewrite lookup_insert_ne in Hm by done. by left.
    - right. split; [by right|done]. }
  intros Hk. apply H in Hk as [Hk|Hk]; [|done]. by rewrite lookup_empty in Hk.
Qed.

(** X1 (processData, duplicate removal on the input): of the records that
    share an id, processData keeps the first one.  The kept records have
    pairwise distinct ids, every id of the input is kept, and before a kept
    record no record of the input has its id. *)
Theorem uniqueData_keeps_first_record (data : list record) :
  NoDup (rid <$> uniqueData data) /\
  (forall k, k ∈ rid <$> uniqueData data <-> k ∈ rid <$> data) /\
  (forall n, n ∈ uniqueData data ->
     exists l1 l2, data = l1 ++ n :: l2 /\ rid n ∉ rid <$> l1).
Proof.
  split; [apply uniqueData_NoDup|]. split; [apply uniqueData_ids|].
  intros n Hn. apply uniqueData_from_split in Hn as (l1 & l2 & ? & ? & _). eauto.
Qed.

Lemma uniqueData_keeps_first_record_witness :
  let data := [Rec (JNum 1) JUndef; Rec (JNum 2) (JNum 1); Rec (JNum 1) (JNum 2)] in
  let node := Rec (JNum 2) (JNum 1) in
  (node ∈ uniqueData data) /\
  exists l1 l2, data = l1 ++ node :: l2 /\ rid node ∉ rid <$> l1.
Proof.
  intros data node.
  assert (node ∈ uniqueData data) as Hin by (vm_compute; right; left).
  exact (conj Hin (proj2 (proj2 (uniqueData_keeps_first_record data)) node Hin)).
Defined.

(** X2 (processData, the node map): after processData the map holds exactly
    the ids of the input, and the node stored under an id is built from the
    first input record with that id. *)
Theorem nodeMap_holds_first_records (data : list record) (k : jsval) :
  (is_Some (nodeMap (processData data) !! k) <-> k ∈ rid <$> data) /\
  (forall pn, nodeMap (processData data) !! k = Some pn ->
     rid (node_rec pn) = k /\
     exists l1 l2, data = l1 ++ node_rec pn :: l2 /\ k ∉ rid <$> l1).
Proof.
  split.
  { unfold processData. rewrite secondPass_dom. apply start_lookup_dom. }
  intros pn Hpn. unfold processData in Hpn.
  apply secondPass_node_rec in Hpn as (pn0 & Hpn0 & ->).
  cbn [start nodeMap] in Hpn0. apply firstPass_node_rec in Hpn0 as [Hin Hk].
  split; [done|].
  apply uniqueData_from_split in Hin as (l1 & l2 & ? & ? & _).
  exists l1, l2. by rewrite <- Hk.
Qed.

Lemma nodeMap_holds_first_records_witness :
  let data := [Rec (JNum 1) JUndef; Rec (JNum 2) (JNum 1); Rec (JNum 1) (JNum 2)] in
  let pn := {| node_rec := Rec (JNum 1) JUndef; children := [JNum 2]; level := 0 |} in
  nodeMap (processData data) !! JNum 1 = Some pn /\
  rid (node_rec pn) = JNum 1 /\
  exists l1 l2, data = l1 ++ node_rec pn :: l2 /\ JNum 1 ∉ rid <$> l1.
Proof.
  intros data pn.
  assert (nodeMap (processData data) !! JNum 1 = Some pn) as H
    by (vm_compute; reflexivity).
  exact (conj H (proj2 (nodeMap_holds_first_records data (JNum 1)) pn H)).
Defined.

(** X3 (processData, second pass): the roots and the children of every node
    are listed in input order.  rootNodes is the list of the kept records
    that have a falsy pid or a pid that is no id of the input; the children
    of p are the kept records with a truthy pid equal to p, when p is an id
    of the input. *)
Theorem processData_keeps_input_order (data : list record) :
  rootNodes (processData data)
  = rid <$> List.filter
              (fun n => negb (truthy (rpid n) && bool_decide (rpid n ∈ rid <$> data)))
              (uniqueData data) /\
  forall p,
    children_of (nodeMap (processData data)) p
    = rid <$> List.filter
                (fun n => truthy (rpid n) && bool_decide (rpid n ∈ rid <$> data)
                          && bool_decide (rpid n = p))
                (uniqueData data).
Proof.
  split.
  - rewrite processData_roots_list. f_equal. apply filter_ext_in.
    intros n _. by rewrite attaches_start.
  - intros p. rewrite processData_children_list. f_equal. apply filter_ext_in.
    intros n _. by rewrite attaches_start.
Qed.

(** X4 (processData, second pass): every kept record is placed exactly once.
    rootNodes and every children array are free of repetitions, a node is
    the child of at most one node, a root is the child of none, and every
    kept record is a root or somebody's child. *)
Theorem every_record_placed_once (data : list record) :
  let m := nodeMap (processData data) in
  NoDup (rootNodes (processData data)) /\
  (forall p, NoDup (children_of m p)) /\
  (forall p1 p2 c, child_of m p1 c -> child_of m p2 c -> p1 = p2) /\
  (forall r p, r ∈ rootNodes (processData data) -> ~ child_of m p r) /\
  (forall n, n ∈ uniqueData data ->
     rid n ∈ rootNodes (processData data) \/ child_of m (rpid n) (rid n)).
Proof.
  cbn zeta. split.
  { rewrite processData_roots_list. apply NoDup_fmap_filter, uniqueData_NoDup. }
  split.
  { intros p. rewrite processData_children_list.
    apply NoDup_fmap_filter, uniqueData_NoDup. }
  split; [apply parent_unique|]. split.
  { intros r p Hr. by apply root_no_parent. }
  intros n Hn. destruct (attaches (nodeMap (start data)) n) eqn:Hat.
  - right. apply processData_children. eauto.
  - left. apply processData_roots. eauto.
Qed.

Lemma every_record_placed_once_witness :
  let data := [Rec (JNum 1) JUndef; Rec (JNum 2) (JNum 1); Rec (JNum 1) (JNum 2)] in
  let node := Rec (JNum 2) (JNum 1) in
  (node ∈ uniqueData data) /\
  (rid node ∈ rootNodes (processData data) \/
   child_of (nodeMap (processData data)) (rpid node) (rid node)).
Proof.
  intros data node.
  assert (node ∈ uniqueData data) as Hin by (vm_compute; right; left).
  destruct (every_record_placed_once data) as (_ & _ & _ & _ & H).
  exact (conj Hin (H node Hin)).
Defined.

(** X5 (processData, missing parent): a kept record whose pid is the id of
    no input record becomes a root of level 0 and is nobody's child, even
    though its pid is truthy. *)
Theorem unknown_parent_is_root (data : list record) (node : record) :
  node ∈ uniqueData data ->
  rpid node ∉ rid <$> data ->
  rid node ∈ rootNodes (processData data) /\
  level_of (nodeMap (processData data)) (rid node) = Some 0%Z /\
  forall p, ~ child_of (nodeMap (processData data)) p (rid node).
Proof.
  intros Hn Hpid.
  assert (attaches (nodeMap (start data)) node = false) as Hat.
  { rewrite attaches_start. rewrite (bool_decide_eq_false_2 _ Hpid).
    apply andb_false_r. }
  split; [apply processData_roots; eauto|].
  split; [by apply processData_level_root|].
  intros p Hp. apply processData_children in Hp as (n' & Hn' & Hid & _ & Hat').
  assert (n' = node) as -> by (by apply (uniqueData_rid_inj data)).
  congruence.
Qed.

Lemma unknown_parent_is_root_witness :
  let data := [Rec (JNum 1) JUndef; Rec (JNum 2) (JNum 99); Rec (JNum 3) (JNum 2)] in
  let node := Rec (JNum 2) (JNum 99) in
  (node ∈ uniqueData data) /\ (rpid node ∉ rid <$> data) /\
  rid node ∈ rootNodes (processData data) /\
  level_of (nodeMap (processData data)) (rid node) = Some 0%Z.
Proof.
  intros data node.
  assert (node ∈ uniqueData data) as H1 by (vm_compute; right; left).
  assert (rpid node ∉ rid <$> data) as H2.
  { apply (bool_decide_unpack _); vm_compute; exact I. }
  destruct (unknown_parent_is_root data node H1 H2) as (Hr & Hl & _).
  exact (conj H1 (conj H2 (conj Hr Hl))).
Defined.

(** X6 (processData, levels): when every record that is hung under a parent
    comes after the record of that parent in the input, the level of every
    child is the level of its parent plus one. *)
Theorem levels_when_parents_come_first (data : list record) (p c : jsval) :
  (forall l1 n l2, uniqueData data = l1 ++ n :: l2 ->
     attaches (nodeMap (start data)) n = true -> rpid n ∈ rid <$> l1) ->
  child_of (nodeMap (processData data)) p c ->
  level_of (nodeMap (processData data)) c =
  (fun l => (l + 1)%Z) <$> level_of (nodeMap (processData data)) p.
Proof. apply level_invariant_in_order. Qed.

Lemma levels_when_parents_come_first_witness :
  let data := [Rec (JNum 1) JUndef; Rec (JNum 2) (JNum 1); Rec (JNum 3) (JNum 2)] in
  let m := nodeMap (processData data) in
  child_of m (JNum 2) (JNum 3) /\
  level_of m (JNum 3) = (fun l => (l + 1)%Z) <$> level_of m (JNum 2).
Proof.
  intros data m.
  assert (child_of m (JNum 2) (JNum 3)) as Hc.
  { eexists. split; [vm_compute; reflexivity|]. simpl. left. }
  split; [exact Hc|].
  apply (levels_when_parents_come_first data (JNum 2) (JNum 3)); [|exact Hc].
  intros l1 n l2 E Hat.
  assert (uniqueData data = data) as Eu by (vm_compute; reflexivity).
  rewrite Eu in E. unfold data in E.
  destruct l1 as [|a [|b [|c l1]]]; cbn in E.
  - injection E as <- _. vm_compute in Hat. discriminate Hat.
  - injection E as <- <- _. cbn. left.
  - injection E as <- <- <- _. cbn. right; left.
  - exfalso. injection E as _ _ _ E. by destruct l1.
Defined.

End BuilderOrder.

(* ------------------------------------------------------------------ *)
(** * The duplicate filter on the tree                                 *)
(* ------------------------------------------------------------------ *)

Section DuplicateFilter.
Import SimpleOrgChart.

Lemma filterDuplicates_fixed nodes :
  Forall (fun n => forall seen, NoDup (sub_ids n) ->
            (forall j, j ∈ sub_ids n -> j ∉ seen) -> (filterNode n seen).1 = n) nodes ->
  forall seen, NoDup (forest_ids nodes) ->
    (forall j, j ∈ forest_ids nodes -> j ∉ seen) ->
    (filterDuplicates nodes seen).1 = nodes.
Proof.
  induction 1 as [|c r Hc _ IH]; intros seen Hnd Hfresh; [done|].
  rewrite filterDuplicates_cons. rewrite forest_ids_cons in Hnd, Hfresh.
  apply NoDup_cons in Hnd as [Hc1 Hnd]. apply NoDup_app in Hnd as (Hsub & Hdisj & Hr).
  rewrite decide_False by (apply Hfresh; left).
  cbn zeta. cbn [fst].
  assert ((filterNode c ({[id c]} ∪ seen)).1 = c) as Ec.
  { apply Hc; [done|]. intros j Hj. rewrite elem_of_union, elem_of_singleton.
    intros [->|Hs].
    - apply Hc1. apply elem_of_app. by left.
    - revert Hs. apply Hfresh. right. apply elem_of_app. by left. }
  rewrite Ec. f_equal. apply IH; [done|].
  intros j Hj Hin.
  destruct (filtersNode_all c ({[id c]} ∪ seen)) as (_ & _ & _ & Hseen).
  apply Hseen in Hin. rewrite Ec in Hin.
  rewrite elem_of_union, elem_of_singleton in Hin.
  destruct Hin as [[->|Hs]|Hs].
  - apply Hc1. apply elem_of_app. by right.
  - revert Hs. apply Hfresh. right. apply elem_of_app. by right.
  - by apply (Hdisj j).
Qed.

Lemma filterNode_fixed n seen :
  NoDup (sub_ids n) -> (forall j, j ∈ sub_ids n -> j ∉ seen) -> (filterNode n seen).1 = n.
Proof.
  revert seen. induction n as [i nm ch IH] using tnode_forall_ind.
  intros seen Hnd Hfresh. rewrite filterNode_eq. cbn [fst]. f_equal.
  by apply filterDuplicates_fixed.
Qed.

Lemma removeDuplicates_fixed nodes :
  NoDup (forest_ids nodes) -> removeDuplicates nodes = nodes.
Proof.
  intros Hnd. unfold removeDuplicates. apply filterDuplicates_fixed; [|done|].
  - apply Forall_forall. intros n _ seen. apply filterNode_fixed.
  - intros j _. apply not_elem_of_empty.
Qed.

Lemma filterDuplicates_sub nodes :
  Forall (fun n => forall seen j,
            j ∈ sub_ids (filterNode n seen).1 -> j ∈ sub_ids n) nodes ->
  forall seen j, j ∈ forest_ids (filterDuplicates nodes seen).1 -> j ∈ forest_ids nodes.
Proof.
  induction 1 as [|c r Hc _ IH]; intros seen j; [done|].
  rewrite filterDuplicates_cons, (forest_ids_cons c r). case_decide as Hseen.
  - intros Hj. right. apply elem_of_app. right. by apply (IH seen).
  - cbn zeta. cbn [fst]. rewrite forest_ids_cons.
    destruct (filtersNode_all c ({[id c]} ∪ seen)) as (Hid & _).
    rewrite Hid. rewrite !elem_of_cons, !elem_of_app.
    intros [->|[Hj|Hj]]; [by left|right; left|right; right].
    + by apply (Hc ({[id c]} ∪ seen)).
    + by apply (IH (filterNode c ({[id c]} ∪ seen)).2).
Qed.

Lemma filterNode_sub n seen j :
  j ∈ sub_ids (filterNode n seen).1 -> j ∈ sub_ids n.
Proof.
  revert seen j. induction n as [i nm ch IH] using tnode_forall_ind.
  intros seen j. rewrite filterNode_eq. cbn [fst]. unfold sub_ids. cbn [children].
  by apply filterDuplicates_sub.
Qed.

(** X7 (removeDuplicates): the filtered forest has pairwise distinct ids, and
    every id it holds is an id of the forest it was given: the filter drops
    nodes (with their subtrees) and adds none. *)
Theorem removeDuplicates_distinct_subset (nodes : list tnode) :
  NoDup (forest_ids (removeDuplicates nodes)) /\
  forall j, j ∈ forest_ids (removeDuplicates nodes) -> j ∈ forest_ids nodes.
Proof.
  split; [apply removeDuplicates_NoDup|].
  intros j. unfold removeDuplicates. apply filterDuplicates_sub.
  apply Forall_forall. intros n _ seen j'. apply filterNode_sub.
Qed.

Lemma removeDuplicates_distinct_subset_witness :
  let nodes := [TNode 1 "Ann" [TNode 2 "Bob" []]; TNode 2 "Bob" [TNode 3 "Cid" []];
                TNode 5 "Eve" []] in
  (5%Z ∈ forest_ids (removeDuplicates nodes)) /\ 5%Z ∈ forest_ids nodes.
Proof.
  intros nodes.
  assert (5%Z ∈ forest_ids (removeDuplicates nodes)) as Hin.
  { apply (bool_decide_unpack _); vm_compute; exact I. }
  exact (conj Hin (proj2 (removeDuplicates_distinct_subset nodes) 5%Z Hin)).
Defined.

(** X8 (removeDuplicates): a forest whose ids are pairwise distinct is
    returned as it is; hence filtering twice gives the same forest as
    filtering once. *)
Theorem removeDuplicates_fixed_point (nodes : list tnode) :
  (NoDup (forest_ids nodes) -> removeDuplicates nodes = nodes) /\
  removeDuplicates (removeDuplicates nodes) = removeDuplicates nodes.
Proof.
  split; [apply removeDuplicates_fixed|].
  apply removeDuplicates_fixed, removeDuplicates_NoDup.
Qed.

Lemma removeDuplicates_fixed_point_witness :
  let nodes := [TNode 1 "Ann" [TNode 2 "Bob" []; TNode 3 "Cid" [TNode 4 "Dan" []]];
                TNode 5 "Eve" []] in
  NoDup (forest_ids nodes) /\ removeDuplicates nodes = nodes.
Proof.
  intros nodes.
  assert (NoDup (forest_ids nodes)) as Hnd.
  { apply (bool_decide_unpack _); vm_compute; exact I. }
  exact (conj Hnd (proj1 (removeDuplicates_fixed_point nodes) Hnd)).
Defined.

End DuplicateFilter.

(* ------------------------------------------------------------------ *)
(** * Sorting                                                          *)
(* ------------------------------------------------------------------ *)

Section Sorted.

Lemma StronglySorted_pairwise {A} (R : A -> A -> Prop) l :
  StronglySorted R l -> pairwise R l.
Proof.
  induction 1 as [|a l _ IH Ha]; [done|]. cbn. split; [|done].
  apply Forall_forall. intros b Hb. rewrite List.Forall_forall in Ha.
  by apply Ha, list_elem_of_In.
Qed.

Section AnyPreorder.
Context (cmp : tnode -> tnode -> comparison).
Context (cmp_antisym : forall a b, cmp a b = CompOpp (cmp b a)).
Context (cmp_trans : forall a b c, cmp a b = Lt -> cmp b c = Lt -> cmp a c = Lt).
Context (cmp_eq : forall a b c, cmp a b = Eq -> cmp a c = cmp b c).

Lemma sortNode_sortedBelow n : pairwiseBelow (fun a b => cmp a b <> Gt) (sortNode cmp n).
Proof using cmp_antisym cmp_trans cmp_eq.
  induction n as [i nm ch IH] using tnode_forall_ind.
  cbn [sortNode pairwiseBelow]. split.
  - apply StronglySorted_pairwise. by apply (sortForest_sorted cmp).
  - apply below_Forall, Forall_forall. intros c Hc.
    apply js_sort_elem, list_elem_of_In, in_map_iff in Hc as (c0 & <- & Hc0).
    rewrite Forall_forall in IH. by apply IH, list_elem_of_In.
Qed.

Lemma sortForest_sortedBelow nodes :
  siblingsPairwise (fun a b => cmp a b <> Gt) (sortForest cmp nodes).
Proof using cmp_antisym cmp_trans cmp_eq.
  split.
  - apply StronglySorted_pairwise. by apply (sortForest_sorted cmp).
  - apply below_Forall, Forall_forall. intros c Hc.
    apply js_sort_elem, list_elem_of_In, in_map_iff in Hc as (c0 & <- & Hc0).
    apply sortNode_sortedBelow.
Qed.

Lemma sortForest_sortedNodes nodes : Forall (sortedNode cmp) (sortForest cmp nodes).
Proof using cmp_antisym cmp_trans cmp_eq.
  apply Forall_forall. intros c Hc.
  apply js_sort_elem, list_elem_of_In, in_map_iff in Hc as (c0 & <- & Hc0).
  by apply sortNode_idempotent.
Qed.

Lemma sortedNode_children i nm ch :
  sortedNode cmp (TNode i nm ch) ->
  sortForest cmp ch = ch /\ Forall (sortedNode cmp) ch.
Proof using cmp_antisym cmp_trans cmp_eq.
  unfold sortedNode at 1. cbn [sortNode]. intros [= E].
  split; [exact E|]. rewrite <- E at 1. apply sortForest_sortedNodes.
Qed.

End AnyPreorder.

Lemma simple_cmp_antisym o a b :
  SimpleOrgChart.compareNodes o a b = CompOpp (SimpleOrgChart.compareNodes o b a).
Proof.
  rewrite !simple_compare_oriented, (simpleBase_antisym _ a b).
  destruct (SimpleOrgChart.sortDirection o); simpl; [done|].
  by destruct (simpleBase _ b a).
Qed.

Lemma simple_cmp_trans o a b c :
  SimpleOrgChart.compareNodes o a b = Lt -> SimpleOrgChart.compareNodes o b c = Lt ->
  SimpleOrgChart.compareNodes o a c = Lt.
Proof.
  rewrite !simple_compare_oriented.
  destruct (SimpleOrgChart.sortDirection o); simpl; [apply simpleBase_trans|].
  rewrite (simpleBase_antisym _ a b), (simpleBase_antisym _ b c),
    (simpleBase_antisym _ a c).
  intros H1 H2. rewrite (simpleBase_trans _ c b a); [done|..].
  + by destruct (simpleBase _ c b).
  + by destruct (simpleBase _ b a).
Qed.

Lemma simple_cmp_eq o a b c :
  SimpleOrgChart.compareNodes o a b = Eq ->
  SimpleOrgChart.compareNodes o a c = SimpleOrgChart.compareNodes o b c.
Proof.
  rewrite !simple_compare_oriented.
  destruct (SimpleOrgChart.sortDirection o); simpl.
  + apply simpleBase_eq.
  + intros H. f_equal. apply simpleBase_eq. by destruct (simpleBase _ a b).
Qed.

Lemma html_cmp_antisym o a b :
  HTMLOrgChart.compareNodes o a b = CompOpp (HTMLOrgChart.compareNodes o b a).
Proof.
  unfold HTMLOrgChart.compareNodes.
  destruct (HTMLOrgChart.sortBy o), (HTMLOrgChart.sortDirection o); simpl.
  - apply String.compare_antisym.
  - by rewrite (String.compare_antisym (toLowerCase (name b))), CompOpp_involutive.
  - apply Z.compare_antisym.
  - rewrite (Z.compare_antisym (id b)). by rewrite CompOpp_involutive.
Qed.

Lemma string_compare_gt_trans s1 s2 s3 :
  String.compare s1 s2 = Gt -> String.compare s2 s3 = Gt -> String.compare s1 s3 = Gt.
Proof.
  rewrite (String.compare_antisym s1 s2), (String.compare_antisym s2 s3),
    (String.compare_antisym s1 s3).
  intros H1 H2. rewrite (string_compare_trans s3 s2 s1); [done|..].
  - by destruct (String.compare s3 s2).
  - by destruct (String.compare s2 s1).
Qed.

Lemma html_cmp_trans o a b c :
  HTMLOrgChart.compareNodes o a b = Lt -> HTMLOrgChart.compareNodes o b c = Lt ->
  HTMLOrgChart.compareNodes o a c = Lt.
Proof.
  unfold HTMLOrgChart.compareNodes.
  destruct (HTMLOrgChart.sortBy o), (HTMLOrgChart.sortDirection o); simpl.
  - apply string_compare_trans.
  - intros H1 H2.
    rewrite (string_compare_gt_trans _ (toLowerCase (name b))); [done|..].
    + by destruct (String.compare _ _).
    + by destruct (String.compare (toLowerCase (name b)) _).
  - rewrite !Z.compare_lt_iff. lia.
  - destruct (Z.compare_spec (id a) (id b)), (Z.compare_spec (id b) (id c));
      try done. intros _ _.
    destruct (Z.compare_spec (id a) (id c)); simpl; [lia|lia|done].
Qed.

Lemma html_cmp_eq o a b c :
  HTMLOrgChart.compareNodes o a b = Eq ->
  HTMLOrgChart.compareNodes o a c = HTMLOrgChart.compareNodes o b c.
Proof.
  unfold HTMLOrgChart.compareNodes.
  destruct (HTMLOrgChart.sortBy o).
  - intros H.
    assert (String.compare (toLowerCase (name a)) (toLowerCase (name b)) = Eq) as E.
    { destruct (HTMLOrgChart.sortDirection o); simpl in H; [done|].
      by destruct (String.compare _ _). }
    apply String.compare_eq_iff in E. by rewrite E.
  - intros H.
    assert (Z.compare (id a) (id b) = Eq) as E.
    { destruct (HTMLOrgChart.sortDirection o); simpl in H; [done|].
      by destruct (Z.compare _ _). }
    apply Z.compare_eq_iff in E. by rewrite E.
Qed.

(** X9 (sortNodes, both variants): sorting neither loses nor duplicates a
    node: the ids of the sorted forest are a permutation of the ids of the
    forest given. *)
Theorem sortNodes_keeps_ids (so : SimpleOrgChart.options) (ho : HTMLOrgChart.options)
    (nodes : list tnode) :
  forest_ids (SimpleOrgChart.sortNodes so nodes) ≡ₚ forest_ids nodes /\
  forest_ids (HTMLOrgChart.sortNodes ho nodes) ≡ₚ forest_ids nodes.
Proof. split; apply sortForest_ids. Qed.

(** X10 (sortNodes, both variants): after sortNodes the siblings are in
    order at every level of the forest: no node is followed, in its sibling
    list, by one that the comparator of the current options puts before
    it. *)
Theorem sortNodes_sorts_every_level (so : SimpleOrgChart.options)
    (ho : HTMLOrgChart.options) (nodes : list tnode) :
  siblingsPairwise (fun a b => SimpleOrgChart.compareNodes so a b <> Gt)
                   (SimpleOrgChart.sortNodes so nodes) /\
  siblingsPairwise (fun a b => HTMLOrgChart.compareNodes ho a b <> Gt)
                   (HTMLOrgChart.sortNodes ho nodes).
Proof.
  split.
  - apply sortForest_sortedBelow;
      [apply simple_cmp_antisym|apply simple_cmp_trans|apply simple_cmp_eq].
  - apply sortForest_sortedBelow;
      [apply html_cmp_antisym|apply html_cmp_trans|apply html_cmp_eq].
Qed.

(** X11 (sortNodes, both variants): sorting a sorted forest again with the
    same options changes nothing. *)
Theorem sortNodes_idempotent (so : SimpleOrgChart.options) (ho : HTMLOrgChart.options)
    (nodes : list tnode) :
  SimpleOrgChart.sortNodes so (SimpleOrgChart.sortNodes so nodes)
  = SimpleOrgChart.sortNodes so nodes /\
  HTMLOrgChart.sortNodes ho (HTMLOrgChart.sortNodes ho nodes)
  = HTMLOrgChart.sortNodes ho nodes.
Proof.
  split.
  - apply simple_sortNodes_idempotent.
  - apply sortForest_idempotent;
      [apply html_cmp_antisym|apply html_cmp_trans|apply html_cmp_eq].
Qed.

End Sorted.

(* ------------------------------------------------------------------ *)
(** * findNodeById                                                     *)
(* ------------------------------------------------------------------ *)

Section Find.
Import SimpleOrgChart.

Lemma searchNode_eq i j nm ch :
  searchNode i (TNode j nm ch) =
  if decide (j = i) then Some (TNode j nm ch) else searchNodes i ch.
Proof. reflexivity. Qed.

Lemma allBelow_eq n : allBelow n = n :: allNodes (children n).
Proof. by destruct n. Qed.

Lemma allNodes_ids nodes : id <$> allNodes nodes = forest_ids nodes.
Proof.
  assert (forall n, id <$> allBelow n = node_ids n) as H.
  { induction n as [i nm ch IH] using tnode_forall_ind.
    cbn [allBelow node_ids]. rewrite fmap_cons. cbn [id]. f_equal.
    induction IH as [|c ch Hc _ IHch]; [done|].
    cbn [flat_map]. by rewrite fmap_app, Hc, IHch. }
  unfold allNodes, forest_ids. induction nodes as [|c r IH]; [done|].
  cbn [flat_map]. by rewrite fmap_app, H, IH.
Qed.

Lemma head_app {A} (l1 l2 : list A) :
  head (l1 ++ l2) = match head l1 with Some a => Some a | None => head l2 end.
Proof. by destruct l1. Qed.

Lemma searchNodes_first i nodes :
  Forall (fun n => searchNode i n
                   = head (List.filter (fun a => bool_decide (id a = i)) (allBelow n)))
         nodes ->
  searchNodes i nodes
  = head (List.filter (fun a => bool_decide (id a = i)) (allNodes nodes)).
Proof.
  induction 1 as [|c r Hc _ IH]; [done|].
  cbn [searchNodes allNodes flat_map]. fold (allNodes r).
  change ((fix searchNodes (nodes : list tnode) : option tnode := _) r)
    with (searchNodes i r).
  rewrite List.filter_app, head_app, <- Hc, IH. done.
Qed.

Lemma searchNode_first i n :
  searchNode i n = head (List.filter (fun a => bool_decide (id a = i)) (allBelow n)).
Proof.
  induction n as [j nm ch IH] using tnode_forall_ind.
  rewrite searchNode_eq. cbn [allBelow List.filter id]. fold (allNodes ch).
  case_decide as Hj.
  - by rewrite bool_decide_eq_true_2.
  - rewrite bool_decide_eq_false_2 by done. by apply searchNodes_first.
Qed.

Lemma head_filter_Some {A} (f : A -> bool) l a :
  head (List.filter f l) = Some a -> a ∈ l /\ f a = true.
Proof.
  intros H. assert (a ∈ List.filter f l) as Hin.
  { destruct (List.filter f l); [done|]. injection H as ->. left. }
  apply list_elem_of_In, filter_In in Hin as [Hin Hf]. by apply list_elem_of_In in Hin.
Qed.

Lemma head_filter_None {A} (f : A -> bool) l :
  head (List.filter f l) = None -> forall a, a ∈ l -> f a = false.
Proof.
  intros H a Ha. destruct (f a) eqn:E; [|done].
  assert (a ∈ List.filter f l) as Hin.
  { apply list_elem_of_In, filter_In. split; [by apply list_elem_of_In|done]. }
  destruct (List.filter f l); [by apply elem_of_nil in Hin|done].
Qed.

(** X12 (findNodeById): the search returns the first node, in document
    order, whose id is the one asked for; it finds a node exactly when the id
    occurs in the forest, and returns null otherwise. *)
Theorem findNodeById_first_match (hierarchicalData : list tnode) (i : Z) :
  findNodeById hierarchicalData i
  = head (List.filter (fun n => bool_decide (id n = i)) (allNodes hierarchicalData)) /\
  (forall n, findNodeById hierarchicalData i = Some n ->
     (n ∈ allNodes hierarchicalData) /\ id n = i) /\
  (is_Some (findNodeById hierarchicalData i) <-> i ∈ forest_ids hierarchicalData).
Proof.
  assert (findNodeById hierarchicalData i
          = head (List.filter (fun n => bool_decide (id n = i))
                              (allNodes hierarchicalData))) as E.
  { unfold findNodeById. apply searchNodes_first, Forall_forall.
    intros n _. apply searchNode_first. }
  split; [exact E|]. split.
  - intros n Hn. rewrite E in Hn. apply head_filter_Some in Hn as [Hin Hid].
    split; [done|]. by apply bool_decide_eq_true in Hid.
  - rewrite E, <- allNodes_ids. split.
    + intros [n Hn]. apply head_filter_Some in Hn as [Hin Hid].
      apply bool_decide_eq_true in Hid. apply list_elem_of_fmap. eauto.
    + intros (n & -> & Hn)%list_elem_of_fmap.
      destruct (head _) eqn:Hh; [eauto|].
      apply head_filter_None with (a := n) in Hh; [|done].
      by apply bool_decide_eq_false in Hh.
Qed.

Lemma findNodeById_first_match_witness :
  let data := [TNode 1 "Ann" [TNode 2 "Bob" [TNode 4 "Dan" []]; TNode 3 "Cid" []]] in
  findNodeById data 3 = Some (TNode 3 "Cid" []) /\
  (TNode 3 "Cid" [] ∈ allNodes data) /\ id (TNode 3 "Cid" []) = 3%Z.
Proof.
  intros data.
  assert (findNodeById data 3 = Some (TNode 3 "Cid" [])) as H by reflexivity.
  exact (conj H (proj1 (proj2 (findNodeById_first_match data 3)) _ H)).
Defined.

End Find.

(* ------------------------------------------------------------------ *)
(** * Expansion state: expandAll, collapseAll, toggleNode              *)
(* ------------------------------------------------------------------ *)

Section ExpansionOps.

Lemma writePolicy_frame pol l m i :
  i ∉ l.*1 -> writePolicy pol l m !! i = m !! i.
Proof.
  unfold writePolicy. revert m. induction l as [|[j d] l IH]; intros m Hi; [done|].
  rewrite fmap_cons, not_elem_of_cons in Hi. destruct Hi as [Hne Hi].
  cbn [fold_left fst snd]. rewrite IH by done. by rewrite lookup_insert_ne.
Qed.

Lemma writePolicy_is_Some pol l m i :
  i ∈ l.*1 -> is_Some (writePolicy pol l m !! i).
Proof.
  unfold writePolicy. induction l as [|[j d] l IH] using rev_ind; intros Hi.
  { by apply elem_of_nil in Hi. }
  rewrite fold_left_app. cbn [fold_left fst snd].
  destruct (decide (j = i)) as [->|Hne].
  - rewrite lookup_insert_eq. eauto.
  - rewrite lookup_insert_ne by done. apply IH.
    rewrite fmap_app in Hi. apply elem_of_app in Hi as [Hi|Hi]; [done|].
    cbn in Hi. apply list_elem_of_singleton in Hi. congruence.
Qed.

Lemma writePolicy_ext pol pol' l m :
  (forall d, pol d = pol' d) -> writePolicy pol l m = writePolicy pol' l m.
Proof.
  intros H. unfold writePolicy. revert m.
  induction l as [|[j d] l IH]; intros m; [done|].
  cbn [fold_left fst snd]. by rewrite H, IH.
Qed.

Lemma writePolicy_const b l m i :
  i ∈ l.*1 -> writePolicy (fun _ => b) l m !! i = Some b.
Proof.
  unfold writePolicy. revert m. induction l as [|[j d] l IH]; intros m Hi.
  { by apply elem_of_nil in Hi. }
  cbn [fold_left fst snd].
  destruct (decide (i ∈ l.*1)) as [Hin|Hnin]; [by apply IH|].
  rewrite fmap_cons, elem_of_cons in Hi. destruct Hi as [->|Hi]; [|done].
  fold (writePolicy (fun _ => b) l (<[j:=b]> m)).
  rewrite writePolicy_frame by done. apply lookup_insert_eq.
Qed.

Lemma simple_collapseByLevel_fold o lvl n m :
  SimpleOrgChart.collapseByLevel o lvl n m =
  writePolicy (fun d => (d <? SimpleOrgChart.initialVisibleLevels o)%Z) (node_depths lvl n) m.
Proof.
  revert lvl m. induction n as [i nm ch IH] using tnode_forall_ind. intros lvl m.
  unfold writePolicy.
  cbn [SimpleOrgChart.collapseByLevel node_depths fold_left fst snd].
  generalize (<[i:=(lvl <? SimpleOrgChart.initialVisibleLevels o)%Z]> m). clear m.
  intros m. rewrite fold_left_flat_map. revert m.
  induction IH as [|c ch Hc _ IHch]; intros m; [done|].
  cbn [fold_left]. by rewrite Hc, IHch.
Qed.

Lemma simple_collapseAll_fold o nodes m :
  SimpleOrgChart.collapseAll o nodes m =
  writePolicy (fun d => (d <? SimpleOrgChart.initialVisibleLevels o)%Z)
              (forest_depths 0 nodes) m.
Proof.
  unfold SimpleOrgChart.collapseAll, writePolicy, forest_depths.
  rewrite fold_left_flat_map. revert m.
  induction nodes as [|c ch IH]; intros m; [done|].
  cbn [fold_left]. by rewrite simple_collapseByLevel_fold, IH.
Qed.

Lemma html_collapseNode_fold o lvl n m :
  HTMLOrgChart.collapseNode o lvl n m =
  writePolicy (fun d => (d <? HTMLOrgChart.initialVisibleLevels o)%Z) (node_depths lvl n) m.
Proof.
  revert lvl m. induction n as [i nm ch IH] using tnode_forall_ind. intros lvl m.
  unfold writePolicy.
  cbn [HTMLOrgChart.collapseNode node_depths fold_left fst snd].
  generalize (<[i:=(lvl <? HTMLOrgChart.initialVisibleLevels o)%Z]> m). clear m.
  intros m. rewrite fold_left_flat_map. revert m.
  induction IH as [|c ch Hc _ IHch]; intros m; [done|].
  cbn [fold_left]. by rewrite Hc, IHch.
Qed.

Lemma html_collapseAll_fold o nodes m :
  HTMLOrgChart.collapseAll o nodes m =
  writePolicy (fun d => (d <? HTMLOrgChart.initialVisibleLevels o)%Z)
              (forest_depths 0 nodes) m.
Proof.
  unfold HTMLOrgChart.collapseAll, writePolicy, forest_depths.
  rewrite fold_left_flat_map. revert m.
  induction nodes as [|c ch IH]; intros m; [done|].
  cbn [fold_left]. by rewrite html_collapseNode_fold, IH.
Qed.

Lemma html_expandNode_fold lvl n m :
  HTMLOrgChart.expandNode n m = writePolicy (fun _ => true) (node_depths lvl n) m.
Proof.
  revert lvl m. induction n as [i nm ch IH] using tnode_forall_ind. intros lvl m.
  unfold writePolicy.
  cbn [HTMLOrgChart.expandNode node_depths fold_left fst snd].
  generalize (<[i:=true]> m). clear m.
  intros m. rewrite fold_left_flat_map. revert m.
  induction IH as [|c ch Hc _ IHch]; intros m; [done|].
  cbn [fold_left]. by rewrite (Hc (lvl + 1)%Z), IHch.
Qed.

Lemma html_expandAll_fold nodes m :
  HTMLOrgChart.expandAll nodes m = writePolicy (fun _ => true) (forest_depths 0 nodes) m.
Proof.
  unfold HTMLOrgChart.expandAll, writePolicy, forest_depths.
  rewrite fold_left_flat_map. revert m.
  induction nodes as [|c ch IH]; intros m; [done|].
  cbn [fold_left]. by rewrite (html_expandNode_fold 0), IH.
Qed.

Lemma simple_expandAll_lookup (e : gmap Z bool) i :
  SimpleOrgChart.expandAll e !! i = (fun _ => true) <$> e !! i.
Proof.
  unfold SimpleOrgChart.expandAll.
  assert (forall b : gmap Z bool,
    map_fold (fun key (_ : bool) m => <[key:=true]> m) b e !! i
    = match e !! i with Some _ => Some true | None => b !! i end) as H.
  { intros b.
    apply (map_fold_weak_ind
             (fun (r : gmap Z bool) (m : gmap Z bool) =>
                r !! i = match m !! i with Some _ => Some true | None => b !! i end)).
    - by rewrite lookup_empty.
    - intros j x m r Hj IH. destruct (decide (j = i)) as [->|Hne].
      + by rewrite !lookup_insert_eq.
      + by rewrite !lookup_insert_ne. }
  rewrite H. by destruct (e !! i).
Qed.

(** ** What the layout shows for a given expansion map *)

Lemma visibleNodes_cons e n l :
  visibleNodes e (n :: l) = visibleBelow e n ++ visibleNodes e l.
Proof. reflexivity. Qed.

Lemma visibleBelow_ext e1 e2 n :
  (forall j, j ∈ node_ids n -> isExpanded e1 j = isExpanded e2 j) ->
  visibleBelow e1 n = visibleBelow e2 n.
Proof.
  induction n as [i nm ch IH] using tnode_forall_ind. intros H.
  cbn [visibleBelow]. rewrite (H i) by (cbn; left). f_equal.
  destruct (isExpanded e2 i); [|done].
  assert (forall j, j ∈ flat_map node_ids ch -> isExpanded e1 j = isExpanded e2 j) as H'.
  { intros j Hj. apply H. cbn. by right. }
  clear H. induction IH as [|c ch Hc _ IHch]; [done|].
  cbn [flat_map]. rewrite Hc, IHch; [done|..].
  - intros j Hj. apply H'. cbn [flat_map]. apply elem_of_app. by right.
  - intros j Hj. apply H'. cbn [flat_map]. apply elem_of_app. by left.
Qed.

Lemma visibleNodes_ext e1 e2 nodes :
  (forall j, j ∈ forest_ids nodes -> isExpanded e1 j = isExpanded e2 j) ->
  visibleNodes e1 nodes = visibleNodes e2 nodes.
Proof.
  induction nodes as [|n l IH]; intros H; [done|].
  rewrite !visibleNodes_cons, IH.
  - f_equal. apply visibleBelow_ext. intros j Hj. apply H.
    unfold forest_ids. cbn [flat_map]. apply elem_of_app. by left.
  - intros j Hj. apply H. unfold forest_ids. cbn [flat_map]. apply elem_of_app. by right.
Qed.

Lemma visibleBelow_all e n :
  (forall j, j ∈ node_ids n -> isExpanded e j = true) -> visibleBelow e n = allBelow n.
Proof.
  induction n as [i nm ch IH] using tnode_forall_ind. intros H.
  cbn [visibleBelow allBelow]. rewrite (H i) by (cbn; left). f_equal.
  assert (forall j, j ∈ flat_map node_ids ch -> isExpanded e j = true) as H'.
  { intros j Hj. apply H. cbn. by right. }
  clear H. induction IH as [|c ch Hc _ IHch]; [done|].
  cbn [flat_map]. rewrite Hc, IHch; [done|..].
  - intros j Hj. apply H'. cbn [flat_map]. apply elem_of_app. by right.
  - intros j Hj. apply H'. cbn [flat_map]. apply elem_of_app. by left.
Qed.

Lemma visibleNodes_all e nodes :
  (forall j, j ∈ forest_ids nodes -> isExpanded e j = true) ->
  visibleNodes e nodes = allNodes nodes.
Proof.
  induction nodes as [|n l IH]; intros H; [done|].
  rewrite visibleNodes_cons, IH.
  - unfold allNodes. cbn [flat_map]. f_equal. apply visibleBelow_all. intros j Hj.
    apply H. unfold forest_ids. cbn [flat_map]. apply elem_of_app. by left.
  - intros j Hj. apply H. unfold forest_ids. cbn [flat_map]. apply elem_of_app. by right.
Qed.

(** X13 (SimpleOrgChart.expandAll): expandAll sets every key the expansion
    map holds to true and adds no key, so an id without an entry stays
    without one and reads as collapsed.  When every node of the tree has an
    entry, as after configureInitialExpansion, every node of the tree is
    visible after expandAll. *)
Theorem expandAll_shows_whole_tree (o : SimpleOrgChart.options)
    (hierarchicalData : list tnode) (before : gmap Z bool) :
  (forall (expandedNodes : gmap Z bool) i,
     SimpleOrgChart.expandAll expandedNodes !! i = (fun _ => true) <$> expandedNodes !! i) /\
  (forall expandedNodes : gmap Z bool,
     (forall j, j ∈ forest_ids hierarchicalData -> is_Some (expandedNodes !! j)) ->
     visibleNodes (SimpleOrgChart.expandAll expandedNodes) hierarchicalData
     = allNodes hierarchicalData) /\
  visibleNodes
    (SimpleOrgChart.expandAll
       (SimpleOrgChart.configureInitialExpansion o hierarchicalData before))
    hierarchicalData
  = allNodes hierarchicalData.
Proof.
  assert (forall expandedNodes : gmap Z bool,
     (forall j, j ∈ forest_ids hierarchicalData -> is_Some (expandedNodes !! j)) ->
     visibleNodes (SimpleOrgChart.expandAll expandedNodes) hierarchicalData
     = allNodes hierarchicalData) as H.
  { intros e He. apply visibleNodes_all. intros j Hj.
    unfold isExpanded. rewrite simple_expandAll_lookup.
    by destruct (He j Hj) as [b ->]. }
  split; [apply simple_expandAll_lookup|].
  split; [exact H|]. apply H. intros j Hj.
  rewrite simple_configureInitialExpansion_fold.
  apply writePolicy_is_Some. by rewrite forest_depths_ids.
Qed.

Lemma expandAll_shows_whole_tree_witness :
  let data := [TNode 1 "Ann" [TNode 2 "Bob" [TNode 4 "Dan" []]; TNode 3 "Cid" []]] in
  let expandedNodes : gmap Z bool :=
    <[1%Z := false]> (<[2%Z := false]> (<[3%Z := true]> (<[4%Z := false]> ∅))) in
  (forall j, j ∈ forest_ids data -> is_Some (expandedNodes !! j)) /\
  visibleNodes (SimpleOrgChart.expandAll expandedNodes) data = allNodes data.
Proof.
  intros data expandedNodes.
  assert (forall j, j ∈ forest_ids data -> is_Some (expandedNodes !! j)) as H.
  { intros j Hj. cbn in Hj.
    repeat (apply elem_of_cons in Hj as [->|Hj]; [vm_compute; eauto|]).
    by apply elem_of_nil in Hj. }
  split; [exact H|].
  exact (proj1 (proj2 (expandAll_shows_whole_tree SimpleOrgChart.defaultOptions data ∅))
               expandedNodes H).
Defined.

(** X14 (HTMLOrgChart.expandAll): expandAll writes true for every node of
    the tree, whether or not the map had an entry for it, and leaves the
    entries of other ids alone; afterwards every node of the tree is
    visible. *)
Theorem html_expandAll_expands_tree (hierarchicalData : list tnode)
    (expandedNodes : gmap Z bool) :
  (forall i, HTMLOrgChart.expandAll hierarchicalData expandedNodes !! i
             = if decide (i ∈ forest_ids hierarchicalData) then Some true
               else expandedNodes !! i) /\
  visibleNodes (HTMLOrgChart.expandAll hierarchicalData expandedNodes) hierarchicalData
  = allNodes hierarchicalData.
Proof.
  assert (forall i, HTMLOrgChart.expandAll hierarchicalData expandedNodes !! i
             = if decide (i ∈ forest_ids hierarchicalData) then Some true
               else expandedNodes !! i) as H.
  { intros i. rewrite html_expandAll_fold. case_decide as Hi.
    - apply writePolicy_const. by rewrite forest_depths_ids.
    - apply writePolicy_frame. by rewrite forest_depths_ids. }
  split; [exact H|]. apply visibleNodes_all. intros j Hj.
  unfold isExpanded. rewrite H. by rewrite decide_True.
Qed.

(** ** collapseAll *)

Lemma nodesWithDepth_root lvl nodes n : n ∈ nodes -> (n, lvl) ∈ nodesWithDepth lvl nodes.
Proof.
  intros Hn. apply elem_of_flat_map. exists n. split; [done|].
  destruct n. cbn. left.
Qed.

Lemma belowWithDepth_children m : forall lvl n k c,
  (n, k) ∈ belowWithDepth lvl m -> c ∈ children n -> (c, (k + 1)%Z) ∈ belowWithDepth lvl m.
Proof.
  induction m as [i nm ch IH] using tnode_forall_ind. intros lvl n k c Hn Hc.
  cbn [belowWithDepth] in *. apply elem_of_cons in Hn as [E|Hn].
  - injection E as -> ->. right. cbn [children] in Hc.
    fold (nodesWithDepth (lvl + 1) ch). by apply nodesWithDepth_root.
  - right. apply elem_of_flat_map in Hn as (m' & Hm' & Hn).
    apply elem_of_flat_map. exists m'. split; [done|].
    rewrite Forall_forall in IH. by apply (IH m' Hm') with n.
Qed.

Lemma nodesWithDepth_children lvl nodes n k c :
  (n, k) ∈ nodesWithDepth lvl nodes -> c ∈ children n ->
  (c, (k + 1)%Z) ∈ nodesWithDepth lvl nodes.
Proof.
  intros (m & Hm & Hn)%elem_of_flat_map Hc.
  apply elem_of_flat_map. exists m. split; [done|]. by apply belowWithDepth_children with n.
Qed.

Lemma belowWithDepth_depths m : forall lvl n k,
  (n, k) ∈ belowWithDepth lvl m -> (id n, k) ∈ node_depths lvl m.
Proof.
  induction m as [i nm ch IH] using tnode_forall_ind. intros lvl n k Hn.
  cbn [belowWithDepth node_depths] in *. apply elem_of_cons in Hn as [E|Hn].
  - injection E as -> ->. left.
  - right. apply elem_of_flat_map in Hn as (m' & Hm' & Hn).
    apply elem_of_flat_map. exists m'. split; [done|].
    rewrite Forall_forall in IH. by apply (IH m' Hm').
Qed.

Lemma nodesWithDepth_depths lvl nodes n k :
  (n, k) ∈ nodesWithDepth lvl nodes -> (id n, k) ∈ forest_depths lvl nodes.
Proof.
  intros (m & Hm & Hn)%elem_of_flat_map.
  apply elem_of_flat_map. exists m. split; [done|]. by apply belowWithDepth_depths.
Qed.

Section Levels.
Context (e : gmap Z bool) (limit : Z) (hierarchicalData : list tnode).
Context (He : forall n k, (n, k) ∈ nodesWithDepth 0 hierarchicalData ->
                          isExpanded e (id n) = (k <? limit)%Z).

Lemma nextLevel_at_depth l k :
  (forall n, n ∈ l -> (n, k) ∈ nodesWithDepth 0 hierarchicalData) ->
  nextLevel e l = if (k <? limit)%Z then flat_map children l else [].
Proof using He.
  induction l as [|n l IH]; intros Hl.
  { by destruct (k <? limit)%Z. }
  unfold nextLevel in *. cbn [flat_map]. rewrite IH by (intros; apply Hl; by right).
  unfold vchildren. rewrite (He n k) by (apply Hl; left).
  by destruct (k <? limit)%Z.
Qed.

Lemma levelBelow_at_depth d : forall l k,
  (forall n, n ∈ l -> (n, k) ∈ nodesWithDepth 0 hierarchicalData) ->
  levelBelow e (S d) l
  = if (k + Z.of_nat (S d) <=? limit)%Z then depthLevel (S d) l else [].
Proof using He.
  induction d as [|d IH]; intros l k Hl.
  - cbn [levelBelow depthLevel]. rewrite (nextLevel_at_depth l k Hl).
    destruct (Z.ltb_spec k limit), (Z.leb_spec (k + Z.of_nat 1) limit); try done; lia.
  - change (levelBelow e (S (S d)) l) with (levelBelow e (S d) (nextLevel e l)).
    rewrite (nextLevel_at_depth l k Hl). destruct (Z.ltb_spec k limit).
    + rewrite (IH _ (k + 1)%Z).
      * change (depthLevel (S (S d)) l) with (depthLevel (S d) (flat_map children l)).
        destruct (Z.leb_spec (k + 1 + Z.of_nat (S d)) limit),
          (Z.leb_spec (k + Z.of_nat (S (S d))) limit); try done; lia.
      * intros c (n & Hn & Hc)%elem_of_flat_map.
        apply nodesWithDepth_children with n; [by apply Hl|done].
    + rewrite levelBelow_nil.
      destruct (Z.leb_spec (k + Z.of_nat (S (S d))) limit); [lia|done].
Qed.

End Levels.

(** X16 (collapseAll against configureInitialExpansion): collapseAll gives
    the map of the initial configuration in HTMLOrgChart when
    initiallyExpanded is false, and in SimpleOrgChart when initiallyExpanded
    is true.  (With initiallyExpanded false, SimpleOrgChart starts with every
    node collapsed, while collapseAll keeps the first levels expanded.) *)
Theorem collapseAll_and_initial_expansion (so : SimpleOrgChart.options)
    (ho : HTMLOrgChart.options) (hierarchicalData : list tnode) (before : gmap Z bool) :
  (HTMLOrgChart.initiallyExpanded ho = false ->
   HTMLOrgChart.collapseAll ho hierarchicalData before
   = HTMLOrgChart.configureInitialExpansion ho hierarchicalData before) /\
  (SimpleOrgChart.initiallyExpanded so = true ->
   SimpleOrgChart.collapseAll so hierarchicalData before
   = SimpleOrgChart.configureInitialExpansion so hierarchicalData before).
Proof.
  split; intros Hie.
  - rewrite html_collapseAll_fold, html_configureInitialExpansion_fold.
    apply writePolicy_ext. intros d. unfold HTMLOrgChart.policy. by rewrite Hie.
  - rewrite simple_collapseAll_fold, simple_configureInitialExpansion_fold.
    apply writePolicy_ext. intros d. unfold SimpleOrgChart.policy. by rewrite Hie.
Qed.

Lemma collapseAll_and_initial_expansion_witness :
  let data := [TNode 1 "Ann" [TNode 2 "Bob" [TNode 4 "Dan" []]; TNode 3 "Cid" []]] in
  let so := SimpleOrgChart.Options 180 60 true 2 ByName Asc in
  HTMLOrgChart.initiallyExpanded HTMLOrgChart.defaultOptions = false /\
  SimpleOrgChart.initiallyExpanded so = true /\
  HTMLOrgChart.collapseAll HTMLOrgChart.defaultOptions data ∅
  = HTMLOrgChart.configureInitialExpansion HTMLOrgChart.defaultOptions data ∅ /\
  SimpleOrgChart.collapseAll so data ∅
  = SimpleOrgChart.configureInitialExpansion so data ∅.
Proof.
  intros data so.
  assert (HTMLOrgChart.initiallyExpanded HTMLOrgChart.defaultOptions = false) as H1
    by reflexivity.
  assert (SimpleOrgChart.initiallyExpanded so = true) as H2 by reflexivity.
  destruct (collapseAll_and_initial_expansion so HTMLOrgChart.defaultOptions data ∅)
    as [Hh Hs].
  exact (conj H1 (conj H2 (conj (Hh H1) (Hs H2)))).
Defined.

(** X17 (SimpleOrgChart.collapseAll, what is shown afterwards): on a tree
    with pairwise distinct ids, after collapseAll the visible nodes of depth
    d >= 1 are all nodes of that depth when d <= initialVisibleLevels and
    none otherwise; the roots are always visible.  So the levels
    0 .. initialVisibleLevels are shown. *)
Theorem collapseAll_shows_first_levels (o : SimpleOrgChart.options)
    (hierarchicalData : list tnode) (before : gmap Z bool) (d : nat) :
  NoDup (forest_ids hierarchicalData) ->
  levelBelow (SimpleOrgChart.collapseAll o hierarchicalData before) d hierarchicalData
  = match d with
    | O => hierarchicalData
    | S _ =>
        if (Z.of_nat d <=? SimpleOrgChart.initialVisibleLevels o)%Z
        then depthLevel d hierarchicalData else []
    end.
Proof.
  intros Hnd. destruct d as [|d]; [done|].
  rewrite (levelBelow_at_depth _ (SimpleOrgChart.initialVisibleLevels o)
             hierarchicalData) with (k := 0%Z).
  - done.
  - intros n k Hn. unfold isExpanded.
    rewrite simple_collapseAll_fold.
    rewrite (writePolicy_lookup _ _ _ (id n) k); [done|..].
    + by rewrite forest_depths_ids.
    + by apply nodesWithDepth_depths.
  - intros n Hn. by apply nodesWithDepth_root.
Qed.

Lemma collapseAll_shows_first_levels_witness :
  let data := [TNode 1 "Ann" [TNode 2 "Bob" [TNode 4 "Dan" []]; TNode 3 "Cid" []]] in
  NoDup (forest_ids data) /\
  levelBelow (SimpleOrgChart.collapseAll SimpleOrgChart.defaultOptions data ∅) 1 data
  = [TNode 2 "Bob" [TNode 4 "Dan" []]; TNode 3 "Cid" []] /\
  levelBelow (SimpleOrgChart.collapseAll SimpleOrgChart.defaultOptions data ∅) 2 data
  = [].
Proof.
  intros data.
  assert (NoDup (forest_ids data)) as Hnd.
  { apply (bool_decide_unpack _); vm_compute; exact I. }
  split; [exact Hnd|]. split.
  - exact (collapseAll_shows_first_levels SimpleOrgChart.defaultOptions data ∅ 1 Hnd).
  - exact (collapseAll_shows_first_levels SimpleOrgChart.defaultOptions data ∅ 2 Hnd).
Defined.

(** ** toggleNode *)

Lemma markChildren_reads ch : forall (e : gmap Z bool) j,
  isExpanded (SimpleOrgChart.markChildren ch e) j = isExpanded e j.
Proof.
  unfold SimpleOrgChart.markChildren.
  induction ch as [|c ch IH]; intros e j; [done|].
  cbn [fold_left]. rewrite IH. destruct (e !! id c) eqn:E; [done|].
  unfold isExpanded. destruct (decide (id c = j)) as [<-|Hne].
  - by rewrite lookup_insert_eq, E.
  - by rewrite lookup_insert_ne.
Qed.

Lemma isExpanded_insert (e : gmap Z bool) i b j :
  isExpanded (<[i:=b]> e) j = if decide (j = i) then b else isExpanded e j.
Proof.
  unfold isExpanded. case_decide as E.
  - subst. by rewrite lookup_insert_eq.
  - by rewrite lookup_insert_ne.
Qed.

Lemma toggleNode_reads o i e hierarchicalData j :
  isExpanded (SimpleOrgChart.toggleNode o i (e, hierarchicalData)).1 j
  = if decide (j = i) then negb (isExpanded e i) else isExpanded e j.
Proof.
  unfold SimpleOrgChart.toggleNode.
  destruct (negb (isExpanded e i)) eqn:En.
  - destruct (SimpleOrgChart.findNodeById hierarchicalData i) as [currentNode|].
    + destruct (children currentNode); cbn [fst].
      * by rewrite isExpanded_insert.
      * by rewrite markChildren_reads, isExpanded_insert.
    + cbn [fst]. by rewrite isExpanded_insert.
  - cbn [fst]. by rewrite isExpanded_insert.
Qed.

Lemma sortChildrenOfNode_eq o i j nm ch :
  SimpleOrgChart.sortChildrenOfNode o i (TNode j nm ch) =
  if decide (j = i) then Some (TNode j nm (SimpleOrgChart.sortNodes o ch))
  else TNode j nm <$> SimpleOrgChart.sortChildrenOf o i ch.
Proof. reflexivity. Qed.

Lemma sortChildrenOf_sorted o i nodes :
  Forall (fun n => sortedNode (SimpleOrgChart.compareNodes o) n ->
            forall n', SimpleOrgChart.sortChildrenOfNode o i n = Some n' -> n' = n) nodes ->
  Forall (sortedNode (SimpleOrgChart.compareNodes o)) nodes ->
  forall nodes', SimpleOrgChart.sortChildrenOf o i nodes = Some nodes' -> nodes' = nodes.
Proof.
  induction 1 as [|c r Hc _ IH]; intros Hs nodes'; [done|].
  apply Forall_cons in Hs as [Hsc Hsr].
  cbn [SimpleOrgChart.sortChildrenOf].
  change ((fix sortChildrenOf (nodes : list tnode) : option (list tnode) := _) r)
    with (SimpleOrgChart.sortChildrenOf o i r).
  destruct (SimpleOrgChart.sortChildrenOfNode o i c) as [c'|] eqn:Ec.
  - intros [= <-]. by rewrite (Hc Hsc c').
  - destruct (SimpleOrgChart.sortChildrenOf o i r) as [r'|] eqn:Er; [|done].
    cbn. intros [= <-]. by rewrite (IH Hsr r').
Qed.

Lemma sortChildrenOfNode_sorted o i n :
  sortedNode (SimpleOrgChart.compareNodes o) n ->
  forall n', SimpleOrgChart.sortChildrenOfNode o i n = Some n' -> n' = n.
Proof.
  induction n as [j nm ch IH] using tnode_forall_ind. intros Hs n'.
  apply sortedNode_children in Hs as [Hch Hall];
    [|apply simple_cmp_antisym|apply simple_cmp_trans|apply simple_cmp_eq].
  rewrite sortChildrenOfNode_eq. case_decide as Hj.
  - intros [= <-]. unfold SimpleOrgChart.sortNodes. by rewrite Hch.
  - destruct (SimpleOrgChart.sortChildrenOf o i ch) as [ch'|] eqn:E; [|done].
    cbn. intros [= <-]. f_equal. by apply (sortChildrenOf_sorted o i ch).
Qed.

Lemma toggleNode_forest o i e nodes :
  Forall (sortedNode (SimpleOrgChart.compareNodes o)) nodes ->
  (SimpleOrgChart.toggleNode o i (e, nodes)).2 = nodes.
Proof.
  intros Hs. unfold SimpleOrgChart.toggleNode.
  destruct (negb (isExpanded e i)); [|done].
  destruct (SimpleOrgChart.findNodeById nodes i) as [currentNode|]; [|done].
  destruct (children currentNode); [done|]. cbn [snd].
  destruct (SimpleOrgChart.sortChildrenOf o i nodes) as [nodes'|] eqn:E; [|done].
  cbn. apply (sortChildrenOf_sorted o i nodes); [|done..].
  apply Forall_forall. intros n _. apply sortChildrenOfNode_sorted.
Qed.

(** X18 (toggleNode, both variants): toggling a node flips what the
    expansion map says about that node and changes what it says about no
    other node; the entries SimpleOrgChart adds for the children of an
    expanded node read as collapsed, as a missing entry does. *)
Theorem toggleNode_flips_one_node (o : SimpleOrgChart.options) (nodeId : Z)
    (expandedNodes : gmap Z bool) (hierarchicalData : list tnode) (j : Z) :
  isExpanded (SimpleOrgChart.toggleNode o nodeId (expandedNodes, hierarchicalData)).1 j
  = (if decide (j = nodeId) then negb (isExpanded expandedNodes nodeId)
     else isExpanded expandedNodes j) /\
  isExpanded (HTMLOrgChart.toggleNode nodeId expandedNodes) j
  = (if decide (j = nodeId) then negb (isExpanded expandedNodes nodeId)
     else isExpanded expandedNodes j).
Proof.
  split; [apply toggleNode_reads|].
  unfold HTMLOrgChart.toggleNode. apply isExpanded_insert.
Qed.

(** X19 (SimpleOrgChart.toggleNode, round trip): on a forest sorted by the
    current options, toggling the same node twice gives back the forest and
    an expansion map that reads as before for every id, so the same nodes
    are visible. *)
Theorem toggleNode_twice_restores (o : SimpleOrgChart.options) (nodeId : Z)
    (expandedNodes : gmap Z bool) (nodes : list tnode) :
  let hierarchicalData := SimpleOrgChart.sortNodes o nodes in
  let st := SimpleOrgChart.toggleNode o nodeId
              (SimpleOrgChart.toggleNode o nodeId (expandedNodes, hierarchicalData)) in
  st.2 = hierarchicalData /\
  (forall j, isExpanded st.1 j = isExpanded expandedNodes j) /\
  visibleNodes st.1 hierarchicalData = visibleNodes expandedNodes hierarchicalData.
Proof.
  intros hierarchicalData st.
  assert (Forall (sortedNode (SimpleOrgChart.compareNodes o)) hierarchicalData) as Hs.
  { apply sortForest_sortedNodes;
      [apply simple_cmp_antisym|apply simple_cmp_trans|apply simple_cmp_eq]. }
  assert ((SimpleOrgChart.toggleNode o nodeId (expandedNodes, hierarchicalData)).2
          = hierarchicalData) as E1 by (by apply toggleNode_forest).
  assert (forall j, isExpanded st.1 j = isExpanded expandedNodes j) as Hr.
  { intros j. unfold st.
    destruct (SimpleOrgChart.toggleNode o nodeId (expandedNodes, hierarchicalData))
      as [e1 f1] eqn:Et.
    rewrite toggleNode_reads.
    assert (forall k, isExpanded e1 k
              = if decide (k = nodeId) then negb (isExpanded expandedNodes nodeId)
                else isExpanded expandedNodes k) as H1.
    { intros k. rewrite <- toggleNode_reads with (o := o) (hierarchicalData := hierarchicalData).
      by rewrite Et. }
    rewrite !H1. case_decide as Hj.
    - subst j. rewrite decide_True by done. apply negb_involutive.
    - done. }
  split; [|split; [exact Hr|]].
  - unfold st.
    destruct (SimpleOrgChart.toggleNode o nodeId (expandedNodes, hierarchicalData))
      as [e1 f1] eqn:Et.
    cbn [snd] in E1. subst f1. by apply toggleNode_forest.
  - apply visibleNodes_ext. intros j _. apply Hr.
Qed.

End ExpansionOps.

(* ------------------------------------------------------------------ *)
(** * The viewport of SimpleOrgChart                                   *)
(* ------------------------------------------------------------------ *)

Section SimpleView.
Import SimpleOrgChart.

Lemma qmax_cases a b : (qmax a b = a /\ b <= a)%Q \/ (qmax a b = b /\ a <= b)%Q.
Proof.
  unfold qmax. destruct (Qlt_le_dec a b) as [H|H]; [right|left]; split; try done.
  by apply Qlt_le_weak.
Qed.

Lemma qmin_cases a b : (qmin a b = a /\ a <= b)%Q \/ (qmin a b = b /\ b <= a)%Q.
Proof.
  unfold qmin. destruct (Qlt_le_dec b a) as [H|H]; [right|left]; split; try done.
  by apply Qlt_le_weak.
Qed.






(** ** Dragging *)





(** ** Bounding boxes *)

Lemma minInf_le acc v m :
  minInf acc v = Some m ->
  (m <= v)%Q /\ (forall a, acc = Some a -> (m <= a)%Q) /\
  (m == v \/ acc = Some m)%Q.
Proof.
  unfold minInf. intros [= <-]. destruct acc as [a|].
  - destruct (qmin_cases a v) as [[-> H]|[-> H]].
    + split; [done|]. split; [|by right]. intros ? [= <-]. apply Qle_refl.
    + split; [apply Qle_refl|]. split; [|by left]. by intros ? [= <-].
  - split; [apply Qle_refl|]. split; [done|by left].
Qed.

Lemma maxInf_ge acc v m :
  maxInf acc v = Some m ->
  (v <= m)%Q /\ (forall a, acc = Some a -> (a <= m)%Q).
Proof.
  unfold maxInf. intros [= <-]. destruct acc as [a|].
  - destruct (qmax_cases a v) as [[-> H]|[-> H]].
    + split; [done|]. intros ? [= <-]. apply Qle_refl.
    + split; [apply Qle_refl|]. by intros ? [= <-].
  - split; [apply Qle_refl|done].
Qed.

(** The loops over the positions: no position gives no bounds; otherwise
    every position lies within the bounds. *)
Lemma box_fold (f1 f2 f3 f4 : position -> Q) (pos : gmap Z position) :
  let r := map_fold
             (fun (_ : Z) p (acc : option Q * option Q * option Q * option Q) =>
                let '(a, b, c, d) := acc in
                (minInf a (f1 p), maxInf b (f2 p), minInf c (f3 p), maxInf d (f4 p)))
             (None, None, None, None) pos in
  (pos = ∅ /\ r = (None, None, None, None)) \/
  exists a b c d, r = (Some a, Some b, Some c, Some d) /\
    forall i p, pos !! i = Some p ->
      (a <= f1 p /\ f2 p <= b /\ c <= f3 p /\ f4 p <= d)%Q.
Proof.
  cbn zeta.
  apply (map_fold_weak_ind
    (fun (r : option Q * option Q * option Q * option Q) (m : gmap Z position) =>
       (m = ∅ /\ r = (None, None, None, None)) \/
       exists a b c d, r = (Some a, Some b, Some c, Some d) /\
         forall i p, m !! i = Some p ->
           (a <= f1 p /\ f2 p <= b /\ c <= f3 p /\ f4 p <= d)%Q)).
  { by left. }
  intros i p m r Hi IH. right.
  destruct r as [[[a b] c] d].
  destruct (minInf a (f1 p)) as [a'|] eqn:Ea; [|done].
  destruct (maxInf b (f2 p)) as [b'|] eqn:Eb; [|done].
  destruct (minInf c (f3 p)) as [c'|] eqn:Ec; [|done].
  destruct (maxInf d (f4 p)) as [d'|] eqn:Ed; [|done].
  exists a', b', c', d'. split; [done|].
  apply minInf_le in Ea as (Ha1 & Ha2 & _). apply maxInf_ge in Eb as (Hb1 & Hb2).
  apply minInf_le in Ec as (Hc1 & Hc2 & _). apply maxInf_ge in Ed as (Hd1 & Hd2).
  intros j q Hq. destruct (decide (i = j)) as [->|Hne].
  - rewrite lookup_insert_eq in Hq. injection Hq as <-. done.
  - rewrite lookup_insert_ne in Hq by done.
    destruct IH as [[-> _]|(a0 & b0 & c0 & d0 & [= -> -> -> ->] & IH)].
    { by rewrite lookup_empty in Hq. }
    destruct (IH j q Hq) as (H1 & H2 & H3 & H4).
    repeat split.
    + eapply Qle_trans; [by apply Ha2|done].
    + eapply Qle_trans; [done|by apply Hb2].
    + eapply Qle_trans; [by apply Hc2|done].
    + eapply Qle_trans; [done|by apply Hd2].
Qed.




Lemma zoomBox_bounds o nh vs pos :
  (pos = ∅ /\ zoomBox o nh vs pos = (None, None, None, None)) \/
  exists a b c d, zoomBox o nh vs pos = (Some a, Some b, Some c, Some d).
Proof.
  destruct (box_fold (fun p => (x p - nodeWidth o / 2)%Q)
                     (fun p => (x p + nodeWidth o / 2)%Q)
                     (fun p => (inject_Z (Z.of_nat (level p)) * (nh + vs) + 50 - nh / 2)%Q)
                     (fun p => (inject_Z (Z.of_nat (level p)) * (nh + vs) + 50 - nh / 2
                                + nh)%Q) pos)
    as [[-> E]|(a & b & c & d & E & _)]; [left|right]; eauto.
Qed.

(** X24 (autoAdjustZoom): the automatic zoom either leaves the view as it
    is or sets a scale within [0.5, 1.5] that differs from the old one by
    more than 0.1; without positioned nodes it does nothing.  A scale within
    the zoom range [0.5, 3] therefore stays within it. *)
Theorem autoAdjustZoom_bounded (o : options)
    (nodeHeight verticalSpacing containerWidth containerHeight : Q)
    (pos : gmap Z position) (v : view) :
  let v' := autoAdjustZoom o nodeHeight verticalSpacing containerWidth containerHeight
              pos v in
  (v' = v \/
   (1 # 2 <= currentScale v' /\ currentScale v' <= 3 # 2 /\
    1 # 10 < Qabs (currentScale v' - currentScale v))%Q) /\
  (pos = ∅ -> v' = v) /\
  (inZoomRange (currentScale v) -> inZoomRange (currentScale v')).
Proof.
  cbn zeta.
  set (v' := autoAdjustZoom _ _ _ _ _ _ _).
  assert (v' = v \/
   (1 # 2 <= currentScale v' /\ currentScale v' <= 3 # 2 /\
    1 # 10 < Qabs (currentScale v' - currentScale v))%Q) as H.
  { unfold v', autoAdjustZoom.
    destruct (zoomBox o nodeHeight verticalSpacing pos) as [[[[a|] [b|]] [c|]] [d|]];
      try by left.
    cbn zeta. destruct (Qlt_le_dec _ _) as [Hlt|Hle]; [right|by left].
    cbn [currentScale]. split; [apply qmax_bounds|]. split; [|exact Hlt].
    destruct (qmax_cases (1 # 2) (qmin (qmin (containerWidth / (b + 50 - (a - 50)))
                (containerHeight / (d + 50 - (c - 50)))) (3 # 2)))
      as [[-> _]|[-> _]]; [done|]. apply qmin_bounds. }
  split; [exact H|]. split.
  - intros ->. unfold v', autoAdjustZoom, zoomBox. by rewrite map_fold_empty.
  - intros [H1 H2]. destruct H as [->|(Ha & Hb & _)]; [done|].
    split; [done|]. eapply Qle_trans; [exact Hb|done].
Qed.

Lemma autoAdjustZoom_bounded_witness :
  let v := {| currentScale := 3; translationX := 0; translationY := 0 |} in
  let pos : gmap Z position :=
    <[1%Z := {| x := 1500; level := 0%nat |}]> (<[2%Z := {| x := 150; level := 1%nat |}]> ∅) in
  inZoomRange (currentScale v) /\
  inZoomRange (currentScale (autoAdjustZoom defaultOptions 140 80 800 600 pos v)).
Proof.
  intros v pos.
  assert (inZoomRange (currentScale v)) as H by (split; vm_compute; discriminate).
  split; [exact H|].
  exact (proj2 (proj2 (autoAdjustZoom_bounded defaultOptions 140 80 800 600 pos v)) H).
Defined.






End SimpleView.

(* ------------------------------------------------------------------ *)
(** * The viewport of HTMLOrgChart                                     *)
(* ------------------------------------------------------------------ *)

Section HtmlView.
Import HTMLOrgChart.







End HtmlView.

(* ------------------------------------------------------------------ *)
(** * Further properties of the layout                                 *)
(* ------------------------------------------------------------------ *)

Section LayoutFacts.
Import SimpleOrgChart.
Context (o : options) (e : gmap Z bool).

Lemma movedRight_refl pos : movedRight pos pos.
Proof. intros j. destruct (pos !! j); [|done]. split; [apply Qle_refl|done]. Qed.

Lemma movedRight_trans pos1 pos2 pos3 :
  movedRight pos1 pos2 -> movedRight pos2 pos3 -> movedRight pos1 pos3.
Proof.
  intros H1 H2 j. specialize (H1 j). specialize (H2 j).
  destruct (pos1 !! j), (pos2 !! j), (pos3 !! j); try done.
  destruct H1 as [H1 E1], H2 as [H2 E2]. split; [by eapply Qle_trans|congruence].
Qed.

Lemma movedRight_alter adj i pos :
  (0 <= adj)%Q -> movedRight pos (alter (shiftX adj) i pos).
Proof.
  intros Hadj j. destruct (decide (i = j)) as [->|Hne].
  - rewrite lookup_alter_eq. destruct (pos !! j) as [p|]; [|done]. cbn.
    split; [lra|done].
  - rewrite lookup_alter_ne by done. destruct (pos !! j); [|done].
    split; [apply Qle_refl|done].
Qed.

Lemma movedRight_subtree adj n : forall pos,
  (0 <= adj)%Q -> movedRight pos (adjustSubtreePositions e n adj pos).
Proof.
  induction n as [i nm ch IH] using tnode_forall_ind. intros pos Hadj.
  rewrite adjustSubtreePositions_eq. destruct (isExpanded e i); [|apply movedRight_refl].
  revert pos. induction IH as [|c ch Hc _ IHch]; intros pos; [apply movedRight_refl|].
  cbn [fold_left]. eapply movedRight_trans; [|apply IHch].
  destruct (pos !! id c); [|apply movedRight_refl].
  eapply movedRight_trans; [by apply movedRight_alter|by apply Hc].
Qed.

Lemma movedRight_shiftFrom adj nodes : forall pos,
  (0 <= adj)%Q -> movedRight pos (shiftFrom e adj nodes pos).
Proof.
  unfold shiftFrom. induction nodes as [|n nodes IH]; intros pos Hadj.
  { apply movedRight_refl. }
  cbn [fold_left]. eapply movedRight_trans; [|by apply IH].
  eapply movedRight_trans; [by apply movedRight_alter|by apply movedRight_subtree].
Qed.

Lemma movedRight_scanLevel rest : forall prev pos,
  movedRight pos (scanLevel o e prev rest pos).
Proof.
  induction rest as [|cur rest IH]; intros prev pos; [apply movedRight_refl|].
  cbn [scanLevel]. cbv zeta. eapply movedRight_trans; [|apply IH].
  destruct (Qlt_le_dec _ _) as [Hlt|Hle]; [|apply movedRight_refl].
  apply movedRight_shiftFrom. lra.
Qed.

Lemma movedRight_adjustLevel nodes pos :
  movedRight pos (adjustLevel o e nodes pos).2.
Proof.
  unfold adjustLevel. destruct nodes as [|a [|b nodes]]; try apply movedRight_refl.
  destruct (js_sort (compareX pos) (a :: b :: nodes)) as [|first rest];
    [apply movedRight_refl|]. apply movedRight_scanLevel.
Qed.

Lemma movedRight_adjustLevels levels : forall pos,
  movedRight pos (adjustLevels o e levels pos).2.
Proof.
  induction levels as [|nodes more IH]; intros pos; [apply movedRight_refl|].
  cbn [adjustLevels].
  pose proof (movedRight_adjustLevel nodes pos) as H1.
  destruct (adjustLevel o e nodes pos) as [nodes' pos1].
  pose proof (IH pos1) as H2.
  destruct (adjustLevels o e more pos1) as [more' pos2].
  cbn [snd] in *. by eapply movedRight_trans.
Qed.

Lemma calculateDimensions_positions hierarchicalData :
  nodePositions (calculateDimensions o e hierarchicalData)
  = (adjustLevels o e (nodesAtLevel (initialLayout o e hierarchicalData))
       (nodePositions (initialLayout o e hierarchicalData))).2.
Proof.
  unfold calculateDimensions. cbv zeta.
  by destruct (adjustLevels o e _ _).
Qed.

(** ** The level stored with a position *)

Lemma secondPass_level lvl nodes : forall i endX st n,
  n ∈ nodes ->
  level <$> (nodePositions
               (secondPass o i (map (buildNodeInfo o e lvl) nodes) endX lvl st) !! id n)
  = Some lvl.
Proof.
  induction nodes as [|c r IH]; intros i endX st n Hn.
  { by apply elem_of_nil in Hn. }
  cbn [map secondPass]. cbv zeta.
  destruct (decide (id n ∈ id <$> r)) as [Hin|Hnin].
  - apply list_elem_of_fmap in Hin as (n' & -> & Hn'). by apply IH.
  - rewrite secondPass_frame by done.
    apply elem_of_cons in Hn as [->|Hn].
    + rewrite buildNodeInfo_node. unfold setPosition. cbn [nodePositions].
      by rewrite lookup_insert_eq.
    + exfalso. apply Hnin. apply list_elem_of_fmap. eauto.
Qed.

Lemma below_not_sibling nodes d a :
  NoDup (forest_ids nodes) -> a ∈ levelBelow e (S d) nodes -> id a ∉ id <$> nodes.
Proof.
  intros Hnd Ha Hin.
  assert (id a ∈ touched nodes) as Ht.
  { apply (forest_ids_nextLevel_touched e).
    apply (forest_ids_levelBelow e (nextLevel e nodes) d).
    apply elem_of_forest_ids. exists a. split; [exact Ha|by left]. }
  rewrite forest_ids_perm in Hnd. apply NoDup_app in Hnd as (_ & Hdisj & _).
  by apply (Hdisj (id a)).
Qed.

Lemma firstPass_level nodes :
  Forall (fun n => forall lvl x st, NoDup (node_ids n) ->
            forall d a, a ∈ levelBelow e (S d) [n] ->
              level <$> (nodePositions
                           (firstPassNode o lvl (buildNodeInfo o e lvl n) x st) !! id a)
              = Some (lvl + S d)%nat) nodes ->
  forall lvl x st, NoDup (forest_ids nodes) ->
    forall d a, a ∈ levelBelow e (S d) nodes ->
      level <$> (nodePositions
                   (firstPass o lvl (map (buildNodeInfo o e lvl) nodes) x st).1 !! id a)
      = Some (lvl + S d)%nat.
Proof.
  induction 1 as [|c r Hc _ IH]; intros lvl x st Hnd d a Ha.
  { rewrite levelBelow_nil in Ha. by apply elem_of_nil in Ha. }
  cbn [map firstPass].
  change ((fix firstPass (l : list nodeInfo) (cursor : Q) (s : layout) : layout * Q := _)
            (map (buildNodeInfo o e lvl) r) ?x0 ?s0)
    with (firstPass o lvl (map (buildNodeInfo o e lvl) r) x0 s0).
  rewrite forest_ids_cons in Hnd.
  assert (NoDup (node_ids c)) as Hndc.
  { rewrite node_ids_eq. rewrite app_comm_cons in Hnd. by apply NoDup_app in Hnd as (? & _). }
  assert (NoDup (forest_ids r)) as Hndr.
  { rewrite app_comm_cons in Hnd. by apply NoDup_app in Hnd as (_ & _ & ?). }
  rewrite levelBelow_cons in Ha. apply elem_of_app in Ha as [Ha|Ha].
  - match goal with |- context [firstPass o lvl _ ?x0 ?s0] =>
      destruct (firstPass_centres o e r
                  (proj2 (Forall_forall _ _) (fun n _ => centresNode_all o e n))
                  lvl x0 s0 Hndr) as [Hframe _]
    end.
    cbv zeta in Hframe. rewrite Hframe; [by apply Hc|].
    assert (id a ∈ node_ids c) as Hin.
    { assert (id a ∈ forest_ids [c]) as Hin.
      { apply (forest_ids_levelBelow e [c] (S d)).
        apply elem_of_forest_ids. exists a. split; [exact Ha|by left]. }
      unfold forest_ids in Hin. cbn [flat_map] in Hin. by rewrite app_nil_r in Hin. }
    rewrite app_comm_cons in Hnd. apply NoDup_app in Hnd as (_ & Hdisj & _).
    apply Hdisj. by rewrite <- node_ids_eq.
  - by apply IH.
Qed.

Lemma assignXPositions_level nodes :
  Forall (fun n => forall lvl x st, NoDup (node_ids n) ->
            forall d a, a ∈ levelBelow e (S d) [n] ->
              level <$> (nodePositions
                           (firstPassNode o lvl (buildNodeInfo o e lvl n) x st) !! id a)
              = Some (lvl + S d)%nat) nodes ->
  forall lvl x st, NoDup (forest_ids nodes) ->
    forall d a, a ∈ levelBelow e d nodes ->
      level <$> (nodePositions
                   (assignXPositions o (map (buildNodeInfo o e lvl) nodes) x lvl st) !! id a)
      = Some (lvl + d)%nat.
Proof.
  intros HP lvl x st Hnd d a Ha. unfold assignXPositions.
  pose proof (firstPass_level nodes HP lvl x (withLevels (ensureLevel lvl) st) Hnd) as Hfp.
  destruct (firstPass o lvl (map (buildNodeInfo o e lvl) nodes) x
              (withLevels (ensureLevel lvl) st)) as [st1 endX].
  cbn [fst] in Hfp. destruct d as [|d].
  - rewrite Nat.add_0_r. by apply secondPass_level.
  - rewrite secondPass_frame; [by apply Hfp|]. by apply below_not_sibling with d.
Qed.

Lemma firstPassNode_level n : forall lvl x st, NoDup (node_ids n) ->
  forall d a, a ∈ levelBelow e (S d) [n] ->
    level <$> (nodePositions
                 (firstPassNode o lvl (buildNodeInfo o e lvl n) x st) !! id a)
    = Some (lvl + S d)%nat.
Proof.
  induction n as [i nm ch IH] using tnode_forall_ind.
  set (n := TNode i nm ch). intros lvl x st Hnd d a Ha.
  rewrite levelBelow_S_single in Ha.
  rewrite firstPassNode_eq, buildNodeInfo_children, buildNodeInfo_node.
  destruct (vchildren e n) as [|c0 ch0] eqn:Ev.
  { rewrite levelBelow_nil in Ha. by apply elem_of_nil in Ha. }
  cbn [map].
  change (buildNodeInfo o e (S lvl) c0 :: map (buildNodeInfo o e (S lvl)) ch0)
    with (map (buildNodeInfo o e (S lvl)) (c0 :: ch0)).
  rewrite <- Ev in *.
  replace (lvl + S d)%nat with (S lvl + d)%nat by lia.
  apply assignXPositions_level; [| |done].
  - unfold vchildren, n. simpl. destruct (isExpanded e i); [done|constructor].
  - rewrite node_ids_eq in Hnd. apply NoDup_cons in Hnd as [_ Hnd].
    unfold vchildren, sub_ids in *. destruct (isExpanded e (id n)); [done|constructor].
Qed.

Lemma initialLayout_level hierarchicalData d a :
  NoDup (forest_ids hierarchicalData) ->
  a ∈ levelBelow e d hierarchicalData ->
  level <$> (nodePositions (initialLayout o e hierarchicalData) !! id a) = Some d.
Proof.
  intros Hnd Ha. unfold initialLayout, buildVisibleTree. cbn [fst].
  change d with (0 + d)%nat. apply assignXPositions_level; [|done..].
  apply Forall_forall. intros n _. apply firstPassNode_level.
Qed.

(** ** Which ids get a position *)

Lemma secondPass_dom_sub lvl nodes i endX st j :
  is_Some (nodePositions
             (secondPass o i (map (buildNodeInfo o e lvl) nodes) endX lvl st) !! j) ->
  is_Some (nodePositions st !! j) \/ j ∈ id <$> nodes.
Proof.
  intros H. destruct (decide (j ∈ id <$> nodes)) as [Hin|Hnin]; [by right|left].
  by rewrite secondPass_frame in H.
Qed.

Lemma visibleNodes_roots nodes n : n ∈ nodes -> n ∈ visibleNodes e nodes.
Proof.
  intros Hn. apply elem_of_flat_map. exists n. split; [done|].
  rewrite visibleBelow_eq. left.
Qed.

Lemma firstPass_dom_sub nodes :
  Forall (fun n => forall lvl x st j,
            is_Some (nodePositions
                       (firstPassNode o lvl (buildNodeInfo o e lvl n) x st) !! j) ->
            is_Some (nodePositions st !! j) \/ j ∈ id <$> visibleBelow e n) nodes ->
  forall lvl x st j,
    is_Some (nodePositions
               (firstPass o lvl (map (buildNodeInfo o e lvl) nodes) x st).1 !! j) ->
    is_Some (nodePositions st !! j) \/ j ∈ id <$> visibleNodes e nodes.
Proof.
  induction 1 as [|c r Hc _ IH]; intros lvl x st j Hj; [by left|].
  cbn [map firstPass] in Hj.
  change ((fix firstPass (l : list nodeInfo) (cursor : Q) (s : layout) : layout * Q := _)
            (map (buildNodeInfo o e lvl) r) ?x0 ?s0)
    with (firstPass o lvl (map (buildNodeInfo o e lvl) r) x0 s0) in Hj.
  rewrite visibleNodes_cons, fmap_app, elem_of_app.
  apply IH in Hj as [Hj|Hj]; [|by auto].
  apply Hc in Hj as [Hj|Hj]; auto.
Qed.

Lemma assignXPositions_dom_sub nodes :
  Forall (fun n => forall lvl x st j,
            is_Some (nodePositions
                       (firstPassNode o lvl (buildNodeInfo o e lvl n) x st) !! j) ->
            is_Some (nodePositions st !! j) \/ j ∈ id <$> visibleBelow e n) nodes ->
  forall lvl x st j,
    is_Some (nodePositions
               (assignXPositions o (map (buildNodeInfo o e lvl) nodes) x lvl st) !! j) ->
    is_Some (nodePositions st !! j) \/ j ∈ id <$> visibleNodes e nodes.
Proof.
  intros HP lvl x st j. unfold assignXPositions.
  pose proof (firstPass_dom_sub nodes HP lvl x (withLevels (ensureLevel lvl) st) j) as Hfp.
  destruct (firstPass o lvl (map (buildNodeInfo o e lvl) nodes) x
              (withLevels (ensureLevel lvl) st)) as [st1 endX].
  cbn [fst] in Hfp. intros [Hj|Hj]%secondPass_dom_sub.
  - by apply Hfp.
  - right. apply list_elem_of_fmap in Hj as (n & -> & Hn).
    apply list_elem_of_fmap. exists n. split; [done|]. by apply visibleNodes_roots.
Qed.

Lemma firstPassNode_dom_sub n : forall lvl x st j,
  is_Some (nodePositions (firstPassNode o lvl (buildNodeInfo o e lvl n) x st) !! j) ->
  is_Some (nodePositions st !! j) \/ j ∈ id <$> visibleBelow e n.
Proof.
  induction n as [i nm ch IH] using tnode_forall_ind.
  set (n := TNode i nm ch). intros lvl x st j.
  rewrite firstPassNode_eq, buildNodeInfo_children, buildNodeInfo_node.
  rewrite (visibleBelow_eq e n), fmap_cons, elem_of_cons.
  destruct (vchildren e n) as [|c0 ch0] eqn:Ev.
  - cbn [map]. unfold setPosition, pushAtLevel. cbn [nodePositions].
    rewrite lookup_insert_is_Some. intros [->|[_ H]]; auto.
  - cbn [map].
    change (buildNodeInfo o e (S lvl) c0 :: map (buildNodeInfo o e (S lvl)) ch0)
      with (map (buildNodeInfo o e (S lvl)) (c0 :: ch0)).
    rewrite <- Ev. intros Hj. apply assignXPositions_dom_sub in Hj as [Hj|Hj]; auto.
    unfold vchildren, n. simpl. destruct (isExpanded e i); [done|constructor].
Qed.

Lemma initialLayout_dom_sub hierarchicalData j :
  is_Some (nodePositions (initialLayout o e hierarchicalData) !! j) ->
  j ∈ id <$> visibleNodes e hierarchicalData.
Proof.
  unfold initialLayout, buildVisibleTree. cbn [fst].
  intros [H|H]%assignXPositions_dom_sub; [|done|].
  - cbn in H. rewrite lookup_empty in H. by destruct H.
  - apply Forall_forall. intros n _. apply firstPassNode_dom_sub.
Qed.


Lemma collision_adjustment_moves_right_aux hierarchicalData :
  movedRight (nodePositions (initialLayout o e hierarchicalData))
             (nodePositions (calculateDimensions o e hierarchicalData)).
Proof.
  rewrite calculateDimensions_positions. apply movedRight_adjustLevels.
Qed.

End LayoutFacts.

(** X29 (calculateDimensions, collision adjustment): the adjustment that
    follows assignXPositions gives no node a position that had none, takes
    none away, changes no level and moves no node to the left: every x is
    at least what assignXPositions assigned. *)
Theorem collision_adjustment_moves_right (o : SimpleOrgChart.options)
    (expandedNodes : gmap Z bool) (hierarchicalData : list tnode) :
  movedRight
    (SimpleOrgChart.nodePositions
       (SimpleOrgChart.initialLayout o expandedNodes hierarchicalData))
    (SimpleOrgChart.nodePositions
       (SimpleOrgChart.calculateDimensions o expandedNodes hierarchicalData)).
Proof. apply collision_adjustment_moves_right_aux. Qed.

(** X30 (calculateDimensions, levels): on a tree with pairwise distinct
    ids, every visible node of depth d ends with a position whose level is
    d, so it is drawn in the row of its depth. *)
Theorem position_level_is_depth (o : SimpleOrgChart.options)
    (expandedNodes : gmap Z bool) (hierarchicalData : list tnode) (d : nat) (a : tnode) :
  NoDup (forest_ids hierarchicalData) ->
  a ∈ levelBelow expandedNodes d hierarchicalData ->
  exists p,
    SimpleOrgChart.nodePositions
      (SimpleOrgChart.calculateDimensions o expandedNodes hierarchicalData) !! id a
    = Some p /\
    SimpleOrgChart.level p = d.
Proof.
  intros Hnd Ha.
  pose proof (initialLayout_level o expandedNodes hierarchicalData d a Hnd Ha) as Hl.
  pose proof (collision_adjustment_moves_right_aux o expandedNodes hierarchicalData (id a))
    as Hm.
  destruct (SimpleOrgChart.nodePositions
              (SimpleOrgChart.initialLayout o expandedNodes hierarchicalData) !! id a)
    as [p0|]; [|done].
  destruct (SimpleOrgChart.nodePositions
              (SimpleOrgChart.calculateDimensions o expandedNodes hierarchicalData) !! id a)
    as [p|]; [|done].
  exists p. split; [done|]. destruct Hm as [_ ->]. by injection Hl.
Qed.

(** X15 (calculateDimensions, which nodes are placed): only visible nodes
    get a position: an id that has a position after calculateDimensions is
    the id of a visible node, so a collapsed subtree is not laid out. *)
Theorem only_visible_nodes_are_positioned (o : SimpleOrgChart.options)
    (expandedNodes : gmap Z bool) (hierarchicalData : list tnode) (j : Z) :
  is_Some (SimpleOrgChart.nodePositions
             (SimpleOrgChart.calculateDimensions o expandedNodes hierarchicalData) !! j) ->
  j ∈ id <$> visibleNodes expandedNodes hierarchicalData.
Proof.
  intros Hj. apply (initialLayout_dom_sub o).
  pose proof (collision_adjustment_moves_right_aux o expandedNodes hierarchicalData j) as Hm.
  destruct (SimpleOrgChart.nodePositions
              (SimpleOrgChart.initialLayout o expandedNodes hierarchicalData) !! j);
    [eauto|].
  destruct Hj as [p Hp]. by rewrite Hp in Hm.
Qed.

Lemma only_visible_nodes_are_positioned_witness :
  let data := [TNode 1 "Ann" [TNode 2 "Bob" [TNode 4 "Dan" []]; TNode 3 "Cid" []]] in
  let expandedNodes : gmap Z bool := <[1%Z := true]> ∅ in
  is_Some (SimpleOrgChart.nodePositions
             (SimpleOrgChart.calculateDimensions SimpleOrgChart.defaultOptions
                expandedNodes data) !! 2%Z) /\
  2%Z ∈ id <$> visibleNodes expandedNodes data.
Proof.
  intros data expandedNodes.
  assert (is_Some (SimpleOrgChart.nodePositions
             (SimpleOrgChart.calculateDimensions SimpleOrgChart.defaultOptions
                expandedNodes data) !! 2%Z)) as H.
  { vm_compute. eauto. }
  exact (conj H (only_visible_nodes_are_positioned SimpleOrgChart.defaultOptions
                   expandedNodes data 2 H)).
Defined.

Lemma position_level_is_depth_witness :
  let data := [TNode 1 "Ann" [TNode 2 "Bob" [TNode 4 "Dan" []]; TNode 3 "Cid" []]] in
  let expandedNodes : gmap Z bool := <[1%Z := true]> ∅ in
  NoDup (forest_ids data) /\
  (TNode 3 "Cid" [] ∈ levelBelow expandedNodes 1 data) /\
  exists p,
    SimpleOrgChart.nodePositions
      (SimpleOrgChart.calculateDimensions SimpleOrgChart.defaultOptions expandedNodes data)
      !! 3%Z = Some p /\
    SimpleOrgChart.level p = 1%nat.
Proof.
  intros data expandedNodes.
  assert (NoDup (forest_ids data)) as Hnd.
  { apply (bool_decide_unpack _); vm_compute; exact I. }
  assert (TNode 3 "Cid" [] ∈ levelBelow expandedNodes 1 data) as Hin.
  { vm_compute. right; left. }
  exact (conj Hnd (conj Hin
    (position_level_is_depth SimpleOrgChart.defaultOptions expandedNodes data 1
       (TNode 3 "Cid" []) Hnd Hin))).
Defined.

(* ------------------------------------------------------------------ *)
(** * No overlap in the binary64 layout                                *)
(* ------------------------------------------------------------------ *)

Section Rounding.



End Rounding.



